(** * Earliest-arrival search over a timetable graph

    A shallow embedding of [src/src/shortest_path_times_table.cpp] (the
    timetable variant of Dijkstra's search) and of the constant-weight
    [dijkstra] of [src/lab1/interval_covers.cpp], with the properties the
    specification states about them.

    Conventions of the embedding.
    - A C++ [int] is a [Z]; every addition and subtraction is followed by
      [wrap], the two's-complement reduction to 32 bits that the compiled
      program performs (the language leaves signed overflow undefined).
      [%] is [Z.rem] (truncation towards zero) and has no result when the
      divisor is zero, nor for [INT_MIN % -1], whose quotient is no [int]:
      the division instruction stops the program on both.
    - A [Node*] is the position of the node in [Graph::nodes]; [nullptr] is
      [None].  The order of two [Node*] inside the priority set is the
      order of their addresses, given by an injective map [addr].
    - [std::set<pair<int, Node*>>] is a strictly increasing list. *)

From Stdlib Require Import ZArith Lia Bool List String.
From stdpp Require Import base tactics option list numbers sorting strings pretty.

Local Open Scope Z_scope.

(** ** Machine integers *)

Definition INT_MAX : Z := 2147483647.
Definition INT_MIN : Z := -2147483648.

(** [static const int INF = numeric_limits<int>::max();] *)
Definition INF : Z := INT_MAX.

Definition in_int (z : Z) : Prop := INT_MIN <= z <= INT_MAX.

(** Reduction of an exact result to the 32-bit signed range. *)
Definition wrap (z : Z) : Z := (z + 2147483648) mod 4294967296 - 2147483648.

Definition int_add (a b : Z) : Z := wrap (a + b).
Definition int_sub (a b : Z) : Z := wrap (a - b).

(** [a % b]; no result for [b == 0], nor for [INT_MIN % -1], whose quotient
    does not fit in an [int]: the division instruction traps on both. *)
Definition int_rem (a b : Z) : option Z :=
  if b =? 0 then None
  else if (a =? INT_MIN) && (b =? -1) then None
  else Some (Z.rem a b).

(** ** Edges and the schedule function *)

Record Edge : Type := mkEdge {
  connection_node : nat;
  traverse_time : Z;
  start_time : Z;
  departure_time : Z
}.

#[global] Instance Edge_eq_dec : EqDecision Edge.
Proof. solve_decision. Defined.

(** The local variable [wait_time] of [Edge::get_travel_time], as computed
    by the inner [if]/[else if]/[else]; [None] when a modulo has no
    result. *)
Definition wait_time (e : Edge) (current_time : Z) : option Z :=
  if current_time <? start_time e then
    Some (int_sub (start_time e) current_time)
  else
    match int_rem (int_sub current_time (start_time e)) (departure_time e) with
    | None => None
    | Some r =>
        if r =? 0 then Some 0
        else
          match int_rem (int_sub current_time (start_time e)) (departure_time e) with
          | None => None
          | Some r' => Some (int_sub (departure_time e) r')
          end
    end.

(** [int Edge::get_travel_time(int current_time)]. *)
Definition get_travel_time (e : Edge) (current_time : Z) : option Z :=
  if (current_time >? start_time e) && (departure_time e =? 0) then Some INF
  else
    match wait_time e current_time with
    | None => None
    | Some w => Some (int_add (int_add current_time (traverse_time e)) w)
    end.

(** The schedule function as the specification words it, over unbounded
    integers; [None] is "unreachable via this edge". *)
Definition spec_wait (e : Edge) (current_time : Z) : Z :=
  if current_time <=? start_time e then start_time e - current_time
  else
    let phase := (current_time - start_time e) mod departure_time e in
    if phase =? 0 then 0 else departure_time e - phase.

Definition schedule (e : Edge) (current_time : Z) : option Z :=
  if (departure_time e =? 0) && (current_time >? start_time e) then None
  else Some (current_time + traverse_time e + spec_wait e current_time).

(** The same with the sentinel [INF] standing for "unreachable". *)
Definition spec_travel_time (e : Edge) (current_time : Z) : Z :=
  match schedule e current_time with
  | None => INF
  | Some t => t
  end.

Definition nonneg_edge (e : Edge) : Prop :=
  0 <= start_time e /\ 0 <= departure_time e /\ 0 <= traverse_time e.

(** The members of an edge are [int]s. *)
Definition int_edge (e : Edge) : Prop :=
  in_int (start_time e) /\ in_int (departure_time e) /\ in_int (traverse_time e).

#[global] Instance in_int_dec z : Decision (in_int z).
Proof. unfold in_int. apply _. Defined.

#[global] Instance nonneg_edge_dec e : Decision (nonneg_edge e).
Proof. unfold nonneg_edge. apply _. Defined.

#[global] Instance int_edge_dec e : Decision (int_edge e).
Proof. unfold int_edge. apply _. Defined.

(** ** Nodes and graphs *)

(** [class Node]; the constant member [index] is the position of the node
    in [Graph::nodes] and is not stored a second time. *)
Record Node : Type := mkNode {
  value : Z;
  visited : bool;
  prev_node : option nat;
  edges : list Edge
}.

Record Graph : Type := mkGraph {
  nodes : list Node;
  start_index : Z
}.

(** [Graph::Graph(num_nodes, init_value, start_index)]. *)
Definition new_Graph (num_nodes init_value start : Z) : Graph :=
  mkGraph (replicate (Z.to_nat num_nodes) (mkNode init_value false None []))
          start.

(** [nodes[index]] for an [int] index: the pointer stored there, and no
    result outside the vector. *)
Definition get_node (g : Graph) (index : Z) : option nat :=
  if (0 <=? index) && (index <? Z.of_nat (length (nodes g)))
  then Some (Z.to_nat index) else None.

(** Getters through a [Node*]. *)
Definition get_value (g : Graph) (n : nat) : Z :=
  from_option value 0 (nodes g !! n).
Definition is_visited (g : Graph) (n : nat) : bool :=
  from_option visited false (nodes g !! n).
Definition get_prev_node (g : Graph) (n : nat) : option nat :=
  from_option prev_node None (nodes g !! n).
Definition get_edges (g : Graph) (n : nat) : list Edge :=
  from_option edges [] (nodes g !! n).

(** Setters through a [Node*]. *)
Definition set_value (n : nat) (new_value : Z) (g : Graph) : Graph :=
  mkGraph
    (alter (fun nd => mkNode new_value (visited nd) (prev_node nd) (edges nd))
           n (nodes g))
    (start_index g).
Definition set_visited (n : nat) (new_visited : bool) (g : Graph) : Graph :=
  mkGraph
    (alter (fun nd => mkNode (value nd) new_visited (prev_node nd) (edges nd))
           n (nodes g))
    (start_index g).
Definition set_prev_node (n : nat) (new_pre : option nat) (g : Graph) : Graph :=
  mkGraph
    (alter (fun nd => mkNode (value nd) (visited nd) new_pre (edges nd))
           n (nodes g))
    (start_index g).
Definition add_edge (n : nat) (new_edge : Edge) (g : Graph) : Graph :=
  mkGraph
    (alter (fun nd => mkNode (value nd) (visited nd) (prev_node nd)
                             (edges nd ++ [new_edge]))
           n (nodes g))
    (start_index g).

(** [Graph::add_one_way_edge]; no result when an index is out of range. *)
Definition add_one_way_edge (node1 node2 start departure traverse : Z)
    (g : Graph) : option Graph :=
  match get_node g node1, get_node g node2 with
  | Some primary_node, Some secundary_node =>
      Some (add_edge primary_node
                     (mkEdge secundary_node traverse start departure) g)
  | _, _ => None
  end.

(** [Graph::graph_reset]. *)
Definition graph_reset (new_start_index init_value : Z) (g : Graph) : Graph :=
  mkGraph (map (fun nd => mkNode init_value false None (edges nd)) (nodes g))
          new_start_index.

(** ** Outcomes of a call *)

Inductive fault : Type :=
| DivisionByZero   (* a [%] with a zero divisor *)
| RemOverflow      (* [INT_MIN % -1] *)
| BadIndex.        (* [nodes[i]] outside the vector *)

(** The fault of a [%] that has no result, by its divisor. *)
Definition rem_fault (divisor : Z) : fault :=
  if divisor =? 0 then DivisionByZero else RemOverflow.

Inductive exit : Type :=
| Returned
| Crashed (f : fault)
| OutOfFuel.

(** ** Path reconstruction *)

(** The [while (current_prev != nullptr)] loop of [Graph::get_path], run for
    at most [fuel] rounds. *)
Fixpoint follow_prev (fuel : nat) (g : Graph) (current_prev : option nat)
    (return_path : list nat) : exit * list nat :=
  match current_prev with
  | None => (Returned, return_path)
  | Some p =>
      match fuel with
      | O => (OutOfFuel, return_path)
      | S fuel' =>
          follow_prev fuel' g (get_prev_node g p) (return_path ++ [p])
      end
  end.

(** The comparison [end_node_index >= get_nodes().size()] converts the
    [int] to the unsigned 64-bit [size_t]. *)
Definition to_size_t (i : Z) : Z := i mod 18446744073709551616.

(** [Graph::get_path].  The predecessor loop gets one round per node of
    the graph: a chain that is longer repeats a node and never ends. *)
Definition get_path (g : Graph) (end_node_index : Z) : exit * list nat :=
  if to_size_t end_node_index >=? Z.of_nat (length (nodes g)) then
    (Returned, [])
  else
    match get_node g end_node_index, get_node g (start_index g) with
    | Some end_node, Some start_node =>
        let current_prev := get_prev_node g end_node in
        let return_path := if is_visited g end_node then [end_node] else [] in
        match follow_prev (length (nodes g)) g current_prev return_path with
        | (Returned, return_path') => (Returned, rev return_path')
        | other => other
        end
    | _, _ => (Crashed BadIndex, [])
    end.

(** ** The search *)

(** What the search does to the nodes, in the order it does it: the calls
    of [set_value], and the calls [set_visited(true)] together with the
    value the node holds at that moment. *)
Inductive event : Type :=
| EvSetValue (n : nat) (v : Z)
| EvVisit (n : nat) (v : Z).

Definition entry : Type := Z * nat.

Record state : Type := mkState {
  graph : Graph;
  prio_queue : list entry;
  trace : list event
}.

Section Search.

(** The address of the node at each position. *)
Variable addr : nat -> Z.

(** [operator<] of [pair<int, Node*>]. *)
Definition entry_lt (a b : entry) : bool :=
  (a.1 <? b.1) || ((a.1 =? b.1) && (addr a.2 <? addr b.2)).

(** [set::insert]: nothing is added when an equivalent entry is there. *)
Fixpoint set_insert (x : entry) (q : list entry) : list entry :=
  match q with
  | [] => [x]
  | y :: q' =>
      if entry_lt x y then x :: y :: q'
      else if entry_lt y x then y :: set_insert x q'
      else y :: q'
  end.

(** [set::erase(key)]: the entry equivalent to the key goes. *)
Fixpoint set_erase (x : entry) (q : list entry) : list entry :=
  match q with
  | [] => []
  | y :: q' =>
      if entry_lt x y || entry_lt y x then y :: set_erase x q'
      else set_erase x q'
  end.

(** The body of the [for (Edge* edge : curr_node->get_edges())] loop. *)
Definition relax_edge (edge : Edge) (curr_node : nat) (st : state)
    : exit * state :=
  let neighbour_node := connection_node edge in
  if is_visited (graph st) neighbour_node then (Returned, st)
  else
    let current_time := get_value (graph st) curr_node in
    match get_travel_time edge current_time with
    | None => (Crashed (rem_fault (departure_time edge)), st)
    | Some upd_time =>
        let neighbour_value := get_value (graph st) neighbour_node in
        if upd_time <? neighbour_value then
          (Returned,
           mkState
             (set_prev_node neighbour_node (Some curr_node)
                (set_value neighbour_node upd_time (graph st)))
             (set_insert (upd_time, neighbour_node) (prio_queue st))
             (trace st ++ [EvSetValue neighbour_node upd_time]))
        else (Returned, st)
    end.

(** The loop over the edges of the current node. *)
Fixpoint relax_edges (es : list Edge) (curr_node : nat) (st : state)
    : exit * state :=
  match es with
  | [] => (Returned, st)
  | edge :: es' =>
      match relax_edge edge curr_node st with
      | (Returned, st') => relax_edges es' curr_node st'
      | stopped => stopped
      end
  end.

(** One round of the [while (!prio_queue.empty())] loop, from a state
    whose queue starts with [top]. *)
Definition visit_top (top : entry) (st : state) : exit * state :=
  let st1 := mkState (graph st) (set_erase top (prio_queue st)) (trace st) in
  let curr_node := top.2 in
  if is_visited (graph st1) curr_node then (Returned, st1)
  else
    relax_edges (get_edges (graph st1) curr_node) curr_node
      (mkState (set_visited curr_node true (graph st1))
               (prio_queue st1)
               (trace st1 ++ [EvVisit curr_node (get_value (graph st1) curr_node)])).

Fixpoint dijkstra_loop (fuel : nat) (st : state) : exit * state :=
  match prio_queue st with
  | [] => (Returned, st)
  | top :: _ =>
      match fuel with
      | O => (OutOfFuel, st)
      | S fuel' =>
          match visit_top top st with
          | (Returned, st') => dijkstra_loop fuel' st'
          | stopped => stopped
          end
      end
  end.

(** The number of edges of the graph. *)
Definition edge_count (g : Graph) : nat :=
  list_sum (map (fun nd => length (edges nd)) (nodes g)).

(** The state the loop starts from: the graph reset, the start node at
    time 0 and alone in the queue. *)
Definition initial_state (g : Graph) (start_node_index : Z) (start_node : nat)
    : state :=
  let g1 := graph_reset start_node_index INF g in
  let g2 := set_value start_node 0 g1 in
  mkState g2
    (set_insert (get_value g2 start_node, start_node) [])
    (map (fun n => EvSetValue n INF) (seq 0 (length (nodes g)))
       ++ [EvSetValue start_node 0]).

(** [void dijkstra_timetable(Graph& graph, int start_node_index)].  Every
    round of the loop either drops a queue entry or finalises a node and
    adds at most one entry per edge of it, so one round per edge and one
    more are enough (lemma [dijkstra_timetable_fuel]). *)
Definition dijkstra_timetable (g : Graph) (start_node_index : Z)
    : exit * state :=
  match get_node g start_node_index with
  | None =>
      (Crashed BadIndex,
       mkState (graph_reset start_node_index INF g) []
         (map (fun n => EvSetValue n INF) (seq 0 (length (nodes g)))))
  | Some start_node =>
      dijkstra_loop (S (edge_count g))
        (initial_state g start_node_index start_node)
  end.

End Search.

(** ** The query loop of [main] *)

(** One output line per query. *)
Definition query_line (g : Graph) (q_node : nat) : string :=
  let value := get_value g q_node in
  if value =? INF then "Impossible"%string else pretty value.

(** [for (k = 0; k < queries; k++)]: the queries read so far have produced
    the lines [out]. *)
Fixpoint print_queries (g : Graph) (queries : list Z) (out : list string)
    : exit * list string :=
  match queries with
  | [] => (Returned, out)
  | query :: rest =>
      match get_node g query with
      | None => (Crashed BadIndex, out)
      | Some q_node => print_queries g rest (out ++ [query_line g q_node])
      end
  end.

(** ** The constant-weight variant

    [dijkstra] of [src/lab1/interval_covers.cpp]: the same classes with a
    scalar [edge_cost] on the edge and a field [no_good] on the node, which
    the search never reads or writes. *)

Module Plain.

Record Edge : Type := mkEdge {
  connection_node : nat;
  edge_cost : Z
}.

Record Node : Type := mkNode {
  value : Z;
  visited : bool;
  prev_node : option nat;
  edges : list Edge;
  no_good : bool
}.

Record Graph : Type := mkGraph {
  nodes : list Node;
  start_index : Z
}.

Definition get_node (g : Graph) (index : Z) : option nat :=
  if (0 <=? index) && (index <? Z.of_nat (length (nodes g)))
  then Some (Z.to_nat index) else None.

Definition get_value (g : Graph) (n : nat) : Z :=
  from_option value 0 (nodes g !! n).
Definition is_visited (g : Graph) (n : nat) : bool :=
  from_option visited false (nodes g !! n).
Definition get_edges (g : Graph) (n : nat) : list Edge :=
  from_option edges [] (nodes g !! n).

Definition set_value (n : nat) (new_value : Z) (g : Graph) : Graph :=
  mkGraph
    (alter (fun nd => mkNode new_value (visited nd) (prev_node nd) (edges nd)
                             (no_good nd))
           n (nodes g))
    (start_index g).
Definition set_visited (n : nat) (new_visited : bool) (g : Graph) : Graph :=
  mkGraph
    (alter (fun nd => mkNode (value nd) new_visited (prev_node nd) (edges nd)
                             (no_good nd))
           n (nodes g))
    (start_index g).
Definition set_prev_node (n : nat) (new_pre : option nat) (g : Graph) : Graph :=
  mkGraph
    (alter (fun nd => mkNode (value nd) (visited nd) new_pre (edges nd)
                             (no_good nd))
           n (nodes g))
    (start_index g).

Definition graph_reset (new_start_index init_value : Z) (g : Graph) : Graph :=
  mkGraph
    (map (fun nd => mkNode init_value false None (edges nd) (no_good nd))
         (nodes g))
    new_start_index.

Record state : Type := mkState {
  graph : Graph;
  prio_queue : list entry
}.

Section Search.

Variable addr : nat -> Z.

(** The body of the loop over the edges of the current node. *)
Definition relax_edge (edge : Edge) (curr_node : nat) (st : state) : state :=
  let neighbour_node := connection_node edge in
  let travel_cost := edge_cost edge in
  if is_visited (graph st) neighbour_node then st
  else
    let neighbour_value := get_value (graph st) neighbour_node in
    let upd_cost := int_add (get_value (graph st) curr_node) travel_cost in
    if upd_cost <? neighbour_value then
      mkState
        (set_prev_node neighbour_node (Some curr_node)
           (set_value neighbour_node upd_cost (graph st)))
        (set_insert addr (upd_cost, neighbour_node) (prio_queue st))
    else st.

Fixpoint relax_edges (es : list Edge) (curr_node : nat) (st : state) : state :=
  match es with
  | [] => st
  | edge :: es' => relax_edges es' curr_node (relax_edge edge curr_node st)
  end.

Definition visit_top (top : entry) (st : state) : state :=
  let st1 := mkState (graph st) (set_erase addr top (prio_queue st)) in
  let curr_node := top.2 in
  if is_visited (graph st1) curr_node then st1
  else
    relax_edges (get_edges (graph st1) curr_node) curr_node
      (mkState (set_visited curr_node true (graph st1)) (prio_queue st1)).

Fixpoint dijkstra_loop (fuel : nat) (st : state) : exit * state :=
  match prio_queue st with
  | [] => (Returned, st)
  | top :: _ =>
      match fuel with
      | O => (OutOfFuel, st)
      | S fuel' => dijkstra_loop fuel' (visit_top top st)
      end
  end.

Definition edge_count (g : Graph) : nat :=
  list_sum (map (fun nd => length (edges nd)) (nodes g)).

(** [void dijkstra(Graph& graph, int start_node_index)]. *)
Definition dijkstra (g : Graph) (start_node_index : Z) : exit * state :=
  match get_node g start_node_index with
  | None => (Crashed BadIndex, mkState (graph_reset start_node_index INF g) [])
  | Some start_node =>
      let g2 := set_value start_node 0 (graph_reset start_node_index INF g) in
      dijkstra_loop (S (edge_count g))
        (mkState g2 (set_insert addr (get_value g2 start_node, start_node) []))
  end.

End Search.

End Plain.

(** The timetable graph read as a constant-weight graph: every edge keeps
    its head and takes its traversal time as cost. *)
Definition plain_edge (e : Edge) : Plain.Edge :=
  Plain.mkEdge (connection_node e) (traverse_time e).

Definition plain_node (nd : Node) : Plain.Node :=
  Plain.mkNode (value nd) (visited nd) (prev_node nd)
               (map plain_edge (edges nd)) false.

Definition plain_graph (g : Graph) : Plain.Graph :=
  Plain.mkGraph (map plain_node (nodes g)) (start_index g).

(** A plain weighted edge written as a schedule: first departure at 0,
    a departure at every tick. *)
Definition weight_edge (e : Edge) : Prop :=
  start_time e = 0 /\ departure_time e = 1 /\ 0 <= traverse_time e.

#[global] Instance weight_edge_dec e : Decision (weight_edge e).
Proof. unfold weight_edge. apply _. Defined.

(** ** Graphs the search is specified for *)

Definition all_edges (g : Graph) : list Edge := concat (map edges (nodes g)).

(** Every edge points to a node of the graph. *)
Definition wf_graph (g : Graph) : Prop :=
  Forall (fun e => (connection_node e < length (nodes g))%nat) (all_edges g).

Definition nonneg_graph (g : Graph) : Prop := Forall nonneg_edge (all_edges g).

Definition weight_graph (g : Graph) : Prop := Forall weight_edge (all_edges g).

#[global] Instance wf_graph_dec g : Decision (wf_graph g).
Proof. unfold wf_graph. apply _. Defined.

#[global] Instance nonneg_graph_dec g : Decision (nonneg_graph g).
Proof. unfold nonneg_graph. apply _. Defined.

#[global] Instance weight_graph_dec g : Decision (weight_graph g).
Proof. unfold weight_graph. apply _. Defined.

(** The longest an edge can take from the moment its tail is reached, when
    it can be taken at all: the wait is at most the first departure or one
    period. *)
Definition edge_span (e : Edge) : Z :=
  Z.max (start_time e) (departure_time e) + traverse_time e.

Definition max_span (g : Graph) : Z :=
  foldr Z.max 0 (map edge_span (all_edges g)).

(** No arrival time the search can compute leaves the range of [int] or
    reaches the sentinel. *)
Definition no_overflow (g : Graph) : Prop :=
  Z.of_nat (length (nodes g)) * max_span g < INF.

#[global] Instance no_overflow_dec g : Decision (no_overflow g).
Proof. unfold no_overflow. apply _. Defined.

(** ** Paths and earliest arrival *)

(** [path g u p v]: the edges [p], in order, lead from [u] to [v]. *)
Inductive path (g : Graph) : nat -> list Edge -> nat -> Prop :=
| path_nil u : (u < length (nodes g))%nat -> path g u [] u
| path_cons u e p v :
    e ∈ get_edges g u -> path g (connection_node e) p v ->
    path g u (e :: p) v.

(** The schedule function applied along the edges of a path, in order, from
    time [t]; [None] when some edge cannot be taken any more. *)
Fixpoint path_cost (p : list Edge) (t : Z) : option Z :=
  match p with
  | [] => Some t
  | e :: p' =>
      match schedule e t with
      | None => None
      | Some t' => path_cost p' t'
      end
  end.

(** [x] is the value the specification gives node [v]: the least cost of a
    path from [src], or the sentinel when no path can be travelled. *)
Definition earliest_arrival (g : Graph) (src v : nat) (x : Z) : Prop :=
  (x = INF /\ forall p, path g src p v -> path_cost p 0 = None)
  \/ (x < INF
      /\ (exists p, path g src p v /\ path_cost p 0 = Some x)
      /\ forall p c, path g src p v -> path_cost p 0 = Some c -> x <= c).

(** ** Reading the trace *)

(** The nodes finalised, in the order of their [set_visited(true)]. *)
Fixpoint finalized (tr : list event) : list nat :=
  match tr with
  | [] => []
  | EvVisit n _ :: tr' => n :: finalized tr'
  | EvSetValue _ _ :: tr' => finalized tr'
  end.

(** The values they were finalised with, in the same order. *)
Fixpoint visit_values (tr : list event) : list Z :=
  match tr with
  | [] => []
  | EvVisit _ v :: tr' => v :: visit_values tr'
  | EvSetValue _ _ :: tr' => visit_values tr'
  end.

(** No [set_value] on a node follows its [set_visited(true)]: every
    [set_value] on the node stands earlier in the trace. *)
Definition quiet_after_visit (tr : list event) : Prop :=
  forall i j n v w,
    tr !! i = Some (EvVisit n v) -> tr !! j = Some (EvSetValue n w) ->
    (j < i)%nat.



(** ** Notions of the proofs *)

(** The order of the priority set, as a relation. *)
Definition elt (addr : nat -> Z) (a b : entry) : Prop :=
  entry_lt addr a b = true.

(** The update of a relaxation: [set_value] then [set_prev_node]. *)
Definition relaxed (nb curr : nat) (upd : Z) (g : Graph) : Graph :=
  set_prev_node nb (Some curr) (set_value nb upd g).

(** The graph the loop starts from. *)
Definition started (s : Z) (src : nat) (g : Graph) : Graph :=
  set_value src 0 (graph_reset s INF g).

(** The edges of the nodes not yet finalised. *)
Definition pending_edges (g : Graph) : nat :=
  list_sum (map (fun nd => if visited nd then O else length (edges nd))
                (nodes g)).

(** What a state can still cost in rounds: one per queue entry, and one per
    entry the remaining relaxations can add. *)
Definition budget (st : state) : nat :=
  (length (prio_queue st) + pending_edges (graph st))%nat.

(** [a] is finalised, and strictly before [b] if [b] is finalised at all. *)
Definition before (a b : nat) (fin : list nat) : Prop :=
  exists i, fin !! i = Some a /\ forall j, fin !! j = Some b -> (i < j)%nat.

(** The invariant of the loop of [dijkstra_timetable], for the graph [g0]
    the search is called on and its start node [src]. *)
Record inv (addr : nat -> Z) (g0 : Graph) (src : nat) (st : state) : Prop :=
  mkInv {
  inv_length : length (nodes (graph st)) = length (nodes g0);
  inv_edges : forall n, get_edges (graph st) n = get_edges g0 n;
  inv_sorted : StronglySorted (elt addr) (prio_queue st);
  (* a queue entry is for a node of the graph, no better than the node's
     value, and below the sentinel *)
  inv_queue : forall k n, (k, n) ∈ prio_queue st ->
    (n < length (nodes g0))%nat /\ get_value (graph st) n <= k /\ k < INF;
  (* an unsettled node with a value waits in the queue under that value *)
  inv_pending : forall n, (n < length (nodes g0))%nat ->
    is_visited (graph st) n = false -> get_value (graph st) n <> INF ->
    (get_value (graph st) n, n) ∈ prio_queue st;
  inv_le_INF : forall n, get_value (graph st) n <= INF;
  inv_visited_lt : forall n,
    is_visited (graph st) n = true -> get_value (graph st) n < INF;
  (* the trace and the flags agree *)
  inv_finalized : forall n,
    is_visited (graph st) n = true <-> n ∈ finalized (trace st);
  inv_nodup : NoDup (finalized (trace st));
  inv_quiet : quiet_after_visit (trace st);
  inv_visit_value : forall n v,
    EvVisit n v ∈ trace st -> get_value (graph st) n = v;
  (* the start node *)
  inv_src : get_value (graph st) src = 0
    /\ get_prev_node (graph st) src = None
    /\ (is_visited (graph st) src = true
        \/ (prio_queue st = [(0, src)]
            /\ forall n, is_visited (graph st) n = false));
  (* predecessor links *)
  inv_prev : forall b a, get_prev_node (graph st) b = Some a ->
    is_visited (graph st) a = true /\ b <> src
    /\ (b < length (nodes g0))%nat
    /\ get_value (graph st) b < INF
    /\ before a b (finalized (trace st))
    /\ exists e, e ∈ get_edges g0 a /\ connection_node e = b
         /\ get_travel_time e (get_value (graph st) a)
            = Some (get_value (graph st) b);
  inv_noprev : forall b, (b < length (nodes g0))%nat -> b <> src ->
    get_prev_node (graph st) b = None -> get_value (graph st) b = INF;
  (* [start_index] names the start node *)
  inv_start : get_node (graph st) (start_index (graph st)) = Some src
}.

(** The nodes met by following predecessor links from [a] to the node that
    has none. *)
Inductive backward (g : Graph) : nat -> list nat -> Prop :=
| backward_end a : get_prev_node g a = None -> backward g a [a]
| backward_step a b ch :
    get_prev_node g a = Some b -> backward g b ch -> backward g a (a :: ch).

(** The invariant that needs arithmetic: no sum leaves [int], and the
    values are arrival times. *)
Record invB (g0 : Graph) (src : nat) (hi : Z) (st : state) : Prop :=
  mkInvB {
  b_nonneg : forall n, 0 <= get_value (graph st) n;
  (* [hi] separates the finalised values from the queue *)
  b_hi_vis : forall u,
    is_visited (graph st) u = true -> get_value (graph st) u <= hi;
  b_hi_queue : forall k n, (k, n) ∈ prio_queue st -> hi <= k;
  (* values stay within one span per finalised node *)
  b_vis_bound : forall u, is_visited (graph st) u = true ->
    get_value (graph st) u
    <= (Z.of_nat (length (finalized (trace st))) - 1) * max_span g0;
  b_bound : forall n, get_value (graph st) n <> INF ->
    get_value (graph st) n
    <= Z.of_nat (length (finalized (trace st))) * max_span g0;
  b_sorted : StronglySorted Z.le (visit_values (trace st));
  (* a value is the cost of a path *)
  b_real : forall n, (n < length (nodes g0))%nat ->
    get_value (graph st) n <> INF ->
    exists p, path g0 src p n /\ path_cost p 0 = Some (get_value (graph st) n)
}.

(** Every edge of a finalised node is respected by the value of its head,
    save the edges [pend] of [curr] that the edge loop has not reached. *)
Definition closed (g0 : Graph) (st : state) (curr : nat) (pend : list Edge)
    : Prop :=
  forall u e c,
    is_visited (graph st) u = true -> e ∈ get_edges g0 u ->
    (u = curr -> e ∉ pend) ->
    schedule e (get_value (graph st) u) = Some c ->
    get_value (graph st) (connection_node e) <= c.

(** The state of the constant-weight search that matches a state. *)
Definition plain_state (st : state) : Plain.state :=
  Plain.mkState (plain_graph (graph st)) (prio_queue st).

(** ** Worked inputs *)

(** The scenario of the specification, with a fourth node out of reach:
    0 -> 1 leaves once at time 5 and takes 2; 1 -> 2 leaves at time 10 and
    every 3 after it and takes 1. *)
Definition timetable_graph : Graph :=
  mkGraph [ mkNode INF false None [mkEdge 1 2 5 0];
            mkNode INF false None [mkEdge 2 1 10 3];
            mkNode INF false None [];
            mkNode INF false None [] ] 0.

(** Plain weighted edges: 0 -> 1 of weight 4, 0 -> 2 of weight 1,
    2 -> 1 of weight 2 and 1 -> 3 of weight 1. *)
Definition weighted_graph : Graph :=
  mkGraph [ mkNode INF false None [mkEdge 1 4 0 1; mkEdge 2 1 0 1];
            mkNode INF false None [mkEdge 3 1 0 1];
            mkNode INF false None [mkEdge 1 2 0 1];
            mkNode INF false None [] ] 0.

(** Two edges whose durations add up to more than an [int] holds:
    0 -> 1 of weight 1 and 1 -> 2 of weight [INT_MAX]; and the same with a
    third edge 2 -> 3 of weight 5. *)
Definition overflow_graph : Graph :=
  mkGraph [ mkNode INF false None [mkEdge 1 1 0 1];
            mkNode INF false None [mkEdge 2 INT_MAX 0 1];
            mkNode INF false None [] ] 0.

Definition overflow_graph4 : Graph :=
  mkGraph [ mkNode INF false None [mkEdge 1 1 0 1];
            mkNode INF false None [mkEdge 2 INT_MAX 0 1];
            mkNode INF false None [mkEdge 3 5 0 1];
            mkNode INF false None [] ] 0.

(** A one-shot edge 0 -> 1 that leaves at time 0, the moment the search
    stands at node 0; the input [2 1 1 0 / 0 1 0 0 5 / 1]. *)
Definition one_shot_graph : Graph :=
  mkGraph [ mkNode INF false None [mkEdge 1 5 0 0];
            mkNode INF false None [] ] 0.

(** An edge 0 -> 1 of period -1 whose first departure is at [INT_MIN]; the
    input [2 1 1 0 / 0 1 -2147483648 -1 5 / 1].  At time 0 the difference
    [0 - INT_MIN] wraps to [INT_MIN], and [INT_MIN % -1] follows. *)
Definition trap_graph : Graph :=
  mkGraph [ mkNode INF false None [mkEdge 1 5 INT_MIN (-1)];
            mkNode INF false None [] ] 0.

(** Nodes laid out in memory in the order of their positions. *)
Definition in_order : nat -> Z := Z.of_nat.

(** Nodes laid out in memory against the order of their positions. *)
Definition reverse_order : nat -> Z := fun n => - Z.of_nat n.

(** Two equally short ways to node 3: 0 -> 1 -> 3 and 0 -> 2 -> 3, every
    edge of weight 1. *)
Definition tie_graph : Graph :=
  mkGraph [ mkNode INF false None [mkEdge 1 1 0 1; mkEdge 2 1 0 1];
            mkNode INF false None [mkEdge 3 1 0 1];
            mkNode INF false None [mkEdge 3 1 0 1];
            mkNode INF false None [] ] 0.

(** ** Further readings of the trace *)

(** Every [set_value] on a node writes less than every earlier one on that
    node. *)
Definition improving (tr : list event) : Prop :=
  forall i j n v w, (i < j)%nat ->
    tr !! i = Some (EvSetValue n v) -> tr !! j = Some (EvSetValue n w) ->
    w < v.

(** No node holds more than a value written to it. *)
Definition below_written (st : state) : Prop :=
  forall j n v, trace st !! j = Some (EvSetValue n v) ->
    get_value (graph st) n <= v.

(** ** Departures *)

(** [d] is an instant at which the edge can be entered: its first
    departure, or a whole number of periods after it. *)
Definition is_departure (e : Edge) (d : Z) : Prop :=
  exists k, 0 <= k /\ d = start_time e + k * departure_time e.

(** ** One test case of [main] *)

(** The five numbers of an edge line of the input: [node1], [node2],
    [start_time], [departure_time], [traverse_time]. *)
Definition edge_line : Type := (Z * Z * Z * Z * Z)%type.

(** [for (i = 0; i < num_edges; i++)]: one [add_one_way_edge] per line. *)
Fixpoint add_edges (lines : list edge_line) (g : Graph) : option Graph :=
  match lines with
  | [] => Some g
  | (node1, node2, start, departure, traverse) :: rest =>
      match add_one_way_edge node1 node2 start departure traverse g with
      | None => None
      | Some g' => add_edges rest g'
      end
  end.

(** The body of the [while] loop of [main] for one test case whose numbers
    have been read: build the graph, search, answer the queries. *)
Definition test_case (addr : nat -> Z) (num_nodes start_node_index : Z)
    (lines : list edge_line) (queries : list Z) : exit * list string :=
  match add_edges lines (new_Graph num_nodes INF start_node_index) with
  | None => (Crashed BadIndex, [])
  | Some g =>
      match dijkstra_timetable addr g start_node_index with
      | (Returned, st) => print_queries (graph st) queries []
      | (x, _) => (x, [])
      end
  end.

(** The node an edge line leaves, and the edge it stands for. *)
Definition line_tail (l : edge_line) : Z := l.1.1.1.1.
Definition line_head (l : edge_line) : Z := l.1.1.1.2.
Definition line_edge (l : edge_line) : Edge :=
  let '(_, node2, start, departure, traverse) := l in
  mkEdge (Z.to_nat node2) traverse start departure.

(** ** Constant-weight graphs: paths and distances *)

Definition plain_all_edges (g : Plain.Graph) : list Plain.Edge :=
  concat (map Plain.edges (Plain.nodes g)).

(** Every edge points to a node of the graph, and no cost is negative. *)
Definition plain_wf_graph (g : Plain.Graph) : Prop :=
  Forall (fun e => (Plain.connection_node e < length (Plain.nodes g))%nat)
         (plain_all_edges g).

Definition plain_nonneg_graph (g : Plain.Graph) : Prop :=
  Forall (fun e => 0 <= Plain.edge_cost e) (plain_all_edges g).

Definition plain_max_cost (g : Plain.Graph) : Z :=
  foldr Z.max 0 (map Plain.edge_cost (plain_all_edges g)).

(** No sum of costs the search can compute reaches the sentinel. *)
Definition plain_no_overflow (g : Plain.Graph) : Prop :=
  Z.of_nat (length (Plain.nodes g)) * (1 + plain_max_cost g) < INF.

#[global] Instance plain_wf_graph_dec g : Decision (plain_wf_graph g).
Proof. unfold plain_wf_graph. apply _. Defined.

#[global] Instance plain_nonneg_graph_dec g : Decision (plain_nonneg_graph g).
Proof. unfold plain_nonneg_graph. apply _. Defined.

#[global] Instance plain_no_overflow_dec g : Decision (plain_no_overflow g).
Proof. unfold plain_no_overflow. apply _. Defined.

Inductive plain_path (g : Plain.Graph) : nat -> list Plain.Edge -> nat -> Prop :=
| plain_path_nil u : (u < length (Plain.nodes g))%nat -> plain_path g u [] u
| plain_path_cons u e p v :
    e ∈ Plain.get_edges g u -> plain_path g (Plain.connection_node e) p v ->
    plain_path g u (e :: p) v.

Definition plain_cost (p : list Plain.Edge) : Z :=
  foldr (fun e acc => Plain.edge_cost e + acc) 0 p.

(** [x] is the distance from [src] to [v], with the sentinel [INF] when no
    path leads there. *)
Definition shortest_distance (g : Plain.Graph) (src v : nat) (x : Z) : Prop :=
  (x = INF /\ forall p, ~ plain_path g src p v)
  \/ (x < INF
      /\ (exists p, plain_path g src p v /\ plain_cost p = x)
      /\ forall p, plain_path g src p v -> x <= plain_cost p).

(** A constant-weight graph written with timetables: every edge departs at
    time 0 and at every tick after it. *)
Definition timetable_edge (e : Plain.Edge) : Edge :=
  mkEdge (Plain.connection_node e) (Plain.edge_cost e) 0 1.

Definition timetable_node (nd : Plain.Node) : Node :=
  mkNode (Plain.value nd) (Plain.visited nd) (Plain.prev_node nd)
         (map timetable_edge (Plain.edges nd)).

Definition timetable_of (g : Plain.Graph) : Graph :=
  mkGraph (map timetable_node (Plain.nodes g)) (Plain.start_index g).

(** The graph with the field [no_good] cleared on every node. *)
Definition clear_no_good (g : Plain.Graph) : Plain.Graph :=
  Plain.mkGraph
    (map (fun nd => Plain.mkNode (Plain.value nd) (Plain.visited nd)
                      (Plain.prev_node nd) (Plain.edges nd) false)
         (Plain.nodes g))
    (Plain.start_index g).

Definition clear_state (st : Plain.state) : Plain.state :=
  Plain.mkState (clear_no_good (Plain.graph st)) (Plain.prio_queue st).

(** The constant-weight graph 0 -> 1 (4), 0 -> 2 (1), 2 -> 1 (2), with a
    fourth node out of reach and marked [no_good]. *)
Definition plain_weighted_graph : Plain.Graph :=
  Plain.mkGraph
    [ Plain.mkNode INF false None [Plain.mkEdge 1 4; Plain.mkEdge 2 1] false;
      Plain.mkNode INF false None [] false;
      Plain.mkNode INF false None [Plain.mkEdge 1 2] false;
      Plain.mkNode INF false None [] true ]
    0.

(** What a search has no business changing: the edges and the field
    [no_good] of every node. *)
Definition plain_frame (g : Plain.Graph) : list (list Plain.Edge * bool) :=
  map (fun nd => (Plain.edges nd, Plain.no_good nd)) (Plain.nodes g).

(** ** Arithmetic facts *)

Lemma wrap_small z : in_int z -> wrap z = z.
Proof.
  unfold in_int, wrap, INT_MIN, INT_MAX. intros H.
  rewrite Z.mod_small by lia. lia.
Qed.

Lemma wrap_range z : in_int (wrap z).
Proof.
  unfold in_int, wrap, INT_MIN, INT_MAX.
  pose proof (Z.mod_pos_bound (z + 2147483648) 4294967296). lia.
Qed.

Lemma wrap_idemp z : wrap (wrap z) = wrap z.
Proof. apply wrap_small, wrap_range. Qed.

Lemma INF_in_int : in_int INF.
Proof. unfold in_int, INF, INT_MIN, INT_MAX. lia. Qed.

(** ** The schedule function *)

Lemma int_rem_nonneg a b :
  0 <= a -> 0 < b -> int_rem a b = Some (a mod b).
Proof.
  intros Ha Hb. unfold int_rem.
  destruct (Z.eqb_spec b 0); [lia|].
  destruct (Z.eqb_spec b (-1)); [lia|]. rewrite andb_false_r.
  by rewrite Z.rem_mod_nonneg by lia.
Qed.

Lemma int_rem_nonneg_div a b : 0 < b -> int_rem a b = Some (Z.rem a b).
Proof.
  intros Hb. unfold int_rem.
  destruct (Z.eqb_spec b 0); [lia|].
  destruct (Z.eqb_spec b (-1)); [lia|]. by rewrite andb_false_r.
Qed.

(** Where the code computes a wait, it is the wait of the specification. *)
Lemma wait_time_spec e t :
  nonneg_edge e -> int_edge e -> 0 <= t <= INT_MAX ->
  departure_time e <> 0 \/ t < start_time e ->
  wait_time e t = Some (spec_wait e t).
Proof.
  intros (Hs & Hp & Hd) (Is & Ip & Id) Ht Hok.
  unfold in_int, INT_MIN, INT_MAX in *.
  unfold wait_time, spec_wait.
  destruct (t <? start_time e) eqn:E1.
  - apply Z.ltb_lt in E1.
    destruct (t <=? start_time e) eqn:E2; [|lia].
    unfold int_sub. rewrite wrap_small; [done|].
    unfold in_int, INT_MIN, INT_MAX. lia.
  - apply Z.ltb_ge in E1.
    assert (Hp' : 0 < departure_time e) by lia.
    unfold int_sub. rewrite (wrap_small (t - start_time e))
      by (unfold in_int, INT_MIN, INT_MAX; lia).
    rewrite (int_rem_nonneg (t - start_time e)) by lia.
    pose proof (Z.mod_pos_bound (t - start_time e) (departure_time e) Hp') as Hm.
    destruct (t <=? start_time e) eqn:E2.
    + apply Z.leb_le in E2. replace (t - start_time e) with 0 by lia.
      rewrite Z.mod_0_l by lia. simpl. f_equal. lia.
    + destruct ((t - start_time e) mod departure_time e =? 0); [done|].
      rewrite wrap_small; [done|].
      unfold in_int, INT_MIN, INT_MAX. lia.
Qed.

Lemma spec_wait_nonneg e t :
  nonneg_edge e -> departure_time e <> 0 \/ t <= start_time e ->
  0 <= spec_wait e t.
Proof.
  intros (Hs & Hp & Hd) Hok. unfold spec_wait.
  destruct (t <=? start_time e) eqn:E; [apply Z.leb_le in E; lia|].
  apply Z.leb_gt in E.
  assert (Hp' : 0 < departure_time e) by lia.
  pose proof (Z.mod_pos_bound (t - start_time e) (departure_time e) Hp').
  destruct (_ =? 0); lia.
Qed.

(** The wait never exceeds the first departure or one period. *)
Lemma spec_wait_le_span e t :
  nonneg_edge e -> 0 <= t -> departure_time e <> 0 \/ t <= start_time e ->
  spec_wait e t <= Z.max (start_time e) (departure_time e).
Proof.
  intros (Hs & Hp & Hd) Ht Hok. unfold spec_wait.
  destruct (t <=? start_time e) eqn:E; [apply Z.leb_le in E; lia|].
  apply Z.leb_gt in E.
  assert (Hp' : 0 < departure_time e) by lia.
  pose proof (Z.mod_pos_bound (t - start_time e) (departure_time e) Hp').
  destruct (_ =? 0); lia.
Qed.

Lemma schedule_None e t :
  schedule e t = None <-> departure_time e = 0 /\ t > start_time e.
Proof.
  unfold schedule. rewrite Z.gtb_ltb.
  destruct (Z.eqb_spec (departure_time e) 0) as [E1|E1];
    destruct (Z.ltb_spec (start_time e) t) as [E2|E2]; simpl;
    split; try done; lia.
Qed.

Lemma schedule_Some e t c :
  schedule e t = Some c ->
  (departure_time e <> 0 \/ t <= start_time e)
  /\ c = t + traverse_time e + spec_wait e t.
Proof.
  unfold schedule. rewrite Z.gtb_ltb.
  destruct (Z.eqb_spec (departure_time e) 0) as [E1|E1];
    destruct (Z.ltb_spec (start_time e) t) as [E2|E2]; simpl;
    try done; intros [= <-]; split; auto.
Qed.

(** An edge that can be taken is left no earlier than it is entered, and no
    later than its span allows. *)
Lemma schedule_bounds e t c :
  nonneg_edge e -> 0 <= t -> schedule e t = Some c ->
  t <= c <= t + edge_span e.
Proof.
  intros Hnn Ht Hc. apply schedule_Some in Hc as [Hok ->].
  pose proof (spec_wait_nonneg e t Hnn Hok).
  pose proof (spec_wait_le_span e t Hnn Ht Hok).
  destruct Hnn as (? & ? & ?). unfold edge_span. lia.
Qed.

(** The code against the schedule function, outside the boundary
    [departure_time == 0 && current_time == start_time] and as long as the
    exact sum fits. *)
Lemma get_travel_time_schedule e t :
  nonneg_edge e -> int_edge e -> 0 <= t <= INT_MAX ->
  ~ (departure_time e = 0 /\ t = start_time e) ->
  spec_travel_time e t <= INT_MAX ->
  get_travel_time e t = Some (spec_travel_time e t).
Proof.
  intros Hnn Hint Ht Hbd Hfit.
  unfold get_travel_time, spec_travel_time in *.
  destruct (schedule e t) as [c|] eqn:Hs.
  - pose proof Hs as Hs'. apply schedule_Some in Hs' as [Hok ->].
    assert (Hg : (t >? start_time e) && (departure_time e =? 0) = false).
    { apply andb_false_iff. destruct Hok as [Hok|Hok].
      - right. by apply Z.eqb_neq.
      - left. rewrite Z.gtb_ltb. apply Z.ltb_ge. lia. }
    rewrite Hg, wait_time_spec; [| done..|lia].
    pose proof (spec_wait_nonneg e t Hnn Hok).
    destruct Hnn as (? & ? & ?). unfold INT_MAX in *.
    unfold int_add.
    rewrite (wrap_small (t + traverse_time e))
      by (unfold in_int, INT_MIN, INT_MAX; lia).
    rewrite wrap_small by (unfold in_int, INT_MIN, INT_MAX; lia). done.
  - apply schedule_None in Hs as [Hp Hgt].
    assert (Hg : (t >? start_time e) && (departure_time e =? 0) = true).
    { apply andb_true_iff. split; [lia | by apply Z.eqb_eq]. }
    by rewrite Hg.
Qed.

Lemma wrap_add_l a b : wrap (wrap a + b) = wrap (a + b).
Proof.
  unfold wrap. f_equal.
  replace ((a + 2147483648) mod 4294967296 - 2147483648 + b + 2147483648)
    with ((a + 2147483648) mod 4294967296 + b) by lia.
  replace (a + b + 2147483648) with (a + 2147483648 + b) by lia.
  by rewrite Zplus_mod_idemp_l.
Qed.

(** In general the code returns the 32-bit reduction of the value of the
    schedule function. *)
Lemma get_travel_time_wrapped e t :
  nonneg_edge e -> int_edge e -> 0 <= t <= INT_MAX ->
  ~ (departure_time e = 0 /\ t = start_time e) ->
  get_travel_time e t = Some (wrap (spec_travel_time e t)).
Proof.
  intros Hnn Hint Ht Hbd.
  unfold get_travel_time, spec_travel_time in *.
  destruct (schedule e t) as [c|] eqn:Hs.
  - pose proof Hs as Hs'. apply schedule_Some in Hs' as [Hok ->].
    assert (Hg : (t >? start_time e) && (departure_time e =? 0) = false).
    { apply andb_false_iff. destruct Hok as [Hok|Hok].
      - right. by apply Z.eqb_neq.
      - left. rewrite Z.gtb_ltb. apply Z.ltb_ge. lia. }
    rewrite Hg, wait_time_spec; [| done..|lia].
    unfold int_add. by rewrite wrap_add_l.
  - apply schedule_None in Hs as [Hp Hgt].
    assert (Hg : (t >? start_time e) && (departure_time e =? 0) = true).
    { apply andb_true_iff. split; [lia | by apply Z.eqb_eq]. }
    by rewrite Hg.
Qed.

Lemma int_rem_None a b :
  int_rem a b = None <-> b = 0 \/ (a = INT_MIN /\ b = -1).
Proof.
  unfold int_rem.
  destruct (Z.eqb_spec b 0); [split; [by left | done]|].
  destruct (Z.eqb_spec a INT_MIN), (Z.eqb_spec b (-1)); simpl;
    split; try done; try tauto; intros [?|[? ?]]; done.
Qed.

(** The call has no result exactly where its [%] has none: at the boundary
    of a one-shot edge, and where [INT_MIN % -1] is computed. *)
Lemma get_travel_time_None e t :
  get_travel_time e t = None
  <-> (departure_time e = 0 /\ t = start_time e)
      \/ (departure_time e = -1 /\ start_time e <= t
          /\ int_sub t (start_time e) = INT_MIN).
Proof.
  unfold get_travel_time, wait_time.
  destruct (int_rem (int_sub t (start_time e)) (departure_time e))
    as [r|] eqn:Hr.
  - assert (Hn : ~ (departure_time e = 0
                    \/ (int_sub t (start_time e) = INT_MIN
                        /\ departure_time e = -1))).
    { intros H%int_rem_None. congruence. }
    destruct ((t >? start_time e) && (departure_time e =? 0));
      [split; [done | tauto]|].
    destruct (t <? start_time e); [split; [done | tauto]|].
    destruct (r =? 0); split; try done; tauto.
  - apply int_rem_None in Hr.
    destruct (Z.gtb_spec t (start_time e)), (Z.eqb_spec (departure_time e) 0);
      simpl; destruct (Z.ltb_spec t (start_time e)); split; try done; lia.
Qed.

Lemma get_travel_time_boundary e t :
  departure_time e = 0 -> t = start_time e -> get_travel_time e t = None.
Proof. intros Hp Ht. apply get_travel_time_None. by left. Qed.

(** With a period that is not negative, only at the boundary. *)
Lemma get_travel_time_None_nonneg e t :
  0 <= departure_time e ->
  get_travel_time e t = None <-> departure_time e = 0 /\ t = start_time e.
Proof. rewrite get_travel_time_None. intros Hp. split; [lia | tauto]. Qed.

(** A plain weighted edge costs its weight, in the arithmetic of [int]. *)
Lemma get_travel_time_weight e t :
  weight_edge e -> 0 <= t <= INT_MAX ->
  get_travel_time e t = Some (int_add t (traverse_time e)).
Proof.
  intros (Hs & Hp & Hd) Ht. unfold INT_MAX in Ht.
  unfold get_travel_time, wait_time. rewrite Hs, Hp.
  replace (1 =? 0) with false by done. rewrite andb_false_r.
  destruct (t <? 0) eqn:E; [apply Z.ltb_lt in E; lia|].
  unfold int_sub. rewrite int_rem_nonneg_div by lia. rewrite Z.rem_1_r. simpl.
  unfold int_add. by rewrite Z.add_0_r, wrap_idemp.
Qed.

(** C2, amended.  For a non-negative [current_time] and an edge of
    non-negative [int] members, the boundary [period == 0] with
    [current_time == departure_start] set aside, [get_travel_time] returns
    the 32-bit reduction of the specification's reference function (the
    sentinel when the single departure has passed, else
    [current_time + duration + wait]), hence the reference value itself
    whenever that value fits in an [int]. *)
Theorem get_travel_time_matches_reference (e : Edge) (current_time : Z) :
  nonneg_edge e -> int_edge e -> 0 <= current_time <= INT_MAX ->
  ~ (departure_time e = 0 /\ current_time = start_time e) ->
  get_travel_time e current_time = Some (wrap (spec_travel_time e current_time))
  /\ (spec_travel_time e current_time <= INT_MAX ->
      get_travel_time e current_time = Some (spec_travel_time e current_time)).
Proof.
  intros Hnn Hint Ht Hbd. split.
  - by apply get_travel_time_wrapped.
  - intros Hfit. by apply get_travel_time_schedule.
Qed.

(** C3.  The call divides by zero at [current_time == start_time] on a
    one-shot edge.  For a period that is not negative this is the only
    place where it has no result; over all periods the only other one is
    the [INT_MIN % -1] that period -1 allows. *)
Theorem get_travel_time_division_by_zero :
  get_travel_time (mkEdge 1 5 0 0) 0 = None
  /\ (forall e current_time,
        0 <= departure_time e ->
        (get_travel_time e current_time = None
         <-> departure_time e = 0 /\ current_time = start_time e))
  /\ forall e current_time,
       get_travel_time e current_time = None
       <-> (departure_time e = 0 /\ current_time = start_time e)
           \/ (departure_time e = -1 /\ start_time e <= current_time
               /\ int_sub current_time (start_time e) = INT_MIN).
Proof.
  split; [reflexivity|]. split.
  - intros e t Hp. by apply get_travel_time_None_nonneg.
  - apply get_travel_time_None.
Qed.

(** C4, amended.  When the exact arrival time fits in an [int], a result of
    [get_travel_time] is the sentinel or is not before [current_time]. *)
Theorem get_travel_time_not_before (e : Edge) (current_time v : Z) :
  nonneg_edge e -> int_edge e -> 0 <= current_time <= INT_MAX ->
  spec_travel_time e current_time <= INT_MAX ->
  get_travel_time e current_time = Some v ->
  v = INF \/ current_time <= v.
Proof.
  intros Hnn Hint Ht Hfit Hv.
  destruct (decide (departure_time e = 0 /\ current_time = start_time e))
    as [Hb|Hb].
  { destruct Hb as [Hb1 Hb2].
    rewrite (get_travel_time_boundary _ _ Hb1 Hb2) in Hv. done. }
  rewrite get_travel_time_schedule in Hv by done.
  injection Hv as <-. unfold spec_travel_time.
  destruct (schedule e current_time) as [c|] eqn:Hs; [right | by left].
  eapply schedule_bounds in Hs; [lia | done | lia].
Qed.

(** ** The priority set *)

Section PrioritySet.

Variable addr : nat -> Z.
Hypothesis addr_inj : forall a b, addr a = addr b -> a = b.

Lemma entry_lt_spec a b :
  entry_lt addr a b = true <-> a.1 < b.1 \/ (a.1 = b.1 /\ addr a.2 < addr b.2).
Proof.
  unfold entry_lt.
  rewrite orb_true_iff, andb_true_iff, !Z.ltb_lt, Z.eqb_eq. tauto.
Qed.

Lemma entry_lt_irrefl a : entry_lt addr a a = false.
Proof.
  destruct (entry_lt addr a a) eqn:E; [|done].
  apply entry_lt_spec in E. lia.
Qed.

Lemma entry_lt_trans a b c : elt addr a b -> elt addr b c -> elt addr a c.
Proof. unfold elt. rewrite !entry_lt_spec. lia. Qed.

Lemma entry_lt_total a b :
  entry_lt addr a b = false -> entry_lt addr b a = false -> a = b.
Proof.
  intros H1 H2.
  assert (N1 : ~ (a.1 < b.1 \/ (a.1 = b.1 /\ addr a.2 < addr b.2))).
  { rewrite <- entry_lt_spec. congruence. }
  assert (N2 : ~ (b.1 < a.1 \/ (b.1 = a.1 /\ addr b.2 < addr a.2))).
  { rewrite <- entry_lt_spec. congruence. }
  destruct a as [k n], b as [k' n']; simpl in *.
  assert (k = k') by lia. subst k'.
  assert (addr n = addr n') as Ha by lia.
  by apply addr_inj in Ha as ->.
Qed.

Lemma entry_lt_ne a b : elt addr a b -> a <> b.
Proof. intros H ->. unfold elt in H. by rewrite entry_lt_irrefl in H. Qed.

Lemma elem_of_set_insert x q y :
  y ∈ set_insert addr x q <-> y = x \/ y ∈ q.
Proof.
  induction q as [|z q IH]; simpl.
  - rewrite list_elem_of_singleton, elem_of_nil. tauto.
  - destruct (entry_lt addr x z) eqn:E1.
    + rewrite elem_of_cons. tauto.
    + destruct (entry_lt addr z x) eqn:E2.
      * rewrite !elem_of_cons, IH. tauto.
      * apply entry_lt_total in E1 as ->; [|done].
        rewrite elem_of_cons. tauto.
Qed.

Lemma set_insert_sorted x q :
  StronglySorted (elt addr) q -> StronglySorted (elt addr) (set_insert addr x q).
Proof.
  induction 1 as [|z q Hq IH Hz]; simpl.
  - repeat constructor.
  - destruct (entry_lt addr x z) eqn:E1.
    + constructor; [by constructor|].
      constructor; [done|].
      eapply Forall_impl; [exact Hz|]. intros w Hw.
      by eapply entry_lt_trans.
    + destruct (entry_lt addr z x) eqn:E2.
      * constructor; [done|].
        apply Forall_forall. intros w Hw.
        apply elem_of_set_insert in Hw as [->|Hw]; [done|].
        rewrite Forall_forall in Hz. by apply Hz.
      * by constructor.
Qed.

Lemma elem_of_set_erase x q y :
  y ∈ set_erase addr x q <-> y ∈ q /\ y <> x.
Proof.
  induction q as [|z q IH]; simpl.
  - rewrite elem_of_nil. tauto.
  - destruct (entry_lt addr x z || entry_lt addr z x) eqn:E.
    + rewrite !elem_of_cons, IH.
      assert (z <> x).
      { intros ->. by rewrite entry_lt_irrefl in E. }
      split; [intros [->|[? ?]]; auto | intros [[->|?] ?]; auto].
    + apply orb_false_iff in E as [E1 E2].
      apply entry_lt_total in E1 as ->; [|done].
      rewrite elem_of_cons, IH. split; [tauto|].
      intros [[?|?] ?]; done.
Qed.

Lemma set_erase_sorted x q :
  StronglySorted (elt addr) q -> StronglySorted (elt addr) (set_erase addr x q).
Proof.
  induction 1 as [|z q Hq IH Hz]; simpl; [constructor|].
  destruct (entry_lt addr x z || entry_lt addr z x); [|done].
  constructor; [done|].
  apply Forall_forall. intros w Hw.
  apply elem_of_set_erase in Hw as [Hw _].
  rewrite Forall_forall in Hz. by apply Hz.
Qed.

(** [*prio_queue.begin()] is the least entry. *)
Lemma sorted_head_least top q y :
  StronglySorted (elt addr) (top :: q) -> y ∈ top :: q -> y = top \/ elt addr top y.
Proof.
  intros Hs Hy. apply StronglySorted_inv in Hs as [_ Hall].
  apply elem_of_cons in Hy as [->|Hy]; [by left | right].
  rewrite Forall_forall in Hall. by apply Hall.
Qed.

Lemma length_set_insert x q :
  (length (set_insert addr x q) <= S (length q))%nat.
Proof.
  induction q as [|z q IH]; simpl; [lia|].
  destruct (entry_lt addr x z); simpl; [lia|].
  destruct (entry_lt addr z x); simpl; lia.
Qed.

Lemma length_set_erase x q :
  (length (set_erase addr x q) <= length q)%nat.
Proof.
  induction q as [|z q IH]; simpl; [lia|].
  destruct (_ || _); simpl; lia.
Qed.

Lemma length_set_erase_head x q :
  (length (set_erase addr x (x :: q)) <= length q)%nat.
Proof.
  simpl. rewrite entry_lt_irrefl. simpl. apply length_set_erase.
Qed.

End PrioritySet.

(** ** Reading a graph after an update *)

Ltac unfold_graph :=
  unfold relaxed, get_value, is_visited, get_prev_node, get_edges,
    set_value, set_visited, set_prev_node, graph_reset; simpl.

Lemma lookup_lt_is_Some' {A} (l : list A) (n : nat) :
  (n < length l)%nat -> exists x, l !! n = Some x.
Proof. intros H. by apply lookup_lt_is_Some_2 in H as [x ?]; exists x. Qed.

Lemma relaxed_length nb curr upd g :
  length (nodes (relaxed nb curr upd g)) = length (nodes g).
Proof. unfold_graph. by rewrite !length_alter. Qed.

Lemma relaxed_value nb curr upd g m :
  (nb < length (nodes g))%nat ->
  get_value (relaxed nb curr upd g) m
  = if decide (m = nb) then upd else get_value g m.
Proof.
  intros [x Hx]%lookup_lt_is_Some'. unfold_graph.
  destruct (decide (m = nb)) as [->|Hne].
  - by rewrite !list_lookup_alter_eq, Hx.
  - by rewrite !list_lookup_alter_ne by done.
Qed.

Lemma relaxed_visited nb curr upd g m :
  is_visited (relaxed nb curr upd g) m = is_visited g m.
Proof.
  unfold_graph. destruct (decide (m = nb)) as [->|Hne].
  - rewrite !list_lookup_alter_eq. by destruct (nodes g !! nb).
  - by rewrite !list_lookup_alter_ne by done.
Qed.

Lemma relaxed_prev nb curr upd g m :
  (nb < length (nodes g))%nat ->
  get_prev_node (relaxed nb curr upd g) m
  = if decide (m = nb) then Some curr else get_prev_node g m.
Proof.
  intros [x Hx]%lookup_lt_is_Some'. unfold_graph.
  destruct (decide (m = nb)) as [->|Hne].
  - by rewrite !list_lookup_alter_eq, Hx.
  - by rewrite !list_lookup_alter_ne by done.
Qed.

Lemma relaxed_edges nb curr upd g m :
  get_edges (relaxed nb curr upd g) m = get_edges g m.
Proof.
  unfold_graph. destruct (decide (m = nb)) as [->|Hne].
  - rewrite !list_lookup_alter_eq. by destruct (nodes g !! nb).
  - by rewrite !list_lookup_alter_ne by done.
Qed.

Lemma set_visited_length c b g :
  length (nodes (set_visited c b g)) = length (nodes g).
Proof. unfold_graph. by rewrite length_alter. Qed.

Lemma set_visited_value c b g m :
  get_value (set_visited c b g) m = get_value g m.
Proof.
  unfold_graph. destruct (decide (m = c)) as [->|Hne].
  - rewrite list_lookup_alter_eq. by destruct (nodes g !! c).
  - by rewrite list_lookup_alter_ne by done.
Qed.

Lemma set_visited_visited c b g m :
  (c < length (nodes g))%nat ->
  is_visited (set_visited c b g) m
  = if decide (m = c) then b else is_visited g m.
Proof.
  intros [x Hx]%lookup_lt_is_Some'. unfold_graph.
  destruct (decide (m = c)) as [->|Hne].
  - by rewrite list_lookup_alter_eq, Hx.
  - by rewrite list_lookup_alter_ne by done.
Qed.

Lemma set_visited_prev c b g m :
  get_prev_node (set_visited c b g) m = get_prev_node g m.
Proof.
  unfold_graph. destruct (decide (m = c)) as [->|Hne].
  - rewrite list_lookup_alter_eq. by destruct (nodes g !! c).
  - by rewrite list_lookup_alter_ne by done.
Qed.

Lemma set_visited_edges c b g m :
  get_edges (set_visited c b g) m = get_edges g m.
Proof.
  unfold_graph. destruct (decide (m = c)) as [->|Hne].
  - rewrite list_lookup_alter_eq. by destruct (nodes g !! c).
  - by rewrite list_lookup_alter_ne by done.
Qed.

Lemma started_length s src g :
  length (nodes (started s src g)) = length (nodes g).
Proof. unfold started. unfold_graph. by rewrite length_alter, length_map. Qed.

Lemma started_value s src g m :
  (src < length (nodes g))%nat -> (m < length (nodes g))%nat ->
  get_value (started s src g) m = if decide (m = src) then 0 else INF.
Proof.
  intros [x Hx]%lookup_lt_is_Some' [y Hy]%lookup_lt_is_Some'.
  unfold started. unfold_graph.
  destruct (decide (m = src)) as [->|Hne].
  - by rewrite list_lookup_alter_eq, list_lookup_fmap, Hx.
  - by rewrite list_lookup_alter_ne, list_lookup_fmap, Hy by done.
Qed.

Lemma started_visited s src g m : is_visited (started s src g) m = false.
Proof.
  unfold started. unfold_graph. destruct (decide (m = src)) as [->|Hne].
  - rewrite list_lookup_alter_eq, list_lookup_fmap. by destruct (nodes g !! src).
  - rewrite list_lookup_alter_ne, list_lookup_fmap by done.
    by destruct (nodes g !! m).
Qed.

Lemma started_prev s src g m : get_prev_node (started s src g) m = None.
Proof.
  unfold started. unfold_graph. destruct (decide (m = src)) as [->|Hne].
  - rewrite list_lookup_alter_eq, list_lookup_fmap. by destruct (nodes g !! src).
  - rewrite list_lookup_alter_ne, list_lookup_fmap by done.
    by destruct (nodes g !! m).
Qed.

Lemma started_edges s src g m :
  get_edges (started s src g) m = get_edges g m.
Proof.
  unfold started. unfold_graph. destruct (decide (m = src)) as [->|Hne].
  - rewrite list_lookup_alter_eq, list_lookup_fmap. by destruct (nodes g !! src).
  - rewrite list_lookup_alter_ne, list_lookup_fmap by done.
    by destruct (nodes g !! m).
Qed.

Lemma get_node_Some g i n :
  get_node g i = Some n ->
  0 <= i /\ n = Z.to_nat i /\ (n < length (nodes g))%nat.
Proof.
  unfold get_node.
  destruct (Z.leb_spec 0 i), (Z.ltb_spec i (Z.of_nat (length (nodes g))));
    simpl; intros [= <-]. lia.
Qed.

Lemma get_edges_all g n e : e ∈ get_edges g n -> e ∈ all_edges g.
Proof.
  unfold get_edges, all_edges. intros He.
  destruct (nodes g !! n) as [nd|] eqn:Hn; simpl in He;
    [|by apply elem_of_nil in He].
  apply list_elem_of_In, in_concat. exists (edges nd).
  split; [|by apply list_elem_of_In].
  apply in_map, list_elem_of_In. by eapply list_elem_of_lookup_2.
Qed.

Lemma get_edges_in_range g n e :
  e ∈ get_edges g n -> (n < length (nodes g))%nat.
Proof.
  unfold get_edges. intros He.
  destruct (nodes g !! n) as [nd|] eqn:Hn; simpl in He;
    [|by apply elem_of_nil in He].
  by eapply lookup_lt_Some.
Qed.

(** ** Graphs as [main] builds them *)

Lemma new_Graph_wf num_nodes init_value start :
  wf_graph (new_Graph num_nodes init_value start).
Proof.
  unfold wf_graph, all_edges, new_Graph. simpl.
  induction (Z.to_nat num_nodes) as [|n IH]; simpl; [constructor|].
  apply Forall_forall. intros e He. exfalso. revert He.
  clear. induction n as [|n IH]; simpl; [by intros ?%elem_of_nil | done].
Qed.

Lemma all_edges_add_edge n new_edge g e :
  e ∈ all_edges (add_edge n new_edge g) -> e = new_edge \/ e ∈ all_edges g.
Proof.
  unfold all_edges, add_edge. simpl. generalize (nodes g). intros l.
  revert n. induction l as [|nd l IH]; intros [|n]; simpl; auto.
  - rewrite !elem_of_app, list_elem_of_singleton. tauto.
  - rewrite !elem_of_app. intros [?|?%IH]; tauto.
Qed.

Lemma add_one_way_edge_wf node1 node2 start departure traverse g g' :
  wf_graph g ->
  add_one_way_edge node1 node2 start departure traverse g = Some g' ->
  wf_graph g'.
Proof.
  unfold add_one_way_edge. intros Hwf.
  destruct (get_node g node1) as [n1|]; [|done].
  destruct (get_node g node2) as [n2|] eqn:H2; [|done].
  intros [= <-]. apply get_node_Some in H2 as (_ & _ & Hlt).
  unfold wf_graph in *. rewrite Forall_forall in *.
  intros e He.
  replace (length (nodes (add_edge n1 _ g))) with (length (nodes g))
    by (unfold add_edge; simpl; by rewrite length_alter).
  apply all_edges_add_edge in He as [->|He]; [done | auto].
Qed.

(** ** The loop ends within its fuel *)

Lemma map_alter_same {A B} (h : A -> B) (f : A -> A) (n : nat) (l : list A) :
  (forall x, h (f x) = h x) -> map h (alter f n l) = map h l.
Proof.
  intros Hf. revert n. induction l as [|x l IH]; intros [|n]; simpl; try done.
  - by rewrite Hf.
  - f_equal. apply IH.
Qed.

Lemma pending_relaxed nb curr upd g :
  pending_edges (relaxed nb curr upd g) = pending_edges g.
Proof.
  unfold pending_edges, relaxed, set_prev_node, set_value. simpl.
  by rewrite !map_alter_same.
Qed.

Lemma pending_set_visited c g :
  is_visited g c = false ->
  (pending_edges (set_visited c true g) + length (get_edges g c))%nat
  = pending_edges g.
Proof.
  unfold pending_edges, is_visited, get_edges, set_visited. simpl.
  generalize (nodes g). intros l. revert c.
  induction l as [|x l IH]; intros [|c]; simpl; intros Hv; try lia.
  - rewrite Hv. lia.
  - rewrite <- (IH c Hv). unfold alter. lia.
Qed.

Section Fuel.

Variable addr : nat -> Z.

Lemma relax_edge_budget e curr st x st' :
  relax_edge addr e curr st = (x, st') ->
  (budget st' <= S (budget st))%nat.
Proof.
  unfold relax_edge.
  destruct (is_visited _ _); [intros [= <- <-]; lia|].
  destruct (get_travel_time _ _) as [upd|]; [|intros [= <- <-]; lia].
  destruct (upd <? _); intros [= <- <-]; [|lia].
  unfold budget. simpl. fold (relaxed (connection_node e) curr upd (graph st)).
  rewrite pending_relaxed.
  pose proof (length_set_insert addr (upd, connection_node e) (prio_queue st)).
  lia.
Qed.

Lemma relax_edges_budget es curr st x st' :
  relax_edges addr es curr st = (x, st') ->
  (budget st' <= length es + budget st)%nat.
Proof.
  revert st. induction es as [|e es IH]; simpl; intros st.
  - intros [= <- <-]. lia.
  - destruct (relax_edge addr e curr st) as [y st1] eqn:E.
    apply relax_edge_budget in E.
    destruct y; [intros H%IH; lia | intros [= <- <-]; lia..].
Qed.

Lemma visit_top_budget top q st x st' :
  prio_queue st = top :: q ->
  visit_top addr top st = (x, st') ->
  (budget st' < budget st)%nat.
Proof.
  intros Hq. unfold visit_top. simpl.
  pose proof (length_set_erase_head addr top q) as Hlen.
  rewrite <- Hq in Hlen.
  assert (Hlq : length (prio_queue st) = S (length q)) by (by rewrite Hq).
  destruct (is_visited (graph st) top.2) eqn:Hv.
  - intros [= <- <-]. unfold budget. simpl. lia.
  - intros H%relax_edges_budget. unfold budget in *. simpl in *.
    pose proof (pending_set_visited _ _ Hv). lia.
Qed.

Lemma relax_edge_exit e curr st x st' :
  relax_edge addr e curr st = (x, st') ->
  x = Returned
  \/ (x = Crashed (rem_fault (departure_time e)) /\ st' = st).
Proof.
  unfold relax_edge.
  destruct (is_visited _ _); [intros [= <- <-]; by left|].
  destruct (get_travel_time _ _) as [upd|]; [|intros [= <- <-]; by right].
  destruct (upd <? _); intros [= <- <-]; by left.
Qed.

Lemma relax_edges_exit es curr st x st' :
  relax_edges addr es curr st = (x, st') ->
  x = Returned \/ exists d, x = Crashed (rem_fault d).
Proof.
  revert st. induction es as [|e es IH]; simpl; intros st.
  - intros [= <- <-]. by left.
  - destruct (relax_edge addr e curr st) as [y st1] eqn:E.
    apply relax_edge_exit in E as [->|[-> _]]; [apply IH|].
    intros [= <- <-]. right. by eexists.
Qed.

Lemma visit_top_exit top st x st' :
  visit_top addr top st = (x, st') ->
  x = Returned \/ exists d, x = Crashed (rem_fault d).
Proof.
  unfold visit_top. simpl. destruct (is_visited _ _).
  - intros [= <- <-]. by left.
  - apply relax_edges_exit.
Qed.

Lemma dijkstra_loop_fuel fuel st :
  (budget st <= fuel)%nat -> (dijkstra_loop addr fuel st).1 <> OutOfFuel.
Proof.
  revert st. induction fuel as [|fuel IH]; intros st Hb; simpl.
  - destruct (prio_queue st) eqn:Hq; [done|].
    unfold budget in Hb. rewrite Hq in Hb. simpl in Hb. lia.
  - destruct (prio_queue st) as [|top q] eqn:Hq; [done|].
    destruct (visit_top addr top st) as [x st'] eqn:E.
    pose proof (visit_top_budget _ _ _ _ _ Hq E).
    apply visit_top_exit in E as [->|[d ->]]; simpl; [|done]. apply IH. lia.
Qed.

Lemma pending_started s src g :
  pending_edges (started s src g) = edge_count g.
Proof.
  unfold pending_edges, started, set_value, graph_reset, edge_count. simpl.
  rewrite map_alter_same by done. by rewrite map_map.
Qed.

(** The fuel [dijkstra_timetable] gives its loop is never used up. *)
Lemma dijkstra_timetable_fuel g s :
  (dijkstra_timetable addr g s).1 <> OutOfFuel.
Proof.
  unfold dijkstra_timetable. destruct (get_node g s) as [src|]; [|done].
  apply dijkstra_loop_fuel. unfold budget, initial_state. simpl.
  fold (started s src g). rewrite pending_started. lia.
Qed.

End Fuel.

(** ** Traces *)

Lemma finalized_app tr1 tr2 :
  finalized (tr1 ++ tr2) = finalized tr1 ++ finalized tr2.
Proof.
  induction tr1 as [|[n v|n v] tr1 IH]; simpl; [done| done |by rewrite IH].
Qed.

Lemma visit_values_app tr1 tr2 :
  visit_values (tr1 ++ tr2) = visit_values tr1 ++ visit_values tr2.
Proof.
  induction tr1 as [|[n v|n v] tr1 IH]; simpl; [done| done |by rewrite IH].
Qed.

Lemma visit_in_finalized tr n v : EvVisit n v ∈ tr -> n ∈ finalized tr.
Proof.
  induction tr as [|[m w|m w] tr IH]; simpl.
  - by intros ?%elem_of_nil.
  - intros [?|?]%elem_of_cons; [done | auto].
  - intros [[= -> ->]|?]%elem_of_cons; [left | right; auto].
Qed.

Lemma visit_in_values tr n v : EvVisit n v ∈ tr -> v ∈ visit_values tr.
Proof.
  induction tr as [|[m w|m w] tr IH]; simpl.
  - by intros ?%elem_of_nil.
  - intros [?|?]%elem_of_cons; [done | auto].
  - intros [[= -> ->]|?]%elem_of_cons; [left | right; auto].
Qed.

Lemma values_in_visit tr v : v ∈ visit_values tr -> exists n, EvVisit n v ∈ tr.
Proof.
  induction tr as [|[m w|m w] tr IH]; simpl.
  - by intros ?%elem_of_nil.
  - intros [n ?]%IH. exists n. by right.
  - intros [->|[n ?]%IH]%elem_of_cons; [exists m; left | exists n; by right].
Qed.

Lemma finalized_resets (l : list nat) :
  finalized (map (fun n => EvSetValue n INF) l) = [].
Proof. induction l; simpl; done. Qed.

Lemma before_app a b fin c :
  before a b fin -> before a b (fin ++ [c]).
Proof.
  intros (i & Hi & Hlt). exists i. split.
  - by apply lookup_app_l_Some.
  - intros j Hj. apply lookup_app_Some in Hj as [Hj|[Hlen Hj]]; [auto|].
    apply lookup_lt_Some in Hi. lia.
Qed.

(** ** The invariant of the search *)

Section Invariant.

Variable addr : nat -> Z.
Hypothesis addr_inj : forall a b, addr a = addr b -> a = b.

(** The graph the search is called on, and the node it starts from. *)
Variable g0 : Graph.
Variable src : nat.
Hypothesis wf0 : wf_graph g0.

Lemma get_node_ext g g' i :
  length (nodes g') = length (nodes g) -> get_node g' i = get_node g i.
Proof. unfold get_node. by intros ->. Qed.

Lemma head_in_range n e :
  e ∈ get_edges g0 n -> (connection_node e < length (nodes g0))%nat.
Proof.
  intros He%get_edges_all. unfold wf_graph in wf0.
  rewrite Forall_forall in wf0. by apply wf0.
Qed.

Lemma visited_in_range st n :
  inv addr g0 src st -> is_visited (graph st) n = true -> (n < length (nodes g0))%nat.
Proof.
  intros I Hv. rewrite <- (inv_length _ _ _ _ I).
  unfold is_visited in Hv.
  destruct (nodes (graph st) !! n) eqn:E; [|done].
  by eapply lookup_lt_Some.
Qed.

Lemma in_insert x q y : y ∈ set_insert addr x q <-> y = x \/ y ∈ q.
Proof. by apply elem_of_set_insert. Qed.

Lemma in_erase x q y : y ∈ set_erase addr x q <-> y ∈ q /\ y <> x.
Proof. by apply elem_of_set_erase. Qed.

(** What one pass through the body of the edge loop can do. *)
Lemma relax_edge_cases e curr st x st' :
  relax_edge addr e curr st = (x, st') ->
  let nb := connection_node e in
  let t := get_value (graph st) curr in
  (x = Returned /\ st' = st /\ is_visited (graph st) nb = true)
  \/ (x = Crashed (rem_fault (departure_time e)) /\ st' = st
      /\ is_visited (graph st) nb = false /\ get_travel_time e t = None)
  \/ (x = Returned /\ st' = st /\ is_visited (graph st) nb = false
      /\ exists upd, get_travel_time e t = Some upd
                     /\ get_value (graph st) nb <= upd)
  \/ (x = Returned /\ is_visited (graph st) nb = false
      /\ exists upd, get_travel_time e t = Some upd
           /\ upd < get_value (graph st) nb
           /\ st' = mkState (relaxed nb curr upd (graph st))
                            (set_insert addr (upd, nb) (prio_queue st))
                            (trace st ++ [EvSetValue nb upd])).
Proof.
  unfold relax_edge. simpl.
  destruct (is_visited (graph st) (connection_node e)) eqn:Hv.
  { intros [= <- <-]. by left. }
  destruct (get_travel_time e _) as [upd|] eqn:Ht.
  2:{ intros [= <- <-]. right; left. done. }
  destruct (Z.ltb_spec upd (get_value (graph st) (connection_node e))).
  - intros [= <- <-]. right; right; right. split; [done|]. split; [done|].
    exists upd. done.
  - intros [= <- <-]. right; right; left. repeat split; try done.
    exists upd. done.
Qed.

(** A relaxation keeps the invariant. *)
Lemma inv_relaxed e curr upd st :
  inv addr g0 src st ->
  is_visited (graph st) src = true ->
  is_visited (graph st) curr = true ->
  e ∈ get_edges g0 curr ->
  is_visited (graph st) (connection_node e) = false ->
  get_travel_time e (get_value (graph st) curr) = Some upd ->
  upd < get_value (graph st) (connection_node e) ->
  inv addr g0 src (mkState (relaxed (connection_node e) curr upd (graph st))
               (set_insert addr (upd, connection_node e) (prio_queue st))
               (trace st ++ [EvSetValue (connection_node e) upd])).
Proof.
  intros I Hsrc Hcurr He Hnb Ht Hlt.
  set (nb := connection_node e) in *.
  assert (Hnb_lt : (nb < length (nodes (graph st)))%nat).
  { rewrite (inv_length _ _ _ _ I). by eapply head_in_range. }
  pose proof (inv_le_INF _ _ _ _ I nb) as Hnb_le.
  assert (Hne : forall m, is_visited (graph st) m = true -> m <> nb).
  { intros m Hm ->. congruence. }
  constructor; cbn [graph prio_queue trace].
  - rewrite relaxed_length. apply (inv_length _ _ _ _ I).
  - intros n. rewrite relaxed_edges. apply (inv_edges _ _ _ _ I).
  - apply set_insert_sorted; [done | apply (inv_sorted _ _ _ _ I)].
  - intros k n [[= -> ->]|Hin]%in_insert.
    + rewrite relaxed_value by done. rewrite decide_True by done.
      split; [by rewrite <- (inv_length _ _ _ _ I)|lia].
    + destruct (inv_queue _ _ _ _ I k n Hin) as (? & ? & ?).
      rewrite relaxed_value by done. split; [done|].
      destruct (decide (n = nb)) as [->|]; lia.
  - intros n Hn. rewrite relaxed_visited, relaxed_value by done.
    intros Hv Hval. apply in_insert.
    destruct (decide (n = nb)) as [->|]; [by left | right].
    by apply (inv_pending _ _ _ _ I).
  - intros n. rewrite relaxed_value by done.
    destruct (decide (n = nb)); [lia | apply (inv_le_INF _ _ _ _ I)].
  - intros n. rewrite relaxed_visited. intros Hv.
    rewrite relaxed_value by done. rewrite decide_False by auto.
    by apply (inv_visited_lt _ _ _ _ I).
  - intros n. rewrite relaxed_visited, finalized_app. simpl.
    rewrite app_nil_r. apply (inv_finalized _ _ _ _ I).
  - rewrite finalized_app. simpl. rewrite app_nil_r. apply (inv_nodup _ _ _ _ I).
  - intros i j n v w Hi Hj.
    apply lookup_app_Some in Hi as [Hi|[_ Hi]].
    2:{ by apply list_lookup_singleton_Some in Hi as [_ ?]. }
    apply lookup_app_Some in Hj as [Hj|[_ Hj]].
    { by eapply (inv_quiet _ _ _ _ I). }
    apply list_lookup_singleton_Some in Hj as [_ [= <- <-]].
    exfalso. apply (Hne nb); [|done].
    apply (inv_finalized _ _ _ _ I). eapply visit_in_finalized.
    by eapply list_elem_of_lookup_2.
  - intros n v [Hin|Hin]%elem_of_app.
    2:{ by apply list_elem_of_singleton in Hin. }
    rewrite relaxed_value by done. rewrite decide_False.
    + by apply (inv_visit_value _ _ _ _ I).
    + apply Hne. apply (inv_finalized _ _ _ _ I). by eapply visit_in_finalized.
  - destruct (inv_src _ _ _ _ I) as (Hv & Hp & _).
    rewrite relaxed_value, relaxed_prev, relaxed_visited by done.
    rewrite !decide_False by auto. auto.
  - intros b a. rewrite relaxed_prev by done.
    rewrite relaxed_visited, !relaxed_value by done.
    rewrite finalized_app. simpl. rewrite app_nil_r.
    destruct (decide (b = nb)) as [->|Hb].
    + intros [= <-]. rewrite decide_False by auto.
      split; [done|]. split; [by apply not_eq_sym, Hne|].
      split; [by rewrite <- (inv_length _ _ _ _ I)|]. split; [lia|].
      split.
      * apply (inv_finalized _ _ _ _ I), list_elem_of_lookup in Hcurr as [i Hi].
        exists i. split; [done|]. intros j Hj. exfalso.
        apply (Hne nb); [|done]. apply (inv_finalized _ _ _ _ I).
        by eapply list_elem_of_lookup_2.
      * exists e. done.
    + intros Hp. destruct (inv_prev _ _ _ _ I b a Hp) as (Ha & ? & ? & ? & ? & Hex).
      rewrite decide_False by auto. done.
  - intros b Hb Hbs. rewrite relaxed_prev, relaxed_value by done.
    destruct (decide (b = nb)); [done|]. by apply (inv_noprev _ _ _ _ I).
  - rewrite (get_node_ext (graph st)) by apply relaxed_length.
    exact (inv_start _ _ _ _ I).
Qed.

Lemma relax_edge_visited e curr st x st' m :
  relax_edge addr e curr st = (x, st') ->
  is_visited (graph st') m = is_visited (graph st) m.
Proof.
  intros H. apply relax_edge_cases in H
    as [(_ & -> & _)|[(_ & -> & _)|[(_ & -> & _)|(_ & _ & upd & _ & _ & ->)]]];
    try done.
  apply relaxed_visited.
Qed.

Lemma relax_edge_inv e curr st x st' :
  inv addr g0 src st ->
  is_visited (graph st) src = true ->
  is_visited (graph st) curr = true ->
  e ∈ get_edges g0 curr ->
  relax_edge addr e curr st = (x, st') ->
  inv addr g0 src st'.
Proof.
  intros I Hsrc Hcurr He H. apply relax_edge_cases in H
    as [(_ & -> & _)|[(_ & -> & _)|[(_ & -> & _)|(_ & Hnb & upd & Ht & Hlt & ->)]]];
    try done.
  by apply inv_relaxed.
Qed.

Lemma relax_edges_visited es curr st x st' m :
  relax_edges addr es curr st = (x, st') ->
  is_visited (graph st') m = is_visited (graph st) m.
Proof.
  revert st. induction es as [|e es IH]; simpl; intros st.
  - by intros [= <- <-].
  - destruct (relax_edge addr e curr st) as [y st1] eqn:E.
    pose proof (relax_edge_visited _ _ _ _ _ m E) as Hv.
    destruct y; [intros H%IH; congruence | intros [= <- <-]; done..].
Qed.

Lemma relax_edges_inv es curr st x st' :
  inv addr g0 src st ->
  is_visited (graph st) src = true ->
  is_visited (graph st) curr = true ->
  (forall e, e ∈ es -> e ∈ get_edges g0 curr) ->
  relax_edges addr es curr st = (x, st') ->
  inv addr g0 src st'.
Proof.
  revert st. induction es as [|e es IH]; simpl; intros st I Hsrc Hcurr Hes.
  - by intros [= <- <-].
  - destruct (relax_edge addr e curr st) as [y st1] eqn:E.
    assert (I1 : inv addr g0 src st1).
    { eapply relax_edge_inv; [done..| |done]. apply Hes. by left. }
    destruct y; [|intros [= <- <-]; done..].
    apply IH; [done| | |].
    + by rewrite (relax_edge_visited _ _ _ _ _ _ E).
    + by rewrite (relax_edge_visited _ _ _ _ _ _ E).
    + intros e' He'. apply Hes. by right.
Qed.

(** The entry taken from the queue, when its node is not finalised yet,
    carries the node's value. *)
Lemma top_value st k n q :
  inv addr g0 src st -> prio_queue st = (k, n) :: q ->
  is_visited (graph st) n = false ->
  get_value (graph st) n = k.
Proof.
  intros I Hq Hv.
  destruct (inv_queue _ _ _ _ I k n) as (Hn & Hle & Hk).
  { rewrite Hq. by left. }
  assert (Hin : (get_value (graph st) n, n) ∈ prio_queue st).
  { apply (inv_pending _ _ _ _ I); [done..|lia]. }
  pose proof (inv_sorted _ _ _ _ I) as Hs. rewrite Hq in Hs, Hin.
  destruct (sorted_head_least addr _ _ _ Hs Hin) as [[= <-]|Hlt]; [done|].
  unfold elt in Hlt. apply entry_lt_spec in Hlt. simpl in Hlt. lia.
Qed.

(** A stale entry is dropped. *)
Lemma inv_drop st k n q :
  inv addr g0 src st -> prio_queue st = (k, n) :: q ->
  is_visited (graph st) n = true ->
  inv addr g0 src (mkState (graph st) (set_erase addr (k, n) (prio_queue st)) (trace st)).
Proof.
  intros I Hq Hv. constructor; cbn [graph prio_queue trace].
  - exact (inv_length _ _ _ _ I).
  - exact (inv_edges _ _ _ _ I).
  - apply set_erase_sorted; [done | apply (inv_sorted _ _ _ _ I)].
  - intros k' n' [Hin _]%in_erase. by apply (inv_queue _ _ _ _ I).
  - intros m Hm Hvm Hval. apply in_erase. split.
    + by apply (inv_pending _ _ _ _ I).
    + intros [= _ ->]. congruence.
  - exact (inv_le_INF _ _ _ _ I).
  - exact (inv_visited_lt _ _ _ _ I).
  - exact (inv_finalized _ _ _ _ I).
  - exact (inv_nodup _ _ _ _ I).
  - exact (inv_quiet _ _ _ _ I).
  - exact (inv_visit_value _ _ _ _ I).
  - destruct (inv_src _ _ _ _ I) as (H0 & Hp & [Hs|[Hs Hall]]); [auto|].
    rewrite Hall in Hv. done.
  - exact (inv_prev _ _ _ _ I).
  - exact (inv_noprev _ _ _ _ I).
  - exact (inv_start _ _ _ _ I).
Qed.

(** A node is finalised. *)
Lemma inv_visit st k n q :
  inv addr g0 src st -> prio_queue st = (k, n) :: q ->
  is_visited (graph st) n = false ->
  inv addr g0 src (mkState (set_visited n true (graph st))
               (set_erase addr (k, n) (prio_queue st))
               (trace st ++ [EvVisit n (get_value (graph st) n)])).
Proof.
  intros I Hq Hv.
  destruct (inv_queue _ _ _ _ I k n) as (Hn & Hle & Hk).
  { rewrite Hq. by left. }
  assert (Hn' : (n < length (nodes (graph st)))%nat)
    by (by rewrite (inv_length _ _ _ _ I)).
  assert (Hfin : n ∉ finalized (trace st)).
  { intros Hin%(inv_finalized _ _ _ _ I). congruence. }
  constructor; cbn [graph prio_queue trace].
  - rewrite set_visited_length. exact (inv_length _ _ _ _ I).
  - intros m. rewrite set_visited_edges. apply (inv_edges _ _ _ _ I).
  - apply set_erase_sorted; [done | apply (inv_sorted _ _ _ _ I)].
  - intros k' n' [Hin _]%in_erase. rewrite set_visited_value.
    by apply (inv_queue _ _ _ _ I).
  - intros m Hm. rewrite set_visited_visited, set_visited_value by done.
    destruct (decide (m = n)) as [->|Hne]; [done|].
    intros Hvm Hval. apply in_erase. split.
    + by apply (inv_pending _ _ _ _ I).
    + intros [= _ ->]. done.
  - intros m. rewrite set_visited_value. apply (inv_le_INF _ _ _ _ I).
  - intros m. rewrite set_visited_visited, set_visited_value by done.
    destruct (decide (m = n)) as [->|Hne]; [lia|]. apply (inv_visited_lt _ _ _ _ I).
  - intros m. rewrite set_visited_visited, finalized_app by done. simpl.
    rewrite elem_of_app, list_elem_of_singleton.
    destruct (decide (m = n)) as [->|Hne]; [tauto|].
    rewrite (inv_finalized _ _ _ _ I). tauto.
  - rewrite finalized_app. simpl. apply NoDup_app.
    split; [apply (inv_nodup _ _ _ _ I)|]. split; [|apply NoDup_singleton].
    intros x Hx ->%list_elem_of_singleton. done.
  - intros i j m v w Hi Hj.
    apply lookup_app_Some in Hj as [Hj|[_ Hj]].
    2:{ by apply list_lookup_singleton_Some in Hj as [_ ?]. }
    apply lookup_app_Some in Hi as [Hi|[Hlen _]].
    + by eapply (inv_quiet _ _ _ _ I).
    + apply lookup_lt_Some in Hj. lia.
  - intros m v [Hin|Hin]%elem_of_app; rewrite set_visited_value.
    + by apply (inv_visit_value _ _ _ _ I).
    + by apply list_elem_of_singleton in Hin as [= -> ->].
  - destruct (inv_src _ _ _ _ I) as (H0 & Hp & Hs).
    rewrite set_visited_value, set_visited_prev, set_visited_visited by done.
    split; [done|]. split; [done|]. left.
    destruct (decide (src = n)) as [|Hne]; [done|].
    destruct Hs as [Hs|[Hs _]]; [done|]. rewrite Hq in Hs.
    by injection Hs as _ -> _.
  - intros b a. rewrite set_visited_prev. intros Hp.
    destruct (inv_prev _ _ _ _ I b a Hp) as (Ha & ? & ? & ? & Hbef & Hex).
    rewrite set_visited_visited, !set_visited_value, finalized_app by done.
    simpl. split; [by destruct (decide (a = n))|].
    repeat (split; [done|]). split; [by apply before_app | done].
  - intros b Hb Hbs. rewrite set_visited_prev, set_visited_value.
    by apply (inv_noprev _ _ _ _ I).
  - rewrite (get_node_ext (graph st)) by apply set_visited_length.
    exact (inv_start _ _ _ _ I).
Qed.

Lemma visit_top_inv st top q x st' :
  inv addr g0 src st -> prio_queue st = top :: q ->
  visit_top addr top st = (x, st') ->
  inv addr g0 src st'.
Proof.
  intros I Hq. destruct top as [k n]. unfold visit_top. simpl.
  destruct (is_visited (graph st) n) eqn:Hv.
  - intros [= <- <-]. by eapply inv_drop.
  - pose proof (inv_visit _ _ _ _ I Hq Hv) as I2.
    destruct (inv_queue _ _ _ _ I k n) as (Hn & _).
    { rewrite Hq. by left. }
    assert (Hn' : (n < length (nodes (graph st)))%nat)
      by (by rewrite (inv_length _ _ _ _ I)).
    intros H. eapply relax_edges_inv in H; [done|exact I2|..];
      cbn [graph prio_queue trace].
    + destruct (inv_src _ _ _ _ I2) as (_ & _ & [Hs|[_ Hall]]); [done|].
      cbn [graph] in Hall. specialize (Hall n).
      rewrite set_visited_visited, decide_True in Hall; done.
    + rewrite set_visited_visited, decide_True; done.
    + intros e. by rewrite (inv_edges _ _ _ _ I).
Qed.

Lemma dijkstra_loop_inv fuel st x st' :
  inv addr g0 src st -> dijkstra_loop addr fuel st = (x, st') ->
  inv addr g0 src st' /\ (x = Returned -> prio_queue st' = []).
Proof.
  revert st. induction fuel as [|fuel IH]; intros st I; simpl.
  - destruct (prio_queue st) eqn:Hq; intros [= <- <-]; done.
  - destruct (prio_queue st) as [|top q] eqn:Hq; [by intros [= <- <-]|].
    destruct (visit_top addr top st) as [y st1] eqn:E.
    pose proof (visit_top_inv _ _ _ _ _ I Hq E) as I1.
    destruct y; [by apply IH | intros [= <- <-]; done..].
Qed.

Lemma initial_inv s :
  get_node g0 s = Some src -> inv addr g0 src (initial_state addr g0 s src).
Proof.
  intros Hs. pose proof Hs as Hs'.
  apply get_node_Some in Hs' as (_ & _ & src_lt).
  unfold initial_state. fold (started s src g0).
  assert (Hq : set_insert addr (get_value (started s src g0) src, src) []
               = [(0, src)]).
  { simpl. rewrite started_value, decide_True; done. }
  rewrite Hq.
  assert (Hfin : finalized (map (fun n => EvSetValue n INF)
                                (seq 0 (length (nodes g0)))
                            ++ [EvSetValue src 0]) = []).
  { by rewrite finalized_app, finalized_resets. }
  constructor; cbn [graph prio_queue trace]; try rewrite Hfin.
  - apply started_length.
  - apply started_edges.
  - repeat constructor.
  - intros k n [= -> ->]%list_elem_of_singleton.
    rewrite started_value, decide_True by done. unfold INF, INT_MAX. lia.
  - intros n Hn _. rewrite started_value by done.
    destruct (decide (n = src)) as [->|]; [|done]. intros _. by left.
  - intros n. destruct (decide (n < length (nodes g0))%nat) as [Hn|Hn].
    + rewrite started_value by done. unfold INF, INT_MAX.
      destruct (decide (n = src)); lia.
    + unfold get_value. rewrite lookup_ge_None_2.
      * simpl. unfold INF, INT_MAX. lia.
      * rewrite started_length. lia.
  - intros n. by rewrite started_visited.
  - intros n. rewrite started_visited, elem_of_nil. split; done.
  - constructor.
  - intros i j n v w Hi _. exfalso.
    apply list_elem_of_lookup_2, visit_in_finalized in Hi.
    rewrite Hfin in Hi. by apply elem_of_nil in Hi.
  - intros n v Hin%visit_in_finalized.
    rewrite Hfin in Hin. by apply elem_of_nil in Hin.
  - rewrite started_value, decide_True by done.
    split; [done|]. split; [apply started_prev|]. right.
    split; [done|]. intros n. apply started_visited.
  - intros b a. by rewrite started_prev.
  - intros b Hb Hbs _. rewrite started_value, decide_False; done.
  - replace (start_index (started s src g0)) with s by done.
    by rewrite (get_node_ext g0) by apply started_length.
Qed.

End Invariant.

Lemma inv_src_lt addr g src st :
  inv addr g src st -> (src < length (nodes g))%nat.
Proof.
  intros I. pose proof (inv_start _ _ _ _ I) as Hs.
  apply get_node_Some in Hs as (_ & _ & Hlt).
  by rewrite (inv_length _ _ _ _ I) in Hlt.
Qed.

(** ** Predecessor chains *)



Section Structure.

Variable addr : nat -> Z.
Hypothesis addr_inj : forall a b, addr a = addr b -> a = b.

(** Whatever way the search ends, it ends in a state of the invariant. *)
Lemma dijkstra_timetable_inv g s x st :
  wf_graph g -> dijkstra_timetable addr g s = (x, st) ->
  (get_node g s = None /\ x = Crashed BadIndex
   /\ finalized (trace st) = [])
  \/ (exists src, get_node g s = Some src /\ inv addr g src st
                  /\ (x = Returned -> prio_queue st = [])).
Proof.
  intros Hwf. unfold dijkstra_timetable.
  destruct (get_node g s) as [src|] eqn:Hs.
  - intros H. right. exists src. split; [done|].
    eapply dijkstra_loop_inv; [done..| |exact H].
    by apply initial_inv.
  - intros [= <- <-]. left. simpl. by rewrite finalized_resets.
Qed.

(** Following the predecessors of a finalised node ends, within one round
    per node finalised before it, at the start node. *)
Lemma follow_prev_backward g src st :
  inv addr g src st ->
  forall i n, finalized (trace st) !! i = Some n ->
  forall fuel acc, (i <= fuel)%nat ->
  exists rest,
    follow_prev fuel (graph st) (get_prev_node (graph st) n) acc
    = (Returned, acc ++ rest)
    /\ backward (graph st) n (n :: rest)
    /\ Forall (fun m => is_visited (graph st) m = true) (n :: rest).
Proof.
  intros I i. induction i as [i IH] using lt_wf_ind.
  intros n Hn fuel acc Hfuel.
  assert (Hvis : is_visited (graph st) n = true).
  { apply (inv_finalized _ _ _ _ I). by eapply list_elem_of_lookup_2. }
  destruct (get_prev_node (graph st) n) as [a|] eqn:Hp.
  - destruct (inv_prev _ _ _ _ I n a Hp) as (_ & _ & _ & _ & Hbef & _).
    destruct Hbef as (i' & Hi' & Hlt). specialize (Hlt i Hn).
    destruct fuel as [|fuel]; [lia|]. simpl.
    destruct (IH i' Hlt a Hi' fuel (acc ++ [a])) as (rest & Hf & Hb & Hall);
      [lia|].
    exists (a :: rest). split; [by rewrite Hf, <- app_assoc|].
    split; [by eapply backward_step|]. by constructor.
  - exists []. split; [by destruct fuel; rewrite app_nil_r|].
    split; [by constructor | by repeat constructor].
Qed.

Lemma finalized_length g src st :
  inv addr g src st -> (length (finalized (trace st)) <= length (nodes g))%nat.
Proof.
  intros I. rewrite <- (length_seq (length (nodes g)) 0) at 1.
  apply submseteq_length, NoDup_submseteq; [apply (inv_nodup _ _ _ _ I)|].
  intros n Hn%(inv_finalized _ _ _ _ I). apply elem_of_seq.
  pose proof (visited_in_range _ _ _ _ _ I Hn). lia.
Qed.

Lemma to_size_t_small i : 0 <= i <= INT_MAX -> to_size_t i = i.
Proof. unfold to_size_t, INT_MAX. intros H. apply Z.mod_small. lia. Qed.


Lemma get_node_None g i :
  get_node g i = None -> i < 0 \/ Z.of_nat (length (nodes g)) <= i.
Proof.
  unfold get_node.
  destruct (Z.leb_spec 0 i), (Z.ltb_spec i (Z.of_nat (length (nodes g))));
    simpl; intros; try done; lia.
Qed.


(** *** When the search returns *)

Lemma relax_edges_periodic es curr st :
  Forall (fun e => departure_time e <> 0 /\ departure_time e <> -1) es ->
  (relax_edges addr es curr st).1 = Returned.
Proof.
  intros Hes. revert st. induction Hes as [|e es He _ IH]; intros st; simpl.
  - done.
  - destruct (relax_edge addr e curr st) as [y st1] eqn:E.
    apply relax_edge_cases in E
      as [(-> & _)|[(_ & _ & _ & Hn)|[(-> & _)|(-> & _)]]]; try apply IH.
    apply get_travel_time_None in Hn as [[Hp _]|[Hp _]]; tauto.
Qed.

Lemma dijkstra_loop_periodic g src fuel st :
  wf_graph g ->
  Forall (fun e => departure_time e <> 0 /\ departure_time e <> -1)
         (all_edges g) ->
  inv addr g src st ->
  (dijkstra_loop addr fuel st).1 = Returned
  \/ (dijkstra_loop addr fuel st).1 = OutOfFuel.
Proof.
  intros Hwf Hper. revert st. induction fuel as [|fuel IH]; intros st I; simpl.
  - destruct (prio_queue st); auto.
  - destruct (prio_queue st) as [|top q] eqn:Hq; [auto|].
    destruct (visit_top addr top st) as [y st1] eqn:E.
    assert (I1 : inv addr g src st1) by (by eapply visit_top_inv).
    assert (Hy : y = Returned).
    { unfold visit_top in E. simpl in E.
      destruct (is_visited (graph st) top.2); [by injection E as <- _|].
      pose proof (relax_edges_periodic (get_edges (graph st) top.2) top.2
        (mkState (set_visited top.2 true (graph st))
                 (set_erase addr top (prio_queue st))
                 (trace st ++ [EvVisit top.2 (get_value (graph st) top.2)])))
        as Hr.
      rewrite E in Hr. apply Hr.
      apply Forall_forall. intros e He. rewrite (inv_edges _ _ _ _ I) in He.
      rewrite Forall_forall in Hper. by eapply Hper, get_edges_all. }
    subst y. by apply IH.
Qed.

(** The search returns whenever the start index names a node and no edge
    has period 0 or -1: in the code only a [%] without result stops it. *)
Lemma dijkstra_timetable_returns g s :
  wf_graph g -> is_Some (get_node g s) ->
  Forall (fun e => departure_time e <> 0 /\ departure_time e <> -1)
         (all_edges g) ->
  (dijkstra_timetable addr g s).1 = Returned.
Proof.
  intros Hwf [src Hs] Hper.
  pose proof (dijkstra_timetable_fuel addr g s) as Hfuel.
  unfold dijkstra_timetable in *. rewrite Hs in *.
  destruct (dijkstra_loop_periodic g src (S (edge_count g))
              (initial_state addr g s src) Hwf Hper) as [Hr|Hr]; try done.
  by apply initial_inv.
Qed.

(** C10.  After [dijkstra_timetable] returns, a node holds the sentinel
    exactly when it is not marked visited: a visited node holds a value
    strictly below [INF], an unvisited node still holds [INF]. *)
Theorem dijkstra_timetable_INF_iff_unvisited (g : Graph) (s : Z) (st : state) :
  wf_graph g ->
  dijkstra_timetable addr g s = (Returned, st) ->
  forall n, (n < length (nodes g))%nat ->
    (get_value (graph st) n = INF <-> is_visited (graph st) n = false)
    /\ (is_visited (graph st) n = true -> get_value (graph st) n < INF)
    /\ (is_visited (graph st) n = false -> get_value (graph st) n = INF).
Proof.
  intros Hwf Hrun n Hn.
  apply dijkstra_timetable_inv in Hrun as [(_ & [=] & _)|(src & Hs & I & Hq)];
    [|done].
  specialize (Hq eq_refl).
  assert (Hun : is_visited (graph st) n = false -> get_value (graph st) n = INF).
  { intros Hv.
    destruct (decide (get_value (graph st) n = INF)) as [|Hne]; [done|].
    pose proof (inv_pending _ _ _ _ I n Hn Hv Hne) as Hin.
    rewrite Hq in Hin. by apply elem_of_nil in Hin. }
  pose proof (inv_visited_lt _ _ _ _ I n) as Hvis.
  split; [|done]. split; [|done].
  intros Hinf. destruct (is_visited (graph st) n); [|done].
  specialize (Hvis eq_refl). lia.
Qed.

(** C6.  In the trace of any run of [dijkstra_timetable], complete or cut
    short, every [set_value] on a node stands before the node's
    [set_visited(true)], and the node still holds the value it was
    finalised with; an entry taken from the queue for a visited node
    leaves the graph as it is, and so does an edge whose head is
    visited. *)
Theorem dijkstra_timetable_finalized_is_final (g : Graph) (s : Z)
    (x : exit) (st : state) :
  wf_graph g ->
  dijkstra_timetable addr g s = (x, st) ->
  quiet_after_visit (trace st)
  /\ (forall n v, EvVisit n v ∈ trace st -> get_value (graph st) n = v)
  /\ (forall top st1, is_visited (graph st1) top.2 = true ->
        graph (visit_top addr top st1).2 = graph st1
        /\ trace (visit_top addr top st1).2 = trace st1)
  /\ (forall e curr st1,
        is_visited (graph st1) (connection_node e) = true ->
        relax_edge addr e curr st1 = (Returned, st1)).
Proof.
  intros Hwf Hrun.
  assert (Hstale : forall top st1, is_visited (graph st1) top.2 = true ->
            graph (visit_top addr top st1).2 = graph st1
            /\ trace (visit_top addr top st1).2 = trace st1).
  { intros top st1 Hv. unfold visit_top. simpl. by rewrite Hv. }
  assert (Hskip : forall e curr st1,
            is_visited (graph st1) (connection_node e) = true ->
            relax_edge addr e curr st1 = (Returned, st1)).
  { intros e curr st1 Hv. unfold relax_edge. by rewrite Hv. }
  apply dijkstra_timetable_inv in Hrun as [(_ & _ & Hfin)|(src & Hs & I & _)];
    [| |done].
  - split; [|split; [|done]].
    + intros i j n v w Hi _. exfalso.
      apply list_elem_of_lookup_2, visit_in_finalized in Hi.
      rewrite Hfin in Hi. by apply elem_of_nil in Hi.
    + intros n v Hin%visit_in_finalized.
      rewrite Hfin in Hin. by apply elem_of_nil in Hin.
  - split; [apply (inv_quiet _ _ _ _ I)|].
    split; [apply (inv_visit_value _ _ _ _ I) | done].
Qed.


End Structure.

(** ** Schedules are first-in first-out *)

(** The moment of the departure taken when the tail is reached at [t]. *)
Lemma departure_mono e t1 t2 :
  nonneg_edge e -> t1 <= t2 ->
  departure_time e <> 0 \/ t2 <= start_time e ->
  t1 + spec_wait e t1 <= t2 + spec_wait e t2.
Proof.
  intros (Hs & Hp & Hd) Hle Hok. unfold spec_wait.
  destruct (Z.leb_spec t1 (start_time e)) as [H1|H1];
    destruct (Z.leb_spec t2 (start_time e)) as [H2|H2]; try lia.
  - assert (Hp' : 0 < departure_time e) by lia.
    pose proof (Z.mod_pos_bound (t2 - start_time e) (departure_time e) Hp').
    destruct (_ =? 0); lia.
  - assert (Hp' : 0 < departure_time e) by lia.
    set (p := departure_time e) in *.
    set (a := t1 - start_time e). set (b := t2 - start_time e).
    assert (Hab : 0 < a <= b) by (unfold a, b; lia).
    pose proof (Z.mod_pos_bound a p Hp') as Ha.
    pose proof (Z.mod_pos_bound b p Hp') as Hb.
    pose proof (Z.div_mod a p ltac:(lia)) as Ea.
    pose proof (Z.div_mod b p ltac:(lia)) as Eb.
    assert (Hq : a / p <= b / p) by (apply Z.div_le_mono; lia).
    replace t1 with (a + start_time e) by (unfold a; lia).
    replace t2 with (b + start_time e) by (unfold b; lia).
    destruct (Z.eqb_spec (a mod p) 0) as [Ea0|Ea0];
      destruct (Z.eqb_spec (b mod p) 0) as [Eb0|Eb0].
    + lia.
    + lia.
    + assert (a / p < b / p) by nia.
      assert (p * (a / p) + p <= p * (b / p)) by nia. lia.
    + assert (p * (a / p) <= p * (b / p)) by nia. lia.
Qed.

Lemma schedule_mono e t1 t2 c2 :
  nonneg_edge e -> t1 <= t2 -> schedule e t2 = Some c2 ->
  exists c1, schedule e t1 = Some c1 /\ c1 <= c2.
Proof.
  intros Hnn Hle H2. pose proof H2 as H2'.
  apply schedule_Some in H2' as [Hok ->].
  destruct (schedule e t1) as [c1|] eqn:H1.
  - exists c1. split; [done|]. apply schedule_Some in H1 as [_ ->].
    pose proof (departure_mono e t1 t2 Hnn Hle Hok). lia.
  - apply schedule_None in H1 as [Hp Hgt]. lia.
Qed.

(** ** Paths *)

Lemma path_cost_snoc p e t :
  path_cost (p ++ [e]) t
  = match path_cost p t with Some t' => schedule e t' | None => None end.
Proof.
  revert t. induction p as [|e' p IH]; intros t; simpl.
  - by destruct (schedule e t).
  - destruct (schedule e' t); [apply IH | done].
Qed.

Lemma path_snoc g u p v e :
  wf_graph g -> path g u p v -> e ∈ get_edges g v ->
  path g u (p ++ [e]) (connection_node e).
Proof.
  intros Hwf Hp He. induction Hp as [u Hu|u e' p v He' Hp IH]; simpl.
  - apply path_cons; [done|]. apply path_nil.
    unfold wf_graph in Hwf. rewrite Forall_forall in Hwf.
    by apply Hwf, (get_edges_all g u).
  - apply path_cons; [done | by apply IH].
Qed.

Lemma max_span_nonneg g : 0 <= max_span g.
Proof.
  unfold max_span. induction (all_edges g) as [|e l IH]; simpl; lia.
Qed.

Lemma edge_span_le_max g e : e ∈ all_edges g -> edge_span e <= max_span g.
Proof.
  unfold max_span. induction (all_edges g) as [|e' l IH]; simpl.
  - by intros ?%elem_of_nil.
  - intros [->|Hin]%elem_of_cons; [lia|]. specialize (IH Hin). lia.
Qed.

Lemma visit_values_resets (l : list nat) :
  visit_values (map (fun n => EvSetValue n INF) l) = [].
Proof. induction l; simpl; done. Qed.

Lemma StronglySorted_snoc_le (l : list Z) (x : Z) :
  StronglySorted Z.le l -> (forall y, y ∈ l -> y <= x) ->
  StronglySorted Z.le (l ++ [x]).
Proof.
  induction 1 as [|y l Hl IH Hy]; intros Hx; simpl.
  - repeat constructor.
  - constructor.
    + apply IH. intros z Hz. apply Hx. by right.
    + apply Forall_app. split; [done|]. constructor; [|done].
      apply Hx. by left.
Qed.

(** ** The invariant of earliest arrival *)

Section Arithmetic.

Variable addr : nat -> Z.
Hypothesis addr_inj : forall a b, addr a = addr b -> a = b.

Variable g0 : Graph.
Variable src : nat.
Hypothesis wf0 : wf_graph g0.
Hypothesis nonneg0 : nonneg_graph g0.
Hypothesis bound0 : no_overflow g0.

Lemma edge_facts n e :
  e ∈ get_edges g0 n ->
  nonneg_edge e /\ int_edge e /\ edge_span e <= max_span g0
  /\ (connection_node e < length (nodes g0))%nat.
Proof.
  intros He. pose proof (get_edges_in_range _ _ _ He) as Hn.
  pose proof (head_in_range _ wf0 _ _ He) as Hhd.
  apply get_edges_all in He.
  assert (Hnn : nonneg_edge e).
  { unfold nonneg_graph in nonneg0. rewrite Forall_forall in nonneg0. auto. }
  pose proof (edge_span_le_max _ _ He) as Hsp.
  pose proof (max_span_nonneg g0) as HM.
  split; [done|]. split; [|done].
  unfold no_overflow, INF in bound0. destruct Hnn as (? & ? & ?).
  assert (max_span g0 <= Z.of_nat (length (nodes g0)) * max_span g0) by nia.
  unfold edge_span in Hsp.
  unfold int_edge, in_int, INT_MIN, INT_MAX in *. lia.
Qed.

(** What the code computes for an edge of a finalised node. *)
Lemma relax_time st hi curr e upd :
  inv addr g0 src st -> invB g0 src hi st ->
  is_visited (graph st) curr = true ->
  e ∈ get_edges g0 curr ->
  get_travel_time e (get_value (graph st) curr) = Some upd ->
  let t := get_value (graph st) curr in
  (schedule e t = None /\ upd = INF)
  \/ (schedule e t = Some upd /\ t <= upd
      /\ upd <= Z.of_nat (length (finalized (trace st))) * max_span g0
      /\ upd < INF).
Proof.
  intros I B Hcurr He Hgt t.
  destruct (edge_facts _ _ He) as (Hnn & Hint & Hsp & _).
  pose proof (b_nonneg _ _ _ _ B curr) as Ht0.
  pose proof (b_vis_bound _ _ _ _ B curr Hcurr) as Htb.
  pose proof (finalized_length _ _ _ _ I) as Hfl.
  pose proof (max_span_nonneg g0) as HM.
  assert (Hmul : Z.of_nat (length (finalized (trace st))) * max_span g0
                 <= Z.of_nat (length (nodes g0)) * max_span g0).
  { apply Z.mul_le_mono_nonneg_r; lia. }
  unfold no_overflow in bound0. fold t in Ht0, Htb.
  assert (Hfit : spec_travel_time e t <= INT_MAX).
  { unfold spec_travel_time. destruct (schedule e t) as [c|] eqn:Hs.
    - apply schedule_bounds in Hs; [|done..]. unfold INF in bound0. lia.
    - unfold INF. lia. }
  assert (Hnb : ~ (departure_time e = 0 /\ t = start_time e)).
  { intros [Hb1 Hb2]. fold t in Hgt.
    rewrite (get_travel_time_boundary _ _ Hb1 Hb2) in Hgt. done. }
  fold t in Hgt.
  rewrite get_travel_time_schedule in Hgt;
    [|done|done|unfold INF in bound0; lia|done|done].
  injection Hgt as <-. unfold spec_travel_time.
  destruct (schedule e t) as [c|] eqn:Hs; [right | by left].
  apply schedule_bounds in Hs; [|done..]. split; [done|]. lia.
Qed.

Lemma closed_step st curr e es :
  closed g0 st curr (e :: es) ->
  (forall c, schedule e (get_value (graph st) curr) = Some c ->
             get_value (graph st) (connection_node e) <= c) ->
  closed g0 st curr es.
Proof.
  intros Hcl He u e' c Hu He' Hpend Hs.
  destruct (decide (u = curr /\ e' = e)) as [[-> ->]|Hne]; [by apply He|].
  apply (Hcl u e' c); [done..| |done].
  intros ->. apply not_elem_of_cons. split; [|by apply Hpend].
  intros ->. by apply Hne.
Qed.

Lemma invB_relaxed e es curr hi upd st :
  inv addr g0 src st -> invB g0 src hi st ->
  is_visited (graph st) curr = true ->
  get_value (graph st) curr = hi ->
  e ∈ get_edges g0 curr ->
  closed g0 st curr (e :: es) ->
  is_visited (graph st) (connection_node e) = false ->
  get_travel_time e (get_value (graph st) curr) = Some upd ->
  upd < get_value (graph st) (connection_node e) ->
  let st' := mkState (relaxed (connection_node e) curr upd (graph st))
               (set_insert addr (upd, connection_node e) (prio_queue st))
               (trace st ++ [EvSetValue (connection_node e) upd]) in
  invB g0 src hi st' /\ get_value (graph st') curr = hi /\ closed g0 st' curr es.
Proof.
  intros I B Hcurr Hhi He Hcl Hnb Hgt Hlt.
  set (nb := connection_node e) in *.
  destruct (edge_facts _ _ He) as (Hnn & Hint & Hsp & Hhd).
  assert (Hnb_lt : (nb < length (nodes (graph st)))%nat)
    by (by rewrite (inv_length _ _ _ _ I)).
  pose proof (inv_le_INF _ _ _ _ I nb) as Hnb_le.
  assert (Hne : forall m, is_visited (graph st) m = true -> m <> nb).
  { intros m Hm ->. congruence. }
  destruct (relax_time _ _ _ _ _ I B Hcurr He Hgt)
    as [[_ ->]|(Hs & Htle & Hub & Hinf)]; [lia|].
  cbn zeta. split; [|split].
  - constructor; cbn [graph prio_queue trace].
    + intros n. rewrite relaxed_value by done.
      pose proof (b_nonneg _ _ _ _ B n). pose proof (b_nonneg _ _ _ _ B curr).
      destruct (decide (n = nb)); lia.
    + intros u. rewrite relaxed_visited. intros Hu.
      rewrite relaxed_value, decide_False by auto. by apply (b_hi_vis _ _ _ _ B).
    + intros k n [[= -> ->]|Hin]%(in_insert addr addr_inj); [lia|].
      by apply (b_hi_queue _ _ _ _ B k n).
    + intros u. rewrite relaxed_visited, finalized_app. simpl.
      rewrite app_nil_r. intros Hu.
      rewrite relaxed_value, decide_False by auto. by apply (b_vis_bound _ _ _ _ B).
    + intros n. rewrite relaxed_value, finalized_app by done. simpl.
      rewrite app_nil_r. destruct (decide (n = nb)); [done|].
      apply (b_bound _ _ _ _ B).
    + rewrite visit_values_app. simpl. rewrite app_nil_r.
      apply (b_sorted _ _ _ _ B).
    + intros n Hn. rewrite relaxed_value by done.
      destruct (decide (n = nb)) as [->|]; [|by apply (b_real _ _ _ _ B)].
      intros _.
      destruct (b_real _ _ _ _ B curr) as (p & Hp & Hc).
      { by eapply visited_in_range. }
      { pose proof (inv_visited_lt _ _ _ _ I curr Hcurr). lia. }
      exists (p ++ [e]). split; [by apply (path_snoc g0 src p curr e)|].
      by rewrite path_cost_snoc, Hc.
  - cbn [graph]. by rewrite relaxed_value, decide_False by auto.
  - intros u e' c. cbn [graph]. rewrite relaxed_visited. intros Hu He' Hpend.
    rewrite !relaxed_value by done. rewrite decide_False by auto. intros Hs'.
    destruct (decide (u = curr /\ e' = e)) as [[-> ->]|Hne'].
    + rewrite decide_True by done. rewrite Hs in Hs'. injection Hs' as <-. lia.
    + assert (Hold : get_value (graph st) (connection_node e') <= c).
      { apply (Hcl u e' c); [done..| |done].
        intros ->. apply not_elem_of_cons. split; [|by apply Hpend].
        intros ->. by apply Hne'. }
      destruct (decide (connection_node e' = nb)) as [Heq|]; [|done].
      rewrite Heq in Hold. lia.
Qed.

Lemma relax_edge_invB e es curr hi st x st' :
  inv addr g0 src st -> invB g0 src hi st ->
  is_visited (graph st) curr = true ->
  get_value (graph st) curr = hi ->
  e ∈ get_edges g0 curr ->
  closed g0 st curr (e :: es) ->
  relax_edge addr e curr st = (x, st') ->
  invB g0 src hi st' /\ get_value (graph st') curr = hi
  /\ (x = Returned -> closed g0 st' curr es).
Proof.
  intros I B Hcurr Hhi He Hcl H.
  destruct (edge_facts _ _ He) as (Hnn & _).
  pose proof (b_nonneg _ _ _ _ B curr) as Ht0.
  apply relax_edge_cases in H
    as [(-> & -> & Hv)|[(-> & -> & _)|[(-> & -> & Hv & upd & Hgt & Hle)
                                      |(-> & Hv & upd & Hgt & Hlt & ->)]]].
  - split; [done|]. split; [done|]. intros _. eapply closed_step; [done|].
    intros c Hs. apply schedule_bounds in Hs; [|done..].
    pose proof (b_hi_vis _ _ _ _ B _ Hv). lia.
  - done.
  - split; [done|]. split; [done|]. intros _. eapply closed_step; [done|].
    intros c Hs.
    destruct (relax_time _ _ _ _ _ I B Hcurr He Hgt)
      as [[Hs' _]|(Hs' & _)]; [congruence|].
    rewrite Hs in Hs'. injection Hs' as ->. done.
  - destruct (invB_relaxed e es curr hi upd st) as (? & ? & ?); done.
Qed.

Lemma relax_edges_invB es curr hi st x st' :
  inv addr g0 src st -> invB g0 src hi st ->
  is_visited (graph st) src = true ->
  is_visited (graph st) curr = true ->
  get_value (graph st) curr = hi ->
  (forall e, e ∈ es -> e ∈ get_edges g0 curr) ->
  closed g0 st curr es ->
  relax_edges addr es curr st = (x, st') ->
  invB g0 src hi st' /\ (x = Returned -> closed g0 st' curr []).
Proof.
  revert st. induction es as [|e es IH]; simpl;
    intros st I B Hsrc Hcurr Hhi Hes Hcl.
  - by intros [= <- <-].
  - destruct (relax_edge addr e curr st) as [y st1] eqn:E.
    assert (He : e ∈ get_edges g0 curr) by (apply Hes; by left).
    assert (I1 : inv addr g0 src st1).
    { by eapply relax_edge_inv. }
    destruct (relax_edge_invB _ _ _ _ _ _ _ I B Hcurr Hhi He Hcl E)
      as (B1 & Hhi1 & Hcl1).
    destruct y; [|intros [= <- <-]; done..].
    apply IH; try done.
    + by rewrite (relax_edge_visited _ _ _ _ _ _ _ E).
    + by rewrite (relax_edge_visited _ _ _ _ _ _ _ E).
    + intros e' He'. apply Hes. by right.
    + by apply Hcl1.
Qed.

Lemma closed_nil st c c' : closed g0 st c [] -> closed g0 st c' [].
Proof.
  intros Hcl u e k Hu He _ Hs. apply (Hcl u e k); try done.
  intros _. apply not_elem_of_nil.
Qed.

Lemma invB_drop st hi c k n :
  invB g0 src hi st -> closed g0 st c [] ->
  invB g0 src hi (mkState (graph st) (set_erase addr (k, n) (prio_queue st))
                   (trace st))
  /\ closed g0 (mkState (graph st) (set_erase addr (k, n) (prio_queue st))
                     (trace st)) c [].
Proof.
  intros B Hcl. split; [|done].
  constructor; cbn [graph prio_queue trace]; try apply B.
  intros k' n' [Hin _]%(in_erase addr addr_inj). by apply (b_hi_queue _ _ _ _ B k' n').
Qed.

Lemma invB_visit st hi c k n q :
  inv addr g0 src st -> invB g0 src hi st -> closed g0 st c [] ->
  prio_queue st = (k, n) :: q ->
  is_visited (graph st) n = false ->
  let st2 := mkState (set_visited n true (graph st))
               (set_erase addr (k, n) (prio_queue st))
               (trace st ++ [EvVisit n (get_value (graph st) n)]) in
  invB g0 src k st2 /\ get_value (graph st2) n = k
  /\ closed g0 st2 n (get_edges g0 n).
Proof.
  intros I B Hcl Hq Hv.
  assert (Hk : get_value (graph st) n = k) by (by eapply top_value).
  destruct (inv_queue _ _ _ _ I k n) as (Hn & _ & Hk_inf).
  { rewrite Hq. by left. }
  assert (Hn' : (n < length (nodes (graph st)))%nat)
    by (by rewrite (inv_length _ _ _ _ I)).
  assert (Hhik : hi <= k).
  { apply (b_hi_queue _ _ _ _ B k n). rewrite Hq. by left. }
  pose proof (max_span_nonneg g0) as HM.
  assert (Hlen : Z.of_nat (length (finalized (trace st) ++ [n]))
                 = Z.of_nat (length (finalized (trace st))) + 1).
  { rewrite length_app. simpl. lia. }
  cbn zeta. split; [|split].
  - constructor; cbn [graph prio_queue trace].
    + intros m. rewrite set_visited_value. apply (b_nonneg _ _ _ _ B).
    + intros u. rewrite set_visited_visited, set_visited_value by done.
      destruct (decide (u = n)) as [->|]; [lia|].
      intros Hu. pose proof (b_hi_vis _ _ _ _ B u Hu). lia.
    + intros k' n' [Hin Hne]%(in_erase addr addr_inj).
      pose proof (inv_sorted _ _ _ _ I) as Hs. rewrite Hq in Hs, Hin.
      destruct (sorted_head_least addr _ _ _ Hs Hin) as [|Hlt]; [done|].
      unfold elt in Hlt. apply entry_lt_spec in Hlt. simpl in Hlt. lia.
    + intros u. rewrite set_visited_visited, set_visited_value by done.
      rewrite finalized_app. simpl. rewrite Hlen.
      destruct (decide (u = n)) as [->|].
      * intros _. pose proof (b_bound _ _ _ _ B n). lia.
      * intros Hu. pose proof (b_vis_bound _ _ _ _ B u Hu). lia.
    + intros m. rewrite set_visited_value, finalized_app. simpl.
      rewrite Hlen. intros Hm. pose proof (b_bound _ _ _ _ B m Hm). lia.
    + rewrite visit_values_app. simpl.
      apply StronglySorted_snoc_le; [apply (b_sorted _ _ _ _ B)|].
      intros y [m Hm]%values_in_visit.
      rewrite <- (inv_visit_value _ _ _ _ I m y Hm).
      apply visit_in_finalized, (inv_finalized _ _ _ _ I) in Hm.
      pose proof (b_hi_vis _ _ _ _ B m Hm). lia.
    + intros m Hm. rewrite set_visited_value. by apply (b_real _ _ _ _ B).
  - cbn [graph]. by rewrite set_visited_value.
  - intros u e c'. cbn [graph].
    rewrite set_visited_visited, !set_visited_value by done.
    destruct (decide (u = n)) as [->|Hne].
    + intros _ He Hpend. by destruct (Hpend eq_refl).
    + intros Hu He _ Hs. apply (Hcl u e c'); try done.
      intros _. apply not_elem_of_nil.
Qed.

Lemma visit_top_invB st hi c top q x st' :
  inv addr g0 src st -> invB g0 src hi st -> closed g0 st c [] ->
  prio_queue st = top :: q ->
  visit_top addr top st = (x, st') ->
  exists hi', invB g0 src hi' st' /\ (x = Returned -> closed g0 st' c []).
Proof.
  intros I B Hcl Hq. destruct top as [k n]. unfold visit_top. simpl.
  destruct (is_visited (graph st) n) eqn:Hv.
  - intros [= <- <-]. exists hi.
    destruct (invB_drop st hi c k n B Hcl) as [? ?]. done.
  - destruct (invB_visit st hi c k n q I B Hcl Hq Hv) as (B2 & Hk & Hcl2).
    assert (I2 := inv_visit addr addr_inj g0 src st k n q I Hq Hv).
    destruct (inv_queue _ _ _ _ I k n) as (Hn & _).
    { rewrite Hq. by left. }
    assert (Hn' : (n < length (nodes (graph st)))%nat)
      by (by rewrite (inv_length _ _ _ _ I)).
    intros H. exists k.
    eapply relax_edges_invB in H; [| exact I2 | exact B2 | ..];
      cbn [graph prio_queue trace].
    + destruct H as [B' Hcl']. split; [done|].
      intros Hx. eapply closed_nil. by apply Hcl'.
    + destruct (inv_src _ _ _ _ I2) as (_ & _ & [Hs|[_ Hall]]); [done|].
      cbn [graph] in Hall. specialize (Hall n).
      rewrite set_visited_visited, decide_True in Hall; done.
    + rewrite set_visited_visited, decide_True; done.
    + exact Hk.
    + intros e. by rewrite (inv_edges _ _ _ _ I).
    + rewrite (inv_edges _ _ _ _ I). exact Hcl2.
Qed.

Lemma dijkstra_loop_invB fuel st hi c x st' :
  inv addr g0 src st -> invB g0 src hi st -> closed g0 st c [] ->
  dijkstra_loop addr fuel st = (x, st') ->
  exists hi', invB g0 src hi' st' /\ (x = Returned -> closed g0 st' c []).
Proof.
  revert st hi. induction fuel as [|fuel IH]; intros st hi I B Hcl; simpl.
  - destruct (prio_queue st) eqn:Hq; intros [= <- <-]; by exists hi.
  - destruct (prio_queue st) as [|top q] eqn:Hq;
      [intros [= <- <-]; by exists hi|].
    destruct (visit_top addr top st) as [y st1] eqn:E.
    assert (I1 : inv addr g0 src st1).
    { by eapply visit_top_inv. }
    destruct (visit_top_invB _ _ _ _ _ _ _ I B Hcl Hq E) as (hi1 & B1 & Hcl1).
    destruct y; [|intros [= <- <-]; by exists hi1..].
    eapply IH; [done..|]. by apply Hcl1.
Qed.

Lemma initial_invB s c :
  get_node g0 s = Some src ->
  invB g0 src 0 (initial_state addr g0 s src)
  /\ closed g0 (initial_state addr g0 s src) c [].
Proof.
  intros Hs. pose proof Hs as Hs'.
  apply get_node_Some in Hs' as (_ & _ & Hlt).
  unfold initial_state. fold (started s src g0).
  assert (Hq : set_insert addr (get_value (started s src g0) src, src) []
               = [(0, src)]).
  { simpl. rewrite started_value, decide_True; done. }
  rewrite Hq.
  assert (Hval : forall n, get_value (started s src g0) n = INF
                           \/ get_value (started s src g0) n = 0).
  { intros n. destruct (decide (n < length (nodes g0))%nat) as [Hn|Hn].
    - rewrite started_value by done. destruct (decide (n = src)); auto.
    - right. unfold get_value. rewrite lookup_ge_None_2; [done|].
      rewrite started_length. lia. }
  pose proof (max_span_nonneg g0) as HM.
  split.
  - constructor; cbn [graph prio_queue trace].
    + intros n. destruct (Hval n) as [-> | ->]; unfold INF, INT_MAX; lia.
    + intros u. by rewrite started_visited.
    + intros k n [= -> ->]%list_elem_of_singleton. done.
    + intros u. by rewrite started_visited.
    + intros n Hn. destruct (Hval n) as [? | ->]; [done|].
      rewrite finalized_app, finalized_resets. simpl. lia.
    + rewrite visit_values_app, visit_values_resets. simpl. constructor.
    + intros n Hn. rewrite started_value by done.
      destruct (decide (n = src)) as [->|]; [|done]. intros _.
      exists []. split; [by constructor | done].
  - intros u e k. cbn [graph]. by rewrite started_visited.
Qed.

(** The state of a finished search, for a graph whose arrival times fit. *)
Lemma dijkstra_timetable_invB s x st :
  dijkstra_timetable addr g0 s = (x, st) ->
  get_node g0 s = Some src ->
  inv addr g0 src st
  /\ (x = Returned -> prio_queue st = [])
  /\ exists hi, invB g0 src hi st /\ (x = Returned -> closed g0 st 0%nat []).
Proof.
  unfold dijkstra_timetable. intros H Hs. rewrite Hs in H.
  pose proof (initial_inv addr g0 src s Hs) as I0.
  destruct (initial_invB s 0%nat Hs) as [B0 C0].
  destruct (dijkstra_loop_inv addr addr_inj g0 src wf0 _ _ _ _ I0 H)
    as [I Hq].
  split; [done|]. split; [done|].
  exact (dijkstra_loop_invB _ _ _ _ _ _ I0 B0 C0 H).
Qed.

(** On the finished state, a path that can be travelled leads to a
    finalised node whose value is no later than the path arrives. *)
Lemma final_lower_bound st hi :
  inv addr g0 src st -> invB g0 src hi st -> closed g0 st 0%nat [] ->
  prio_queue st = [] ->
  forall u p v, path g0 u p v ->
  forall t c, is_visited (graph st) u = true ->
    get_value (graph st) u <= t ->
    path_cost p t = Some c ->
    is_visited (graph st) v = true /\ get_value (graph st) v <= c.
Proof.
  intros I B Hcl Hq u p v Hp.
  induction Hp as [u Hu|u e p v He Hp IH]; intros t c Hvis Hle; simpl.
  - by intros [= <-].
  - destruct (schedule e t) as [t'|] eqn:Hs; [|done]. intros Hc.
    destruct (edge_facts _ _ He) as (Hnn & _ & Hsp & Hhd).
    destruct (schedule_mono e _ t t' Hnn Hle Hs) as (c1 & Hs1 & Hc1).
    pose proof (Hcl u e c1 Hvis He (fun _ => not_elem_of_nil e) Hs1) as Hhead.
    pose proof (b_nonneg _ _ _ _ B u) as Hu0.
    pose proof (schedule_bounds e _ c1 Hnn Hu0 Hs1) as Hb.
    pose proof (b_vis_bound _ _ _ _ B u Hvis) as Hub.
    pose proof (finalized_length _ _ _ _ I) as Hfl.
    pose proof (max_span_nonneg g0) as HM.
    assert (Hmul : Z.of_nat (length (finalized (trace st))) * max_span g0
                   <= Z.of_nat (length (nodes g0)) * max_span g0).
    { apply Z.mul_le_mono_nonneg_r; lia. }
    unfold no_overflow in bound0.
    assert (Hhv : is_visited (graph st) (connection_node e) = true).
    { destruct (is_visited (graph st) (connection_node e)) eqn:Hv; [done|].
      assert (Hne : get_value (graph st) (connection_node e) <> INF) by lia.
      pose proof (inv_pending _ _ _ _ I _ Hhd Hv Hne) as Hin.
      rewrite Hq in Hin. by apply elem_of_nil in Hin. }
    apply (IH t' c); [done | lia | done].
Qed.

End Arithmetic.

(** ** Arrival times *)

Lemma path_edges g u p v e : path g u p v -> e ∈ p -> e ∈ all_edges g.
Proof.
  induction 1 as [u Hu|u e' p v He' Hp IH].
  - by intros ?%elem_of_nil.
  - intros [->|Hin]%elem_of_cons; [by eapply get_edges_all | auto].
Qed.

Lemma path_cost_ge p t c :
  Forall nonneg_edge p -> 0 <= t -> path_cost p t = Some c -> t <= c.
Proof.
  intros Hp. revert t. induction Hp as [|e p He Hp IH]; intros t Ht; simpl.
  - intros [= <-]. lia.
  - destruct (schedule e t) as [t'|] eqn:Hs; [|done]. intros Hc.
    apply schedule_bounds in Hs; [|done..]. apply IH in Hc; lia.
Qed.

Lemma print_queries_app g queries out :
  Forall (fun q => 0 <= q < Z.of_nat (length (nodes g))) queries ->
  print_queries g queries out
  = (Returned, out ++ map (fun q => query_line g (Z.to_nat q)) queries).
Proof.
  intros Hq. revert out. induction Hq as [|q queries Hq _ IH]; intros out; simpl.
  - by rewrite app_nil_r.
  - unfold get_node.
    destruct (Z.leb_spec 0 q); [|lia].
    destruct (Z.ltb_spec q (Z.of_nat (length (nodes g)))); [|lia].
    simpl. by rewrite IH, <- app_assoc.
Qed.

Section Arrival.

Variable addr : nat -> Z.
Hypothesis addr_inj : forall a b, addr a = addr b -> a = b.

(** The values a completed search leaves, for a graph whose arrival times
    fit. *)
Lemma dijkstra_timetable_values g s st :
  wf_graph g -> nonneg_graph g -> no_overflow g ->
  dijkstra_timetable addr g s = (Returned, st) ->
  exists src, get_node g s = Some src
    /\ length (nodes (graph st)) = length (nodes g)
    /\ (forall v, 0 <= get_value (graph st) v <= INF)
    /\ forall v, (v < length (nodes g))%nat ->
         earliest_arrival g src v (get_value (graph st) v).
Proof.
  intros Hwf Hnn Hbound Hrun.
  destruct (get_node g s) as [src|] eqn:Hs.
  2:{ unfold dijkstra_timetable in Hrun. by rewrite Hs in Hrun. }
  destruct (dijkstra_timetable_invB addr addr_inj g src Hwf Hnn Hbound
              s _ _ Hrun Hs) as (I & Hq & hi & B & Hcl).
  specialize (Hq eq_refl). specialize (Hcl eq_refl).
  exists src. split; [done|]. split; [apply (inv_length _ _ _ _ I)|].
  split.
  { intros v. split; [apply (b_nonneg _ _ _ _ B) | apply (inv_le_INF _ _ _ _ I)]. }
  assert (Hsrc : is_visited (graph st) src = true).
  { destruct (inv_src _ _ _ _ I) as (_ & _ & [?|[Hq' _]]); [done|].
    rewrite Hq in Hq'. done. }
  assert (Hsrc0 : get_value (graph st) src <= 0).
  { destruct (inv_src _ _ _ _ I) as (-> & _). lia. }
  assert (Hlow : forall v p c, path g src p v -> path_cost p 0 = Some c ->
            is_visited (graph st) v = true /\ get_value (graph st) v <= c).
  { intros v p c Hp Hc.
    eapply final_lower_bound; [exact Hwf|exact Hnn|exact Hbound|exact I
      |exact B|exact Hcl|exact Hq|exact Hp|exact Hsrc|exact Hsrc0|exact Hc]. }
  intros v Hv. unfold earliest_arrival.
  destruct (decide (get_value (graph st) v = INF)) as [Heq|Hne].
  - left. split; [done|]. intros p Hp.
    destruct (path_cost p 0) as [c|] eqn:Hc; [|done]. exfalso.
    destruct (Hlow v p c Hp Hc) as [Hvis _].
    pose proof (inv_visited_lt _ _ _ _ I v Hvis). lia.
  - right. pose proof (inv_le_INF _ _ _ _ I v).
    split; [lia|]. split; [by apply (b_real _ _ _ _ B)|].
    intros p c Hp Hc. by destruct (Hlow v p c Hp Hc).
Qed.

(** C1, amended.  For a graph of non-negative edges whose arrival times
    cannot overflow (the number of nodes times the longest edge span stays
    below [INF]), after [dijkstra_timetable] returns every node holds the
    least cost, over the paths from the start node, of the schedule
    function applied along the path from time 0, and holds [INF] when no
    path can be travelled. *)
Theorem dijkstra_timetable_earliest_arrival (g : Graph) (s : Z) (st : state) :
  wf_graph g -> nonneg_graph g -> no_overflow g ->
  dijkstra_timetable addr g s = (Returned, st) ->
  exists src, get_node g s = Some src
    /\ forall v, (v < length (nodes g))%nat ->
         earliest_arrival g src v (get_value (graph st) v).
Proof.
  intros Hwf Hnn Hbound Hrun.
  destruct (dijkstra_timetable_values g s st Hwf Hnn Hbound Hrun)
    as (src & Hs & _ & _ & H).
  by exists src.
Qed.

(** C5, amended.  For a graph of non-negative edges whose arrival times
    cannot overflow, in any run of [dijkstra_timetable], complete or cut
    short, the values the nodes are marked visited with are in
    non-decreasing order. *)
Theorem dijkstra_timetable_finalizes_in_order (g : Graph) (s : Z)
    (x : exit) (st : state) :
  wf_graph g -> nonneg_graph g -> no_overflow g ->
  dijkstra_timetable addr g s = (x, st) ->
  StronglySorted Z.le (visit_values (trace st)).
Proof.
  intros Hwf Hnn Hbound Hrun.
  destruct (get_node g s) as [src|] eqn:Hs.
  - destruct (dijkstra_timetable_invB addr addr_inj g src Hwf Hnn Hbound
                s _ _ Hrun Hs) as (_ & _ & hi & B & _).
    apply (b_sorted _ _ _ _ B).
  - unfold dijkstra_timetable in Hrun. rewrite Hs in Hrun.
    injection Hrun as <- <-. simpl. rewrite visit_values_resets. constructor.
Qed.

(** C8, amended.  After a completed search, the query loop writes one line
    per query that names a node, in query order, and does not fail: the
    line is [Impossible] when the node holds [INF] and the decimal value
    otherwise; that value is non-negative when the edges are non-negative
    and the arrival times of the graph cannot overflow. *)
Theorem print_queries_after_search (g : Graph) (s : Z) (st : state)
    (queries : list Z) :
  wf_graph g ->
  dijkstra_timetable addr g s = (Returned, st) ->
  Forall (fun q => 0 <= q < Z.of_nat (length (nodes g))) queries ->
  exists lines,
    print_queries (graph st) queries [] = (Returned, lines)
    /\ length lines = length queries
    /\ forall i q, queries !! i = Some q ->
         let value := get_value (graph st) (Z.to_nat q) in
         (value = INF /\ lines !! i = Some "Impossible"%string)
         \/ (value <> INF /\ lines !! i = Some (pretty value)
             /\ (nonneg_graph g -> no_overflow g -> 0 <= value)).
Proof.
  intros Hwf Hrun Hq.
  pose proof Hrun as Hinv.
  apply dijkstra_timetable_inv in Hinv as [(_ & [=] & _)|(src & Hs & I & _)];
    [|done..].
  exists (map (fun q => query_line (graph st) (Z.to_nat q)) queries).
  split; [|split].
  - rewrite print_queries_app; [done|]. by rewrite (inv_length _ _ _ _ I).
  - by rewrite length_map.
  - intros i q Hi value. rewrite list_lookup_fmap, Hi. simpl.
    unfold query_line. fold value.
    destruct (Z.eqb_spec value INF) as [Heq|Hne]; [by left | right].
    split; [done|]. split; [done|]. intros Hnn Hbound.
    destruct (dijkstra_timetable_values g s st Hwf Hnn Hbound Hrun)
      as (_ & _ & _ & Hrange & _).
    apply Hrange.
Qed.

End Arrival.

(** *** Values do not depend on the layout of the nodes in memory *)

Lemma earliest_arrival_unique g src v x y :
  earliest_arrival g src v x -> earliest_arrival g src v y -> x = y.
Proof.
  intros [[-> Hx]|(Hx & (p & Hp & Hc) & Hminx)]
         [[-> Hy]|(Hy & (q & Hq & Hd) & Hminy)].
  - done.
  - rewrite (Hx q Hq) in Hd. done.
  - rewrite (Hy p Hp) in Hc. done.
  - pose proof (Hminx q y Hq Hd). pose proof (Hminy p x Hp Hc). lia.
Qed.

Lemma returned_visited addr g s st n :
  (forall a b, addr a = addr b -> a = b) ->
  wf_graph g -> dijkstra_timetable addr g s = (Returned, st) ->
  is_visited (graph st) n
  = bool_decide ((n < length (nodes g))%nat /\ get_value (graph st) n <> INF).
Proof.
  intros Hinj Hwf Hrun.
  apply dijkstra_timetable_inv in Hrun as [(_ & [=] & _)|(src & Hs & I & Hq)];
    [|done..].
  specialize (Hq eq_refl).
  destruct (is_visited (graph st) n) eqn:Hv; symmetry.
  - apply bool_decide_eq_true. split; [by eapply visited_in_range|].
    pose proof (inv_visited_lt _ _ _ _ I n Hv). lia.
  - apply bool_decide_eq_false. intros [Hn Hne].
    pose proof (inv_pending _ _ _ _ I n Hn Hv Hne) as Hin.
    rewrite Hq in Hin. by apply elem_of_nil in Hin.
Qed.

Lemma dijkstra_timetable_layout addr addr' g s :
  (forall a b, addr a = addr b -> a = b) ->
  (forall a b, addr' a = addr' b -> a = b) ->
  wf_graph g -> nonneg_graph g -> no_overflow g ->
  (dijkstra_timetable addr g s).1 = Returned ->
  (dijkstra_timetable addr' g s).1 = Returned ->
  forall n,
    get_value (graph (dijkstra_timetable addr g s).2) n
    = get_value (graph (dijkstra_timetable addr' g s).2) n
    /\ is_visited (graph (dijkstra_timetable addr g s).2) n
       = is_visited (graph (dijkstra_timetable addr' g s).2) n.
Proof.
  intros Hinj Hinj' Hwf Hnn Hov Hr Hr' n.
  destruct (dijkstra_timetable addr g s) as [x st] eqn:Hrun.
  destruct (dijkstra_timetable addr' g s) as [x' st'] eqn:Hrun'.
  simpl in *. subst x x'.
  destruct (dijkstra_timetable_values addr Hinj g s st Hwf Hnn Hov Hrun)
    as (src & Hs & Hlen & _ & Hea).
  destruct (dijkstra_timetable_values addr' Hinj' g s st' Hwf Hnn Hov Hrun')
    as (src' & Hs' & Hlen' & _ & Hea').
  assert (src' = src) as -> by congruence.
  assert (Hval : get_value (graph st) n = get_value (graph st') n).
  { destruct (decide (n < length (nodes g))%nat) as [Hn|Hn].
    - eapply earliest_arrival_unique; [by apply Hea | by apply Hea'].
    - unfold get_value.
      rewrite !lookup_ge_None_2 by lia. done. }
  split; [done|].
  rewrite (returned_visited addr g s st n Hinj Hwf Hrun).
  rewrite (returned_visited addr' g s st' n Hinj' Hwf Hrun').
  by rewrite Hval.
Qed.

(** ** The constant-weight search run side by side *)

Lemma plain_get_value g n : Plain.get_value (plain_graph g) n = get_value g n.
Proof.
  unfold Plain.get_value, get_value, plain_graph. simpl.
  rewrite list_lookup_fmap. by destruct (nodes g !! n).
Qed.

Lemma plain_is_visited g n :
  Plain.is_visited (plain_graph g) n = is_visited g n.
Proof.
  unfold Plain.is_visited, is_visited, plain_graph. simpl.
  rewrite list_lookup_fmap. by destruct (nodes g !! n).
Qed.

Lemma plain_get_edges g n :
  Plain.get_edges (plain_graph g) n = map plain_edge (get_edges g n).
Proof.
  unfold Plain.get_edges, get_edges, plain_graph. simpl.
  rewrite list_lookup_fmap. by destruct (nodes g !! n).
Qed.

Lemma plain_get_node g i : Plain.get_node (plain_graph g) i = get_node g i.
Proof.
  unfold Plain.get_node, get_node, plain_graph. simpl. by rewrite length_map.
Qed.

Lemma plain_set_value n v g :
  plain_graph (set_value n v g) = Plain.set_value n v (plain_graph g).
Proof.
  unfold plain_graph, set_value, Plain.set_value. simpl. f_equal.
  apply (list_fmap_alter plain_node). by apply Forall_forall.
Qed.

Lemma plain_set_visited n b g :
  plain_graph (set_visited n b g) = Plain.set_visited n b (plain_graph g).
Proof.
  unfold plain_graph, set_visited, Plain.set_visited. simpl. f_equal.
  apply (list_fmap_alter plain_node). by apply Forall_forall.
Qed.

Lemma plain_set_prev_node n p g :
  plain_graph (set_prev_node n p g) = Plain.set_prev_node n p (plain_graph g).
Proof.
  unfold plain_graph, set_prev_node, Plain.set_prev_node. simpl. f_equal.
  apply (list_fmap_alter plain_node). by apply Forall_forall.
Qed.

Lemma plain_graph_reset s v g :
  plain_graph (graph_reset s v g) = Plain.graph_reset s v (plain_graph g).
Proof.
  unfold plain_graph, graph_reset, Plain.graph_reset. simpl. f_equal.
  rewrite !map_map. by apply map_ext.
Qed.

Lemma plain_edge_count g : Plain.edge_count (plain_graph g) = edge_count g.
Proof.
  unfold Plain.edge_count, edge_count, plain_graph. simpl.
  rewrite map_map. f_equal. apply map_ext. intros nd. simpl.
  by rewrite length_map.
Qed.

Lemma weight_edge_nonneg e : weight_edge e -> nonneg_edge e.
Proof. intros (Hs & Hp & Hd). unfold nonneg_edge. lia. Qed.

Lemma weight_graph_nonneg g : weight_graph g -> nonneg_graph g.
Proof.
  unfold weight_graph, nonneg_graph. intros H.
  eapply Forall_impl; [exact H | apply weight_edge_nonneg].
Qed.

Section SideBySide.

Variable addr : nat -> Z.
Hypothesis addr_inj : forall a b, addr a = addr b -> a = b.

(** One pass of the edge loop does the same in both programs. *)
Lemma sim_relax_edge e curr st :
  weight_edge e -> 0 <= get_value (graph st) curr <= INT_MAX ->
  exists st', relax_edge addr e curr st = (Returned, st')
    /\ Plain.relax_edge addr (plain_edge e) curr (plain_state st)
       = plain_state st'.
Proof.
  intros Hw Ht. unfold relax_edge, Plain.relax_edge. simpl.
  rewrite plain_is_visited, !plain_get_value.
  rewrite (get_travel_time_weight e _ Hw Ht).
  destruct (is_visited (graph st) (connection_node e)); [by exists st|].
  destruct (_ <? _); [|by exists st].
  eexists. split; [done|]. unfold plain_state. simpl.
  by rewrite plain_set_prev_node, plain_set_value.
Qed.

Lemma relax_edge_keeps_visited e curr st x st' m :
  (connection_node e < length (nodes (graph st)))%nat ->
  is_visited (graph st) m = true ->
  relax_edge addr e curr st = (x, st') ->
  get_value (graph st') m = get_value (graph st) m.
Proof.
  intros Hhd Hm H. apply relax_edge_cases in H
    as [(_ & -> & _)|[(_ & -> & _)|[(_ & -> & _)|(_ & Hv & upd & _ & _ & ->)]]];
    try done.
  cbn [graph]. rewrite relaxed_value by done.
  rewrite decide_False; [done|]. intros ->. congruence.
Qed.

Lemma sim_relax_edges es curr st :
  Forall weight_edge es ->
  Forall (fun e => (connection_node e < length (nodes (graph st)))%nat) es ->
  is_visited (graph st) curr = true ->
  0 <= get_value (graph st) curr <= INT_MAX ->
  exists st', relax_edges addr es curr st = (Returned, st')
    /\ Plain.relax_edges addr (map plain_edge es) curr (plain_state st)
       = plain_state st'.
Proof.
  intros Hw. revert st. induction Hw as [|e es He Hes IH];
    intros st Hhd Hcurr Ht; simpl.
  - by exists st.
  - apply Forall_cons in Hhd as [Hhd Hhds].
    destruct (sim_relax_edge e curr st He Ht) as (st1 & E1 & P1).
    rewrite E1, P1.
    assert (Hlen : length (nodes (graph st1)) = length (nodes (graph st))).
    { apply relax_edge_cases in E1
        as [(_ & -> & _)|[(_ & -> & _)|[(_ & -> & _)|(_ & _ & upd & _ & _ & ->)]]];
        try done. apply relaxed_length. }
    apply IH.
    + by rewrite Hlen.
    + by rewrite (relax_edge_visited _ _ _ _ _ _ _ E1).
    + by rewrite (relax_edge_keeps_visited _ _ _ _ _ _ Hhd Hcurr E1).
Qed.

Section Loop.

Variable g0 : Graph.
Variable src : nat.
Hypothesis wf0 : wf_graph g0.
Hypothesis weight0 : weight_graph g0.
Hypothesis bound0 : no_overflow g0.

Lemma sim_visit_top st hi top q :
  inv addr g0 src st -> invB g0 src hi st ->
  prio_queue st = top :: q ->
  exists st', visit_top addr top st = (Returned, st')
    /\ Plain.visit_top addr top (plain_state st) = plain_state st'.
Proof.
  intros I B Hq. destruct top as [k n].
  unfold visit_top, Plain.visit_top. simpl. rewrite plain_is_visited.
  destruct (is_visited (graph st) n) eqn:Hv; [by eexists|].
  destruct (inv_queue _ _ _ _ I k n) as (Hn & _).
  { rewrite Hq. by left. }
  assert (Hn' : (n < length (nodes (graph st)))%nat)
    by (by rewrite (inv_length _ _ _ _ I)).
  rewrite plain_get_edges, <- plain_set_visited.
  apply (sim_relax_edges (get_edges (graph st) n) n
           (mkState (set_visited n true (graph st))
                    (set_erase addr (k, n) (prio_queue st))
                    (trace st ++ [EvVisit n (get_value (graph st) n)]))).
  - apply Forall_forall. intros e He. rewrite (inv_edges _ _ _ _ I) in He.
    unfold weight_graph in weight0. rewrite Forall_forall in weight0.
    by eapply weight0, get_edges_all.
  - apply Forall_forall. intros e He. rewrite (inv_edges _ _ _ _ I) in He.
    cbn [graph]. rewrite set_visited_length, (inv_length _ _ _ _ I).
    by eapply head_in_range.
  - cbn [graph]. by rewrite set_visited_visited, decide_True.
  - cbn [graph]. rewrite set_visited_value.
    pose proof (b_nonneg _ _ _ _ B n). pose proof (inv_le_INF _ _ _ _ I n).
    unfold INF in *. lia.
Qed.

Lemma sim_loop fuel st hi c :
  inv addr g0 src st -> invB g0 src hi st -> closed g0 st c [] ->
  Plain.dijkstra_loop addr fuel (plain_state st)
  = ((dijkstra_loop addr fuel st).1,
     plain_state (dijkstra_loop addr fuel st).2).
Proof.
  revert st hi. induction fuel as [|fuel IH]; intros st hi I B Hcl; simpl.
  - by destruct (prio_queue st).
  - destruct (prio_queue st) as [|top q] eqn:Hq; [done|].
    destruct (sim_visit_top st hi top q I B Hq) as (st1 & E1 & P1).
    rewrite E1, P1.
    assert (I1 : inv addr g0 src st1) by (by eapply visit_top_inv).
    destruct (visit_top_invB addr addr_inj g0 src wf0
                (weight_graph_nonneg _ weight0) bound0
                _ _ _ _ _ _ _ I B Hcl Hq E1) as (hi1 & B1 & Hcl1).
    eapply IH; [done..|]. by apply Hcl1.
Qed.

End Loop.

Lemma plain_loop_exit fuel pst :
  (Plain.dijkstra_loop addr fuel pst).1 = Returned
  \/ (Plain.dijkstra_loop addr fuel pst).1 = OutOfFuel.
Proof.
  revert pst. induction fuel as [|fuel IH]; intros pst; simpl.
  - destruct (Plain.prio_queue pst); auto.
  - destruct (Plain.prio_queue pst); [auto | apply IH].
Qed.

(** Both searches, run on the same graph from the same start. *)
Lemma dijkstra_side_by_side g s :
  wf_graph g -> weight_graph g -> no_overflow g ->
  Plain.dijkstra addr (plain_graph g) s
  = ((dijkstra_timetable addr g s).1,
     plain_state (dijkstra_timetable addr g s).2).
Proof.
  intros Hwf Hw Hb. unfold Plain.dijkstra, dijkstra_timetable.
  rewrite plain_get_node. destruct (get_node g s) as [src|] eqn:Hs.
  - rewrite plain_edge_count.
    pose proof (initial_inv addr g src s Hs) as I0.
    destruct (initial_invB addr g src s 0%nat Hs) as [B0 C0].
    rewrite <- (sim_loop g src Hwf Hw Hb _ _ 0 0%nat I0 B0 C0).
    f_equal. unfold plain_state, initial_state. cbn [graph prio_queue].
    rewrite <- plain_graph_reset, <- plain_set_value, plain_get_value. done.
  - simpl. unfold plain_state. simpl. by rewrite plain_graph_reset.
Qed.

End SideBySide.

(** C9, amended.  A plain weighted edge, written as departure 0, period 1
    and duration [w], costs [current_time + w] in the arithmetic of [int];
    and on a graph of such edges whose arrival times cannot overflow,
    [dijkstra_timetable] ends as the constant-weight [dijkstra] does on
    the same graph with the costs [w] (it returns when the start index
    names a node), and leaves every node with the same value and the same
    visited flag, however each of the two programs lays out its nodes in
    memory.  When both lay them out alike, the whole graphs agree at the
    end, predecessors included; ties between equal values are broken by
    address, so that predecessors may differ otherwise. *)
Theorem dijkstra_timetable_refines_dijkstra (addr addr' : nat -> Z)
    (g : Graph) (s : Z) :
  (forall a b, addr a = addr b -> a = b) ->
  (forall a b, addr' a = addr' b -> a = b) ->
  wf_graph g -> weight_graph g -> no_overflow g ->
  (forall e current_time,
     weight_edge e -> 0 <= current_time <= INT_MAX ->
     get_travel_time e current_time
     = Some (int_add current_time (traverse_time e)))
  /\ (dijkstra_timetable addr g s).1
     = (Plain.dijkstra addr' (plain_graph g) s).1
  /\ (forall n, get_value (graph (dijkstra_timetable addr g s).2) n
                = Plain.get_value
                    (Plain.graph (Plain.dijkstra addr' (plain_graph g) s).2) n)
  /\ (forall n, is_visited (graph (dijkstra_timetable addr g s).2) n
                = Plain.is_visited
                    (Plain.graph (Plain.dijkstra addr' (plain_graph g) s).2) n)
  /\ plain_graph (graph (dijkstra_timetable addr g s).2)
     = Plain.graph (Plain.dijkstra addr (plain_graph g) s).2
  /\ (is_Some (get_node g s) -> (dijkstra_timetable addr g s).1 = Returned).
Proof.
  intros Hinj Hinj' Hwf Hw Hb.
  pose proof (dijkstra_side_by_side addr Hinj g s Hwf Hw Hb) as Hsim.
  pose proof (dijkstra_side_by_side addr' Hinj' g s Hwf Hw Hb) as Hsim'.
  assert (Hper : Forall (fun e => departure_time e <> 0
                                  /\ departure_time e <> -1) (all_edges g)).
  { eapply Forall_impl; [exact Hw|]. intros e (_ & -> & _). done. }
  assert (Hret : forall ad, (forall a b, ad a = ad b -> a = b) ->
            is_Some (get_node g s) -> (dijkstra_timetable ad g s).1 = Returned).
  { intros ad Had Hs. by apply dijkstra_timetable_returns. }
  assert (Hlay : (dijkstra_timetable addr g s).1
                 = (dijkstra_timetable addr' g s).1
                 /\ forall n,
                   get_value (graph (dijkstra_timetable addr g s).2) n
                   = get_value (graph (dijkstra_timetable addr' g s).2) n
                   /\ is_visited (graph (dijkstra_timetable addr g s).2) n
                      = is_visited (graph (dijkstra_timetable addr' g s).2) n).
  { destruct (get_node g s) as [src|] eqn:Hs.
    - assert (Hsome : is_Some (get_node g s)) by (by rewrite Hs).
      split; [by rewrite !Hret|].
      apply dijkstra_timetable_layout; try done.
      + by apply weight_graph_nonneg.
      + by apply Hret.
      + by apply Hret.
    - unfold dijkstra_timetable. by rewrite Hs. }
  destruct Hlay as [Hex Hvals].
  split.
  { intros e t He Ht. by apply get_travel_time_weight. }
  rewrite Hsim, Hsim'. cbn [fst snd]. unfold plain_state. cbn [Plain.graph].
  split; [done|]. split.
  { intros n. rewrite plain_get_value. apply Hvals. }
  split.
  { intros n. rewrite plain_is_visited. apply Hvals. }
  split; [done|]. by apply Hret.
Qed.

(** ** The theorems at the worked inputs *)

Lemma in_order_inj a b : in_order a = in_order b -> a = b.
Proof. unfold in_order. lia. Qed.

Lemma reverse_order_inj a b : reverse_order a = reverse_order b -> a = b.
Proof. unfold reverse_order. lia. Qed.

Lemma get_travel_time_matches_reference_witness :
  get_travel_time (mkEdge 2 1 10 3) 11
  = Some (wrap (spec_travel_time (mkEdge 2 1 10 3) 11))
  /\ (spec_travel_time (mkEdge 2 1 10 3) 11 <= INT_MAX ->
      get_travel_time (mkEdge 2 1 10 3) 11
      = Some (spec_travel_time (mkEdge 2 1 10 3) 11)).
Proof.
  apply get_travel_time_matches_reference;
    [compute_done | compute_done | compute_done | simpl; lia].
Defined.

Lemma get_travel_time_not_before_witness : 14 = INF \/ 11 <= 14.
Proof.
  apply (get_travel_time_not_before (mkEdge 2 1 10 3) 11 14);
    [compute_done | compute_done | compute_done | compute_done | reflexivity].
Defined.

Lemma dijkstra_timetable_INF_iff_unvisited_witness :
  let st := (dijkstra_timetable in_order timetable_graph 0).2 in
  (get_value (graph st) 3 = INF <-> is_visited (graph st) 3 = false)
  /\ (is_visited (graph st) 3 = true -> get_value (graph st) 3 < INF)
  /\ (is_visited (graph st) 3 = false -> get_value (graph st) 3 = INF).
Proof.
  apply (dijkstra_timetable_INF_iff_unvisited in_order in_order_inj
           timetable_graph 0);
    [compute_done | reflexivity | simpl; lia].
Defined.

Lemma dijkstra_timetable_finalized_is_final_witness :
  let st := (dijkstra_timetable in_order timetable_graph 0).2 in
  quiet_after_visit (trace st)
  /\ (forall n v, EvVisit n v ∈ trace st -> get_value (graph st) n = v)
  /\ (forall top st1, is_visited (graph st1) top.2 = true ->
        graph (visit_top in_order top st1).2 = graph st1
        /\ trace (visit_top in_order top st1).2 = trace st1)
  /\ (forall e curr st1,
        is_visited (graph st1) (connection_node e) = true ->
        relax_edge in_order e curr st1 = (Returned, st1)).
Proof.
  apply (dijkstra_timetable_finalized_is_final in_order in_order_inj
           timetable_graph 0 Returned);
    [compute_done | reflexivity].
Defined.


Lemma dijkstra_timetable_earliest_arrival_witness :
  let st := (dijkstra_timetable in_order timetable_graph 0).2 in
  exists src, get_node timetable_graph 0 = Some src
    /\ forall v, (v < length (nodes timetable_graph))%nat ->
         earliest_arrival timetable_graph src v (get_value (graph st) v).
Proof.
  apply (dijkstra_timetable_earliest_arrival in_order in_order_inj
           timetable_graph 0);
    [compute_done | compute_done | compute_done | reflexivity].
Defined.

Lemma dijkstra_timetable_finalizes_in_order_witness :
  StronglySorted Z.le
    (visit_values (trace (dijkstra_timetable in_order timetable_graph 0).2)).
Proof.
  apply (dijkstra_timetable_finalizes_in_order in_order in_order_inj
           timetable_graph 0 Returned);
    [compute_done | compute_done | compute_done | reflexivity].
Defined.

Lemma print_queries_after_search_witness :
  let g := timetable_graph in
  let st := (dijkstra_timetable in_order g 0).2 in
  exists lines,
    print_queries (graph st) [2; 3; 1] [] = (Returned, lines)
    /\ length lines = length [2; 3; 1]
    /\ forall i q, [2; 3; 1] !! i = Some q ->
         let value := get_value (graph st) (Z.to_nat q) in
         (value = INF /\ lines !! i = Some "Impossible"%string)
         \/ (value <> INF /\ lines !! i = Some (pretty value)
             /\ (nonneg_graph g -> no_overflow g -> 0 <= value)).
Proof.
  apply (print_queries_after_search in_order in_order_inj timetable_graph 0);
    [compute_done | reflexivity | compute_done].
Defined.

Lemma dijkstra_timetable_refines_dijkstra_witness :
  let g := tie_graph in
  let timetable := dijkstra_timetable in_order g 0 in
  let plain := Plain.dijkstra reverse_order (plain_graph g) 0 in
  (forall e current_time,
     weight_edge e -> 0 <= current_time <= INT_MAX ->
     get_travel_time e current_time
     = Some (int_add current_time (traverse_time e)))
  /\ timetable.1 = plain.1
  /\ (forall n, get_value (graph timetable.2) n
                = Plain.get_value (Plain.graph plain.2) n)
  /\ (forall n, is_visited (graph timetable.2) n
                = Plain.is_visited (Plain.graph plain.2) n)
  /\ plain_graph (graph timetable.2)
     = Plain.graph (Plain.dijkstra in_order (plain_graph g) 0).2
  /\ (is_Some (get_node g 0) -> timetable.1 = Returned).
Proof.
  apply (dijkstra_timetable_refines_dijkstra in_order reverse_order
           tie_graph 0);
    [apply in_order_inj | apply reverse_order_inj
    | compute_done | compute_done | compute_done].
Defined.

(** The scenario graph as [main] builds it. *)
Example timetable_graph_built :
  (add_one_way_edge 0 1 5 0 2 (new_Graph 4 INF 0)
     ≫= add_one_way_edge 1 2 10 3 1)
  = Some timetable_graph.
Proof. reflexivity. Qed.

(** The values the worked inputs end with. *)
Example timetable_graph_values :
  map value (nodes (graph (dijkstra_timetable in_order timetable_graph 0).2))
  = [0; 7; 11; INF].
Proof. reflexivity. Qed.

Example weighted_graph_values :
  map value (nodes (graph (dijkstra_timetable in_order weighted_graph 0).2))
  = [0; 3; 1; 4].
Proof. reflexivity. Qed.

Example timetable_graph_lines :
  print_queries (graph (dijkstra_timetable in_order timetable_graph 0).2)
    [2; 3; 1] []
  = (Returned, ["11"; "Impossible"; "7"]%string).
Proof. reflexivity. Qed.

Example timetable_graph_path :
  get_path (graph (dijkstra_timetable in_order timetable_graph 0).2) 2
  = (Returned, [0; 1; 2]%nat).
Proof. reflexivity. Qed.

(** The search stops at the division by zero of C3 before node 1 is
    given a value; the reference function gives 5 there. *)
Example one_shot_graph_crashes :
  (dijkstra_timetable in_order one_shot_graph 0).1 = Crashed DivisionByZero
  /\ spec_travel_time (mkEdge 1 5 0 0) 0 = 5.
Proof. split; reflexivity. Qed.

(** ** Where the sum leaves [int] *)

(** C2 as stated fails: with all members non-negative, the code returns the
    wrapped sum where the reference function gives [1 + INT_MAX]. *)
Lemma get_travel_time_wraps_reference :
  nonneg_edge (mkEdge 2 INT_MAX 0 1) /\ int_edge (mkEdge 2 INT_MAX 0 1)
  /\ 0 <= 1 <= INT_MAX
  /\ get_travel_time (mkEdge 2 INT_MAX 0 1) 1 = Some INT_MIN
  /\ spec_travel_time (mkEdge 2 INT_MAX 0 1) 1 = 2147483648
  /\ get_travel_time (mkEdge 2 INT_MAX 0 1) 1
     <> Some (spec_travel_time (mkEdge 2 INT_MAX 0 1) 1).
Proof. repeat split; compute_done. Qed.

(** C4 as stated fails: the wrapped sum is neither the sentinel nor at
    least [current_time]. *)
Lemma get_travel_time_wraps_before :
  nonneg_edge (mkEdge 2 INT_MAX 0 1) /\ int_edge (mkEdge 2 INT_MAX 0 1)
  /\ 0 <= 1 <= INT_MAX
  /\ exists v, get_travel_time (mkEdge 2 INT_MAX 0 1) 1 = Some v
               /\ ~ (v = INF \/ 1 <= v).
Proof.
  repeat split; try compute_done.
  exists INT_MIN. split; [reflexivity|]. unfold INF, INT_MAX, INT_MIN. lia.
Qed.

(** C1 as stated fails: node 2 ends with the wrapped sum, which no path
    costs. *)
Lemma dijkstra_timetable_overflow_not_earliest :
  wf_graph overflow_graph /\ nonneg_graph overflow_graph
  /\ exists st,
       dijkstra_timetable in_order overflow_graph 0 = (Returned, st)
       /\ get_node overflow_graph 0 = Some 0%nat
       /\ get_value (graph st) 2 = INT_MIN
       /\ ~ earliest_arrival overflow_graph 0 2 (get_value (graph st) 2).
Proof.
  split; [compute_done|]. split; [compute_done|].
  exists (dijkstra_timetable in_order overflow_graph 0).2.
  split; [reflexivity|]. split; [reflexivity|]. split; [reflexivity|].
  replace (get_value _ 2) with INT_MIN by reflexivity.
  unfold earliest_arrival.
  intros [[H _]|(_ & (p & Hp & Hc) & _)]; [discriminate|].
  apply path_cost_ge in Hc; [unfold INT_MIN in Hc; lia| |lia].
  apply Forall_forall. intros e He.
  apply (path_edges _ _ _ _ _ Hp) in He.
  assert (Hnn : nonneg_graph overflow_graph) by compute_done.
  unfold nonneg_graph in Hnn. rewrite Forall_forall in Hnn. auto.
Qed.

(** C5 as stated fails: node 2 is marked visited with the wrapped sum after
    node 1 was marked with 1. *)
Lemma dijkstra_timetable_overflow_out_of_order :
  wf_graph overflow_graph /\ nonneg_graph overflow_graph
  /\ exists st,
       dijkstra_timetable in_order overflow_graph 0 = (Returned, st)
       /\ visit_values (trace st) = [0; 1; INT_MIN]
       /\ ~ StronglySorted Z.le (visit_values (trace st)).
Proof.
  split; [compute_done|]. split; [compute_done|].
  exists (dijkstra_timetable in_order overflow_graph 0).2.
  split; [reflexivity|]. split; [reflexivity|].
  replace (visit_values _) with [0; 1; INT_MIN] by reflexivity.
  intros Hs. apply StronglySorted_inv in Hs as [_ Hall].
  apply Forall_cons in Hall as [_ Hall]. apply Forall_cons in Hall as [Hle _].
  unfold INT_MIN in Hle. lia.
Qed.

(** C8 as stated fails: the line for node 2 is a negative number. *)
Lemma print_queries_overflow_negative :
  wf_graph overflow_graph /\ nonneg_graph overflow_graph
  /\ exists st,
       dijkstra_timetable in_order overflow_graph 0 = (Returned, st)
       /\ print_queries (graph st) [2] [] = (Returned, ["-2147483648"%string])
       /\ get_value (graph st) 2 <> INF
       /\ get_value (graph st) 2 < 0.
Proof.
  split; [compute_done|]. split; [compute_done|].
  exists (dijkstra_timetable in_order overflow_graph 0).2.
  split; [reflexivity|]. split; [reflexivity|]. split; compute_done.
Qed.

(** C9 as stated fails: past the wrapped sum the two searches part, the
    timetable search waiting from a negative time to departure 0. *)
Lemma dijkstra_timetable_overflow_differs :
  wf_graph overflow_graph4 /\ weight_graph overflow_graph4
  /\ (dijkstra_timetable in_order overflow_graph4 0).1 = Returned
  /\ (Plain.dijkstra in_order (plain_graph overflow_graph4) 0).1 = Returned
  /\ get_value (graph (dijkstra_timetable in_order overflow_graph4 0).2) 3 = 5
  /\ Plain.get_value
       (Plain.graph (Plain.dijkstra in_order (plain_graph overflow_graph4) 0).2)
       3 = -2147483643.
Proof. repeat split; compute_done. Qed.

(** With two equally short ways to a node, the predecessor the searches
    leave depends on the order of the addresses of the nodes; the values do
    not. *)
Example tie_graph_predecessors :
  let timetable := (dijkstra_timetable in_order tie_graph 0).2 in
  let plain := (Plain.dijkstra reverse_order (plain_graph tie_graph) 0).2 in
  map prev_node (nodes (graph timetable)) = [None; Some 0; Some 0; Some 1]%nat
  /\ map Plain.prev_node (Plain.nodes (Plain.graph plain))
     = [None; Some 0; Some 0; Some 2]%nat
  /\ map value (nodes (graph timetable)) = [0; 1; 1; 2]
  /\ map Plain.value (Plain.nodes (Plain.graph plain)) = [0; 1; 1; 2].
Proof. repeat split. Qed.

(** The search on the edge of period -1 is stopped at [INT_MIN % -1]. *)
Example trap_graph_crashes :
  get_travel_time (mkEdge 1 5 INT_MIN (-1)) 0 = None
  /\ (dijkstra_timetable in_order trap_graph 0).1 = Crashed RemOverflow
  /\ test_case in_order 2 0 [(0, 1, INT_MIN, -1, 5)] [1]
     = (Crashed RemOverflow, []).
Proof. repeat split. Qed.

(** * Further properties of the program *)

(** ** What a search leaves alone, and what it forgets *)

Lemma relaxed_topology nb curr upd g :
  map edges (nodes (relaxed nb curr upd g)) = map edges (nodes g)
  /\ start_index (relaxed nb curr upd g) = start_index g.
Proof.
  unfold relaxed, set_prev_node, set_value. simpl.
  by rewrite !map_alter_same.
Qed.

Lemma set_visited_topology c b g :
  map edges (nodes (set_visited c b g)) = map edges (nodes g)
  /\ start_index (set_visited c b g) = start_index g.
Proof. unfold set_visited. simpl. by rewrite map_alter_same. Qed.

Lemma graph_reset_topology s v g g' :
  map edges (nodes g') = map edges (nodes g) ->
  graph_reset s v g' = graph_reset s v g.
Proof.
  intros H. unfold graph_reset. f_equal.
  change (map (fun nd => mkNode v false None (edges nd)) (nodes g'))
    with (map (fun nd => (fun es => mkNode v false None es) (edges nd))
              (nodes g')).
  change (map (fun nd => mkNode v false None (edges nd)) (nodes g))
    with (map (fun nd => (fun es => mkNode v false None es) (edges nd))
              (nodes g)).
  rewrite <- !(map_map edges (fun es => mkNode v false None es)).
  by rewrite H.
Qed.

Section Rerun.

Variable addr : nat -> Z.

Lemma relax_edge_topology e curr st :
  map edges (nodes (graph (relax_edge addr e curr st).2))
  = map edges (nodes (graph st))
  /\ start_index (graph (relax_edge addr e curr st).2) = start_index (graph st).
Proof.
  destruct (relax_edge addr e curr st) as [x st'] eqn:E.
  apply relax_edge_cases in E
    as [(_ & -> & _)|[(_ & -> & _)|[(_ & -> & _)|(_ & _ & upd & _ & _ & ->)]]];
    try done.
  apply relaxed_topology.
Qed.

Lemma relax_edges_topology es curr st :
  map edges (nodes (graph (relax_edges addr es curr st).2))
  = map edges (nodes (graph st))
  /\ start_index (graph (relax_edges addr es curr st).2)
     = start_index (graph st).
Proof.
  revert st. induction es as [|e es IH]; intros st; simpl; [done|].
  pose proof (relax_edge_topology e curr st) as [H1 H2].
  destruct (relax_edge addr e curr st) as [y st1]. simpl in H1, H2.
  destruct y; [|done..].
  destruct (IH st1) as [H3 H4]. by rewrite H3, H4.
Qed.

Lemma visit_top_topology top st :
  map edges (nodes (graph (visit_top addr top st).2))
  = map edges (nodes (graph st))
  /\ start_index (graph (visit_top addr top st).2) = start_index (graph st).
Proof.
  unfold visit_top. simpl. destruct (is_visited (graph st) top.2); [done|].
  match goal with |- context [relax_edges addr ?es ?c ?s] =>
    destruct (relax_edges_topology es c s) as [H1 H2] end.
  rewrite H1, H2. apply set_visited_topology.
Qed.

Lemma dijkstra_loop_topology fuel st :
  map edges (nodes (graph (dijkstra_loop addr fuel st).2))
  = map edges (nodes (graph st))
  /\ start_index (graph (dijkstra_loop addr fuel st).2)
     = start_index (graph st).
Proof.
  revert st. induction fuel as [|fuel IH]; intros st; simpl.
  - by destruct (prio_queue st).
  - destruct (prio_queue st) as [|top q]; [done|].
    pose proof (visit_top_topology top st) as [H1 H2].
    destruct (visit_top addr top st) as [y st1]. simpl in H1, H2.
    destruct y; [|done..].
    destruct (IH st1) as [H3 H4]. by rewrite H3, H4.
Qed.

Lemma dijkstra_timetable_topology g s :
  map edges (nodes (graph (dijkstra_timetable addr g s).2))
  = map edges (nodes g)
  /\ start_index (graph (dijkstra_timetable addr g s).2) = s.
Proof.
  unfold dijkstra_timetable. destruct (get_node g s) as [src|].
  - destruct (dijkstra_loop_topology (S (edge_count g))
                (initial_state addr g s src)) as [H1 H2].
    rewrite H1, H2. unfold initial_state, set_value, graph_reset. simpl.
    by rewrite map_alter_same, map_map.
  - simpl. by rewrite map_map.
Qed.

(** X1.  A search changes no edge list and no number of nodes, and leaves
    [start_index] at the index it was called with, however it ends. *)
Theorem dijkstra_timetable_keeps_topology (g : Graph) (s : Z) :
  map edges (nodes (graph (dijkstra_timetable addr g s).2))
  = map edges (nodes g)
  /\ length (nodes (graph (dijkstra_timetable addr g s).2)) = length (nodes g)
  /\ start_index (graph (dijkstra_timetable addr g s).2) = s.
Proof.
  destruct (dijkstra_timetable_topology g s) as [H1 H2].
  split; [done|]. split; [|done].
  apply (f_equal length) in H1. by rewrite !length_map in H1.
Qed.

Lemma dijkstra_timetable_topology_only g g' s :
  map edges (nodes g') = map edges (nodes g) ->
  dijkstra_timetable addr g' s = dijkstra_timetable addr g s.
Proof.
  intros H.
  assert (Hlen : length (nodes g') = length (nodes g)).
  { apply (f_equal length) in H. by rewrite !length_map in H. }
  assert (Hcount : edge_count g' = edge_count g).
  { unfold edge_count.
    change (map (fun nd => length (edges nd)) (nodes g'))
      with (map (fun nd => (fun es : list Edge => length es) (edges nd))
                (nodes g')).
    change (map (fun nd => length (edges nd)) (nodes g))
      with (map (fun nd => (fun es : list Edge => length es) (edges nd))
                (nodes g)).
    rewrite <- !(map_map edges (fun es : list Edge => length es)).
    by rewrite H. }
  unfold dijkstra_timetable, initial_state.
  rewrite (get_node_ext g g' s Hlen), Hcount, Hlen.
  by rewrite (graph_reset_topology s INF g g' H).
Qed.

(** X2.  A search starts from a clean state: run on the graph an earlier search
    left (from any start, however that search ended), it does exactly what
    it does on the graph as built. *)
Theorem dijkstra_timetable_rerun (g : Graph) (s s' : Z) :
  dijkstra_timetable addr (graph (dijkstra_timetable addr g s').2) s
  = dijkstra_timetable addr g s.
Proof.
  apply dijkstra_timetable_topology_only.
  apply dijkstra_timetable_topology.
Qed.

End Rerun.

(** ** How a search ends *)

Section Ending.

Variable addr : nat -> Z.
Hypothesis addr_inj : forall a b, addr a = addr b -> a = b.

Lemma dijkstra_loop_more_fuel fuel k st :
  (budget st <= fuel)%nat ->
  dijkstra_loop addr (fuel + k) st = dijkstra_loop addr fuel st.
Proof.
  revert st. induction fuel as [|fuel IH]; intros st Hb.
  - unfold budget in Hb.
    destruct (prio_queue st) as [|top q] eqn:Hq; [|simpl in Hb; lia].
    destruct k; simpl; by rewrite Hq.
  - simpl. destruct (prio_queue st) as [|top q] eqn:Hq; [done|].
    destruct (visit_top addr top st) as [y st1] eqn:E.
    pose proof (visit_top_budget _ _ _ _ _ _ Hq E).
    destruct y; [|done..]. apply IH. lia.
Qed.

(** X3.  The loop of the search ends within one round per edge and one
    more: given more rounds it does the same, and it never needs more. *)
Theorem dijkstra_loop_rounds (g : Graph) (s : Z) (src k : nat) :
  dijkstra_loop addr (S (edge_count g) + k) (initial_state addr g s src)
  = dijkstra_loop addr (S (edge_count g)) (initial_state addr g s src)
  /\ (dijkstra_loop addr (S (edge_count g)) (initial_state addr g s src)).1
     <> OutOfFuel.
Proof.
  assert (Hb : (budget (initial_state addr g s src) <= S (edge_count g))%nat).
  { unfold budget, initial_state. simpl. fold (started s src g).
    rewrite pending_started. lia. }
  split; [by apply dijkstra_loop_more_fuel | by apply dijkstra_loop_fuel].
Qed.

Lemma dijkstra_loop_exit fuel st :
  (dijkstra_loop addr fuel st).1 <> Crashed BadIndex.
Proof.
  revert st. induction fuel as [|fuel IH]; intros st; simpl.
  - by destruct (prio_queue st).
  - destruct (prio_queue st) as [|top q]; [done|].
    destruct (visit_top addr top st) as [y st1] eqn:E.
    apply visit_top_exit in E as [-> | [d ->]]; [apply IH|].
    simpl. unfold rem_fault. by destruct (d =? 0).
Qed.

(** X4.  The search is stopped for a bad index exactly when the start index
    names no node; and it returns whenever the start index names a node and
    no edge has period 0 or period -1, the two divisors for which [%] can
    be without result. *)
Theorem dijkstra_timetable_exit (g : Graph) (s : Z) :
  wf_graph g ->
  ((dijkstra_timetable addr g s).1 = Crashed BadIndex
   <-> get_node g s = None)
  /\ (is_Some (get_node g s) ->
      Forall (fun e => departure_time e <> 0 /\ departure_time e <> -1)
             (all_edges g) ->
      (dijkstra_timetable addr g s).1 = Returned).
Proof.
  intros Hwf. split.
  - unfold dijkstra_timetable. destruct (get_node g s) as [src|]; [|done].
    split; [|done]. intros H. by apply dijkstra_loop_exit in H.
  - intros Hs Hper. by apply dijkstra_timetable_returns.
Qed.

Lemma relax_edges_crash es curr st f st' :
  relax_edges addr es curr st = (Crashed f, st') ->
  exists e, e ∈ es
    /\ f = rem_fault (departure_time e)
    /\ is_visited (graph st') (connection_node e) = false
    /\ get_travel_time e (get_value (graph st') curr) = None.
Proof.
  revert st. induction es as [|e es IH]; intros st; simpl; [done|].
  destruct (relax_edge addr e curr st) as [y st1] eqn:E.
  apply relax_edge_cases in E
    as [(-> & -> & _)|[(-> & -> & Hv & Hn)|[(-> & -> & _)|(-> & _)]]].
  - intros (e' & ? & ?)%IH. exists e'. split; [by right|done].
  - intros [= <- <-]. exists e. split; [by left | done].
  - intros (e' & ? & ?)%IH. exists e'. split; [by right|done].
  - intros (e' & ? & ?)%IH. exists e'. split; [by right|done].
Qed.

Lemma dijkstra_loop_crash g src fuel st f st' :
  wf_graph g -> inv addr g src st ->
  dijkstra_loop addr fuel st = (Crashed f, st') ->
  exists u e, e ∈ get_edges g u
    /\ is_visited (graph st') u = true
    /\ is_visited (graph st') (connection_node e) = false
    /\ (f = DivisionByZero /\ departure_time e = 0
        /\ get_value (graph st') u = start_time e
        \/ f = RemOverflow /\ departure_time e = -1
           /\ start_time e <= get_value (graph st') u
           /\ int_sub (get_value (graph st') u) (start_time e) = INT_MIN).
Proof.
  intros Hwf. revert st. induction fuel as [|fuel IH]; intros st I; simpl.
  - by destruct (prio_queue st).
  - destruct (prio_queue st) as [|top q] eqn:Hq; [done|].
    destruct (visit_top addr top st) as [y st1] eqn:E.
    assert (I1 : inv addr g src st1) by (by eapply visit_top_inv).
    destruct y; [by apply IH| |done].
    intros [= -> ->]. unfold visit_top in E. simpl in E.
    destruct (is_visited (graph st) top.2) eqn:Hv; [done|].
    destruct (inv_queue _ _ _ _ I top.1 top.2) as (Hn & _).
    { rewrite Hq. destruct top. by left. }
    pose proof (relax_edges_visited _ _ _ _ _ _ top.2 E) as Hcurr.
    cbn [graph] in Hcurr.
    rewrite set_visited_visited, decide_True in Hcurr
      by (by rewrite ?(inv_length _ _ _ _ I)).
    apply relax_edges_crash in E as (e & He & -> & Hhd & Hnone).
    exists top.2, e.
    rewrite (inv_edges _ _ _ _ I) in He.
    split; [done|]. split; [done|]. split; [done|]. unfold rem_fault.
    apply get_travel_time_None in Hnone as [[Hp Ht]|(Hp & Ht & Hsub)].
    + left. by rewrite Hp.
    + right. by rewrite Hp.
Qed.

(** X5.  When the search is stopped, either the start index names no
    node, or the search stands at a finalised node with an edge to a node
    not yet finalised whose [%] has no result: a division by zero, the
    edge having period 0 and the time being that of its single departure;
    or [INT_MIN % -1], the edge having period -1 and the time lying
    [INT_MIN] past its first departure in the arithmetic of [int].  A
    search on edges with periods that are not negative is thus stopped, if
    at all, by a bad start index or by the division by zero. *)
Theorem dijkstra_timetable_crash (g : Graph) (s : Z) (f : fault) (st : state) :
  wf_graph g ->
  dijkstra_timetable addr g s = (Crashed f, st) ->
  (f = BadIndex /\ get_node g s = None
   \/ exists u e, e ∈ get_edges g u
        /\ is_visited (graph st) u = true
        /\ is_visited (graph st) (connection_node e) = false
        /\ (f = DivisionByZero /\ departure_time e = 0
            /\ get_value (graph st) u = start_time e
            \/ f = RemOverflow /\ departure_time e = -1
               /\ start_time e <= get_value (graph st) u
               /\ int_sub (get_value (graph st) u) (start_time e) = INT_MIN))
  /\ (Forall (fun e => 0 <= departure_time e) (all_edges g) ->
      f <> RemOverflow).
Proof.
  intros Hwf. unfold dijkstra_timetable.
  destruct (get_node g s) as [src|] eqn:Hs.
  - intros H.
    eapply dijkstra_loop_crash in H as (u & e & He & Hu & Hhd & Hf);
      [|done|by apply initial_inv].
    split; [right; by exists u, e|].
    intros Hper ->. rewrite Forall_forall in Hper.
    pose proof (Hper e (get_edges_all _ _ _ He)).
    destruct Hf as [[? _]|(_ & ? & _)]; [done | lia].
  - intros [= <- <-]. split; [by left | done].
Qed.

End Ending.

(** ** Marks and values along a run *)

Lemma resets_lookup (l : list nat) i n v :
  map (fun n => EvSetValue n INF) l !! i = Some (EvSetValue n v) ->
  l !! i = Some n /\ v = INF.
Proof.
  rewrite list_lookup_fmap. destruct (l !! i); simpl; [|done].
  by intros [= -> ->].
Qed.

Section Marks.

Variable addr : nat -> Z.
Hypothesis addr_inj : forall a b, addr a = addr b -> a = b.

(** X6.  In any run of the search a node is marked visited at most once,
    only nodes of the graph are marked, and the nodes marked are exactly
    those whose flag is set at the end. *)
Theorem dijkstra_timetable_marks_once (g : Graph) (s : Z) :
  wf_graph g ->
  let st := (dijkstra_timetable addr g s).2 in
  NoDup (finalized (trace st))
  /\ (forall n, n ∈ finalized (trace st) <-> is_visited (graph st) n = true)
  /\ (forall n, n ∈ finalized (trace st) -> (n < length (nodes g))%nat)
  /\ (length (finalized (trace st)) <= length (nodes g))%nat.
Proof.
  intros Hwf st.
  destruct (dijkstra_timetable addr g s) as [x st'] eqn:Hrun.
  subst st. simpl.
  pose proof Hrun as Hinv.
  apply dijkstra_timetable_inv in Hinv as [(Hs & _ & Hfin)|(src & Hs & I & _)];
    [| |done..].
  - rewrite Hfin. split; [constructor|]. split; [|split; [|simpl; lia]].
    + intros n. unfold dijkstra_timetable in Hrun. rewrite Hs in Hrun.
      injection Hrun as _ <-. simpl. split; [by intros ?%elem_of_nil|].
      unfold is_visited, graph_reset. simpl. rewrite list_lookup_fmap.
      by destruct (nodes g !! n).
    + by intros n ?%elem_of_nil.
  - split; [apply (inv_nodup _ _ _ _ I)|]. split; [|split].
    + intros n. symmetry. apply (inv_finalized _ _ _ _ I).
    + intros n Hn%(inv_finalized _ _ _ _ I). by eapply visited_in_range.
    + by eapply finalized_length.
Qed.

Section Improve.

Variable g0 : Graph.
Variable src : nat.
Hypothesis wf0 : wf_graph g0.

Lemma improving_relax_edge e curr st x st' :
  inv addr g0 src st ->
  e ∈ get_edges g0 curr ->
  improving (trace st) -> below_written st ->
  relax_edge addr e curr st = (x, st') ->
  improving (trace st') /\ below_written st'.
Proof.
  intros I He Himp Hbel H.
  apply relax_edge_cases in H
    as [(_ & -> & _)|[(_ & -> & _)|[(_ & -> & _)|(_ & Hv & upd & _ & Hlt & ->)]]];
    try done.
  set (nb := connection_node e) in *.
  assert (Hnb : (nb < length (nodes (graph st)))%nat).
  { rewrite (inv_length _ _ _ _ I). by eapply head_in_range. }
  split.
  - intros i j n v w Hij Hi Hj. cbn [trace] in Hi, Hj.
    apply lookup_app_Some in Hj as [Hj|[Hlen Hj]].
    + rewrite lookup_app_l in Hi by (apply lookup_lt_Some in Hj; lia).
      by eapply Himp.
    + apply list_lookup_singleton_Some in Hj as [Hj [= <- <-]].
      rewrite lookup_app_l in Hi by lia.
      pose proof (Hbel _ _ _ Hi). lia.
  - intros j n v Hj. cbn [trace graph] in *.
    rewrite relaxed_value by done.
    apply lookup_app_Some in Hj as [Hj|[Hlen Hj]].
    + pose proof (Hbel _ _ _ Hj). destruct (decide (n = nb)) as [->|]; lia.
    + apply list_lookup_singleton_Some in Hj as [_ [= <- <-]].
      rewrite decide_True by done. lia.
Qed.

Lemma improving_relax_edges es curr st x st' :
  inv addr g0 src st ->
  is_visited (graph st) src = true ->
  is_visited (graph st) curr = true ->
  (forall e, e ∈ es -> e ∈ get_edges g0 curr) ->
  improving (trace st) -> below_written st ->
  relax_edges addr es curr st = (x, st') ->
  improving (trace st') /\ below_written st'.
Proof.
  revert st. induction es as [|e es IH]; simpl;
    intros st I Hsrc Hcurr Hes Himp Hbel.
  - by intros [= <- <-].
  - destruct (relax_edge addr e curr st) as [y st1] eqn:E.
    assert (He : e ∈ get_edges g0 curr) by (apply Hes; by left).
    assert (I1 : inv addr g0 src st1) by (by eapply relax_edge_inv).
    destruct (improving_relax_edge _ _ _ _ _ I He Himp Hbel E) as [Himp1 Hbel1].
    destruct y; [|intros [= <- <-]; done..].
    apply IH; try done.
    + by rewrite (relax_edge_visited _ _ _ _ _ _ _ E).
    + by rewrite (relax_edge_visited _ _ _ _ _ _ _ E).
    + intros e' He'. apply Hes. by right.
Qed.

Lemma improving_visit_top top q st x st' :
  inv addr g0 src st -> prio_queue st = top :: q ->
  improving (trace st) -> below_written st ->
  visit_top addr top st = (x, st') ->
  improving (trace st') /\ below_written st'.
Proof.
  intros I Hq Himp Hbel. destruct top as [k n]. unfold visit_top. simpl.
  destruct (is_visited (graph st) n) eqn:Hv; [by intros [= <- <-]|].
  assert (I2 := inv_visit addr addr_inj g0 src st k n q I Hq Hv).
  destruct (inv_queue _ _ _ _ I k n) as (Hn & _).
  { rewrite Hq. by left. }
  assert (Hn' : (n < length (nodes (graph st)))%nat)
    by (by rewrite (inv_length _ _ _ _ I)).
  intros H. eapply improving_relax_edges in H; [done|exact I2|..];
    cbn [graph prio_queue trace].
  - destruct (inv_src _ _ _ _ I2) as (_ & _ & [Hs|[_ Hall]]); [done|].
    cbn [graph] in Hall. specialize (Hall n).
    rewrite set_visited_visited, decide_True in Hall; done.
  - rewrite set_visited_visited, decide_True; done.
  - intros e. by rewrite (inv_edges _ _ _ _ I).
  - intros i j m v w Hij Hi Hj.
    apply lookup_app_Some in Hj as [Hj|[_ Hj]].
    2:{ by apply list_lookup_singleton_Some in Hj as [_ ?]. }
    rewrite lookup_app_l in Hi by (apply lookup_lt_Some in Hj; lia).
    by eapply Himp.
  - intros j m v Hj. cbn [trace graph] in *. rewrite set_visited_value.
    apply lookup_app_Some in Hj as [Hj|[_ Hj]]; [by eapply Hbel|].
    by apply list_lookup_singleton_Some in Hj as [_ ?].
Qed.

Lemma improving_loop fuel st x st' :
  inv addr g0 src st ->
  improving (trace st) -> below_written st ->
  dijkstra_loop addr fuel st = (x, st') ->
  improving (trace st').
Proof.
  revert st. induction fuel as [|fuel IH]; intros st I Himp Hbel; simpl.
  - destruct (prio_queue st); by intros [= <- <-].
  - destruct (prio_queue st) as [|top q] eqn:Hq; [by intros [= <- <-]|].
    destruct (visit_top addr top st) as [y st1] eqn:E.
    assert (I1 : inv addr g0 src st1) by (by eapply visit_top_inv).
    destruct (improving_visit_top _ _ _ _ _ I Hq Himp Hbel E) as [Himp1 Hbel1].
    destruct y; [by apply IH | intros [= <- <-]; done..].
Qed.

End Improve.

Lemma improving_resets n :
  improving (map (fun n => EvSetValue n INF) (seq 0 n)).
Proof.
  intros i j m v w Hij Hi%resets_lookup Hj%resets_lookup.
  destruct Hi as [Hi _], Hj as [Hj _].
  apply lookup_seq in Hi as [Hi _]. apply lookup_seq in Hj as [Hj _].
  lia.
Qed.

(** X7.  In any run of the search, every [set_value] on a node writes a
    value strictly below every value written to that node earlier in the
    run: a node's value only improves. *)
Theorem dijkstra_timetable_improves (g : Graph) (s : Z) :
  wf_graph g ->
  improving (trace (dijkstra_timetable addr g s).2).
Proof.
  intros Hwf. unfold dijkstra_timetable.
  destruct (get_node g s) as [src|] eqn:Hs; [|apply improving_resets].
  destruct (dijkstra_loop addr (S (edge_count g))
              (initial_state addr g s src)) as [x st'] eqn:Hrun.
  pose proof Hs as Hs'. apply get_node_Some in Hs' as (_ & _ & Hlt).
  eapply (improving_loop g src Hwf); [by apply initial_inv| | |exact Hrun].
  - unfold initial_state. cbn [trace]. intros i j n v w Hij Hi Hj.
    apply lookup_app_Some in Hj as [Hj|[Hlen Hj]].
    + rewrite lookup_app_l in Hi by (apply lookup_lt_Some in Hj; lia).
      by eapply (improving_resets (length (nodes g))).
    + apply list_lookup_singleton_Some in Hj as [Hj' [= <- <-]].
      rewrite lookup_app_l in Hi by lia.
      apply resets_lookup in Hi as [_ ->]. unfold INF, INT_MAX. lia.
  - unfold below_written, initial_state. cbn [trace graph].
    fold (started s src g). intros j n v Hj.
    apply lookup_app_Some in Hj as [Hj|[_ Hj]].
    + apply resets_lookup in Hj as [Hj ->].
      apply lookup_seq in Hj as [-> Hn]. simpl.
      rewrite started_value by done.
      destruct (decide (j = src)); unfold INF, INT_MAX; lia.
    + apply list_lookup_singleton_Some in Hj as [_ [= <- <-]].
      rewrite started_value, decide_True by done. lia.
Qed.

End Marks.

(** ** The departure an edge offers *)

Lemma spec_wait_departure e t :
  nonneg_edge e -> departure_time e <> 0 \/ t <= start_time e ->
  is_departure e (t + spec_wait e t)
  /\ forall d, is_departure e d -> t <= d -> t + spec_wait e t <= d.
Proof.
  intros (Hs & Hp & Hd) Hok. unfold spec_wait, is_departure.
  destruct (Z.leb_spec t (start_time e)) as [Hle|Hgt].
  - split.
    + exists 0. lia.
    + intros d (k & Hk & ->) _. nia.
  - assert (Hp' : 0 < departure_time e) by lia.
    set (p := departure_time e) in *. set (a := t - start_time e).
    assert (Ha : 0 < a) by (unfold a; lia).
    pose proof (Z.mod_pos_bound a p Hp') as Hm.
    pose proof (Z.div_mod a p ltac:(lia)) as Ea.
    assert (Hq : 0 <= a / p) by (apply Z.div_pos; lia).
    destruct (Z.eqb_spec (a mod p) 0) as [E0|E0].
    + split.
      * exists (a / p). split; [done|]. unfold a in *. lia.
      * intros d _ Htd. lia.
    + split.
      * exists (a / p + 1). split; [lia|]. unfold a in *. lia.
      * intros d (k & Hk & ->) Htd.
        assert (a <= k * p) by (unfold a; lia).
        assert (a / p < k) by nia.
        assert (p * (a / p) + p <= k * p) by nia.
        unfold a in *. lia.
Qed.

(** X8.  For an edge of non-negative [int] members and a time that is a
    non-negative [int], the three cases of [get_travel_time].  Where the
    period is not 0 or the time is before the first departure, the wait
    computed leads to the earliest departure of the edge that is not before
    [current_time] (the first departure, or a whole number of periods after
    it), and the result is time, wait and traversal added as [int]s.  With
    period 0 past the single departure the sentinel is returned, and no
    departure is left.  With period 0 at the very time of the single
    departure the code computes no wait and returns nothing, although that
    departure is there to take. *)
Theorem wait_time_earliest_departure (e : Edge) (current_time : Z) :
  nonneg_edge e -> int_edge e -> 0 <= current_time <= INT_MAX ->
  (departure_time e <> 0 \/ current_time < start_time e ->
   exists w, wait_time e current_time = Some w /\ 0 <= w
     /\ get_travel_time e current_time
        = Some (wrap (current_time + w + traverse_time e))
     /\ is_departure e (current_time + w)
     /\ forall d, is_departure e d -> current_time <= d ->
                  current_time + w <= d)
  /\ (departure_time e = 0 -> current_time > start_time e ->
      get_travel_time e current_time = Some INF
      /\ forall d, is_departure e d -> d < current_time)
  /\ (departure_time e = 0 -> current_time = start_time e ->
      wait_time e current_time = None
      /\ get_travel_time e current_time = None
      /\ is_departure e current_time).
Proof.
  intros Hnn Hint Ht. split; [|split].
  - intros Hok. exists (spec_wait e current_time).
    assert (Hok' : departure_time e <> 0 \/ current_time <= start_time e)
      by lia.
    split; [by apply wait_time_spec|].
    split; [by apply spec_wait_nonneg|].
    split; [|by apply spec_wait_departure].
    rewrite get_travel_time_wrapped by (done || lia).
    unfold spec_travel_time.
    destruct (schedule e current_time) as [c|] eqn:Hsch.
    + apply schedule_Some in Hsch as [_ ->]. do 2 f_equal. lia.
    + apply schedule_None in Hsch. lia.
  - intros Hp Hgt. split.
    + unfold get_travel_time.
      destruct (Z.gtb_spec current_time (start_time e)); [|lia].
      by rewrite Hp.
    + intros d (k & Hk & ->). rewrite Hp. lia.
  - intros Hp Heq. split; [|split].
    + unfold wait_time. rewrite Hp, Heq, Z.ltb_irrefl. done.
    + by apply get_travel_time_boundary.
    + exists 0. split; [done | lia].
Qed.

(** X9.  Entering an edge later never brings one to its head earlier: for
    two calls of [get_travel_time] on the same edge that both return, the
    later one returning within [int] without overflow, the results are in
    the order of the times. *)
Theorem get_travel_time_fifo (e : Edge) (t1 t2 v1 v2 : Z) :
  nonneg_edge e -> int_edge e ->
  0 <= t1 -> t1 <= t2 -> t2 <= INT_MAX ->
  spec_travel_time e t2 <= INT_MAX ->
  get_travel_time e t1 = Some v1 ->
  get_travel_time e t2 = Some v2 ->
  v1 <= v2.
Proof.
  intros Hnn Hint H0 H12 H2 Hfit Hv1 Hv2.
  assert (Hb1 : ~ (departure_time e = 0 /\ t1 = start_time e)).
  { intros [Hp0 Hts]. pose proof (get_travel_time_boundary _ _ Hp0 Hts).
    congruence. }
  assert (Hb2 : ~ (departure_time e = 0 /\ t2 = start_time e)).
  { intros [Hp0 Hts]. pose proof (get_travel_time_boundary _ _ Hp0 Hts).
    congruence. }
  rewrite get_travel_time_schedule in Hv2 by (done || lia).
  injection Hv2 as <-.
  rewrite get_travel_time_wrapped in Hv1 by (done || lia).
  injection Hv1 as <-.
  unfold spec_travel_time in *.
  destruct (schedule e t2) as [c2|] eqn:Hs2.
  - destruct (schedule_mono e t1 t2 c2 Hnn H12 Hs2) as (c1 & Hs1 & Hc).
    rewrite Hs1. apply schedule_bounds in Hs1; [|done..].
    rewrite wrap_small; [done|]. unfold in_int, INT_MIN, INT_MAX in *. lia.
  - pose proof (wrap_range match schedule e t1 with
                           | Some t => t | None => INF end) as Hr.
    unfold in_int, INF in *. lia.
Qed.

(** ** The path [get_path] returns *)

Section Paths.

Variable addr : nat -> Z.
Hypothesis addr_inj : forall a b, addr a = addr b -> a = b.

Lemma get_path_backward g src st target_index target :
  inv addr g src st ->
  Z.of_nat (length (nodes g)) <= INT_MAX ->
  get_node g target_index = Some target ->
  is_visited (graph st) target = true ->
  exists ch, get_path (graph st) target_index = (Returned, rev ch)
    /\ backward (graph st) target ch
    /\ Forall (fun m => is_visited (graph st) m = true) ch.
Proof.
  intros I HN Ht Hv.
  pose proof (inv_length _ _ _ _ I) as Hlen.
  pose proof Ht as Ht'. apply get_node_Some in Ht' as (H0 & -> & Hlt).
  pose proof Hv as Hfin.
  apply (inv_finalized _ _ _ _ I), list_elem_of_lookup in Hfin as [i Hi].
  pose proof (lookup_lt_Some _ _ _ Hi) as Hi_lt.
  pose proof (finalized_length _ _ _ _ I) as Hfl.
  destruct (follow_prev_backward addr g src st I i _ Hi
              (length (nodes g)) [Z.to_nat target_index])
    as (rest & Hf & Hb & Hall); [lia|].
  exists (Z.to_nat target_index :: rest). split; [|done].
  unfold get_path. rewrite Hlen, to_size_t_small by lia.
  destruct (Z.geb_spec target_index (Z.of_nat (length (nodes g)))); [lia|].
  rewrite (get_node_ext g) by done. rewrite Ht.
  rewrite (inv_start _ _ _ _ I), Hv, Hf. done.
Qed.

Lemma backward_nodup g src st a ch :
  inv addr g src st -> backward (graph st) a ch ->
  forall i, finalized (trace st) !! i = Some a ->
  NoDup ch
  /\ forall m, m ∈ ch ->
       exists j, (j <= i)%nat /\ finalized (trace st) !! j = Some m.
Proof.
  intros I. induction 1 as [a Ha|a b ch Hab Hch IH]; intros i Hi.
  - split; [apply NoDup_singleton|].
    intros m ->%list_elem_of_singleton. exists i. split; [lia|done].
  - destruct (inv_prev _ _ _ _ I a b Hab) as (_ & _ & _ & _ & Hbef & _).
    destruct Hbef as (i' & Hi' & Hlt). specialize (Hlt i Hi).
    destruct (IH i' Hi') as [Hnd Hidx]. split.
    + apply NoDup_cons. split; [|done]. intros Hin.
      destruct (Hidx a Hin) as (j & Hj & Hja).
      pose proof (NoDup_lookup _ _ _ _ (inv_nodup _ _ _ _ I) Hi Hja). lia.
    + intros m [->|Hm]%elem_of_cons.
      * exists i. split; [lia|done].
      * destruct (Hidx m Hm) as (j & Hj & Hjm). exists j. split; [lia|done].
Qed.

(** X10.  After a search, the path [get_path] returns for a visited node
    passes through no node twice, passes only through visited nodes, and
    is no longer than the graph has nodes. *)
Theorem get_path_simple (g : Graph) (s : Z) (x : exit) (st : state)
    (target_index : Z) (target : nat) :
  wf_graph g ->
  Z.of_nat (length (nodes g)) <= INT_MAX ->
  dijkstra_timetable addr g s = (x, st) ->
  get_node g target_index = Some target ->
  is_visited (graph st) target = true ->
  exists p, get_path (graph st) target_index = (Returned, p)
    /\ NoDup p
    /\ (forall n, n ∈ p -> is_visited (graph st) n = true)
    /\ (0 < length p <= length (nodes g))%nat.
Proof.
  intros Hwf HN Hrun Ht Hv.
  pose proof Hrun as Hrun'.
  apply dijkstra_timetable_inv in Hrun' as [(Hnone & _)|(src & Hs & I & _)];
    [| |done..].
  { exfalso. unfold dijkstra_timetable in Hrun.
    destruct (get_node g s); [done|]. injection Hrun as _ <-.
    revert Hv. unfold is_visited, graph_reset. simpl.
    rewrite list_lookup_fmap. by destruct (nodes g !! target). }
  destruct (get_path_backward g src st target_index target I HN Ht Hv)
    as (ch & Hp & Hb & Hall).
  pose proof Hv as Hfin.
  apply (inv_finalized _ _ _ _ I), list_elem_of_lookup in Hfin as [i Hi].
  destruct (backward_nodup g src st target ch I Hb i Hi) as [Hnd _].
  exists (rev ch). split; [done|]. split.
  { by apply NoDup_ListNoDup, NoDup_rev, NoDup_ListNoDup. }
  rewrite Forall_forall in Hall. split.
  - intros n Hn. apply list_elem_of_In in Hn. apply in_rev in Hn.
    apply list_elem_of_In in Hn. by apply Hall.
  - rewrite length_rev. split.
    + destruct Hb; simpl; lia.
    + rewrite <- (length_seq (length (nodes g)) 0) at 1.
      apply submseteq_length, NoDup_submseteq; [done|].
      intros n Hn. apply elem_of_seq.
      pose proof (visited_in_range _ _ _ _ _ I (Hall n Hn)). lia.
Qed.

End Paths.

Section PathCosts.

Variable addr : nat -> Z.
Hypothesis addr_inj : forall a b, addr a = addr b -> a = b.

Lemma backward_path g src hi st a ch :
  wf_graph g -> nonneg_graph g -> no_overflow g ->
  inv addr g src st -> invB g src hi st ->
  backward (graph st) a ch ->
  Forall (fun m => is_visited (graph st) m = true) ch ->
  exists r es, get_prev_node (graph st) r = None
    /\ is_visited (graph st) r = true
    /\ path g r es a
    /\ path_cost es (get_value (graph st) r) = Some (get_value (graph st) a)
    /\ rev ch = r :: map connection_node es.
Proof.
  intros Hwf Hnn Hbound I B.
  induction 1 as [a Ha|a b ch Hab Hch IH]; intros Hall.
  - apply Forall_cons in Hall as [Hv _].
    exists a, []. split; [done|]. split; [done|]. split; [|done].
    apply path_nil. by eapply visited_in_range.
  - apply Forall_cons in Hall as [Hv Hall].
    destruct (IH Hall) as (r & es & Hr & Hrv & Hp & Hc & Hrev).
    destruct (inv_prev _ _ _ _ I a b Hab)
      as (Hbv & _ & _ & Hlt & _ & e & He & Hhead & Hgt).
    exists r, (es ++ [e]). split; [done|]. split; [done|].
    assert (Hs : schedule e (get_value (graph st) b)
                 = Some (get_value (graph st) a)).
    { eapply relax_time in Hgt as [[_ Hinf]|[Hs _]]; try done. lia. }
    split; [|split].
    + rewrite <- Hhead. by apply (path_snoc g r es b e).
    + by rewrite path_cost_snoc, Hc.
    + simpl. rewrite Hrev, map_app. simpl. by rewrite Hhead.
Qed.

(** X11.  After a search that returns on a graph of non-negative edges
    whose arrival times cannot overflow, the path [get_path] returns for a
    node whose value is not the sentinel is an earliest-arrival path: it
    starts at the start node, follows edges of the graph to the target, its
    cost under the timetable is the target's value, and no path from the
    start node to the target arrives earlier. *)
Theorem get_path_earliest (g : Graph) (s : Z) (st : state) (src : nat)
    (target_index : Z) (target : nat) :
  wf_graph g -> nonneg_graph g -> no_overflow g ->
  Z.of_nat (length (nodes g)) <= INT_MAX ->
  dijkstra_timetable addr g s = (Returned, st) ->
  get_node g s = Some src ->
  get_node g target_index = Some target ->
  get_value (graph st) target <> INF ->
  exists es,
    get_path (graph st) target_index
    = (Returned, src :: map connection_node es)
    /\ path g src es target
    /\ path_cost es 0 = Some (get_value (graph st) target)
    /\ forall es' c, path g src es' target -> path_cost es' 0 = Some c ->
                     get_value (graph st) target <= c.
Proof.
  intros Hwf Hnn Hbound HN Hrun Hs Ht Hval.
  destruct (dijkstra_timetable_invB addr addr_inj g src Hwf Hnn Hbound
              s _ _ Hrun Hs) as (I & Hq & hi & B & _).
  specialize (Hq eq_refl).
  pose proof Ht as Ht'. apply get_node_Some in Ht' as (_ & -> & Hlt).
  set (target := Z.to_nat target_index) in *.
  assert (Hv : is_visited (graph st) target = true).
  { destruct (is_visited (graph st) target) eqn:Hv; [done|].
    pose proof (inv_pending _ _ _ _ I target Hlt Hv Hval) as Hin.
    rewrite Hq in Hin. by apply elem_of_nil in Hin. }
  destruct (get_path_backward addr g src st target_index target I HN Ht Hv)
    as (ch & Hp & Hb & Hall).
  destruct (backward_path g src hi st target ch Hwf Hnn Hbound I B Hb Hall)
    as (r & es & Hr & Hrv & Hpath & Hcost & Hrev).
  assert (r = src) as ->.
  { destruct (decide (r = src)) as [|Hne]; [done|]. exfalso.
    pose proof (visited_in_range _ _ _ _ _ I Hrv) as Hrl.
    pose proof (inv_noprev _ _ _ _ I r Hrl Hne Hr).
    pose proof (inv_visited_lt _ _ _ _ I r Hrv). lia. }
  destruct (inv_src _ _ _ _ I) as (H0 & _).
  rewrite H0 in Hcost.
  exists es. split; [by rewrite Hp, Hrev|]. split; [done|]. split; [done|].
  destruct (dijkstra_timetable_values addr addr_inj g s st Hwf Hnn Hbound Hrun)
    as (src' & Hs' & _ & _ & Hea).
  assert (src' = src) as -> by congruence.
  destruct (Hea target Hlt) as [[Hinf _]|(_ & _ & Hmin)]; [done|].
  exact Hmin.
Qed.

End PathCosts.

(** ** Building the graph *)

Lemma get_edges_add_edge n e g u :
  (n < length (nodes g))%nat ->
  get_edges (add_edge n e g) u
  = if decide (u = n) then get_edges g u ++ [e] else get_edges g u.
Proof.
  intros Hn. unfold get_edges, add_edge. simpl.
  destruct (decide (u = n)) as [->|Hne].
  - rewrite list_lookup_alter_eq.
    destruct (lookup_lt_is_Some_2 (nodes g) n Hn) as [nd ->]. done.
  - by rewrite list_lookup_alter_ne.
Qed.

Lemma add_edge_fields n e g u :
  get_value (add_edge n e g) u = get_value g u
  /\ is_visited (add_edge n e g) u = is_visited g u
  /\ get_prev_node (add_edge n e g) u = get_prev_node g u.
Proof.
  unfold get_value, is_visited, get_prev_node, add_edge. simpl.
  destruct (decide (u = n)) as [->|Hne].
  - rewrite list_lookup_alter_eq. by destruct (nodes g !! n).
  - by rewrite list_lookup_alter_ne.
Qed.

Lemma add_edges_spec lines : forall g g',
  add_edges lines g = Some g' ->
  length (nodes g') = length (nodes g)
  /\ start_index g' = start_index g
  /\ (wf_graph g -> wf_graph g')
  /\ forall u,
       get_edges g' u
       = get_edges g u
         ++ map line_edge
              (filter (fun l => line_tail l = Z.of_nat u) lines)
       /\ get_value g' u = get_value g u
       /\ is_visited g' u = is_visited g u
       /\ get_prev_node g' u = get_prev_node g u.
Proof.
  induction lines as [|[[[[n1 n2] st] dp] tr] lines IH]; intros g g'; simpl.
  - intros [= <-]. repeat split; try done. by rewrite app_nil_r.
  - destruct (add_one_way_edge n1 n2 st dp tr g) as [g1|] eqn:H1; [|done].
    intros Hrest. destruct (IH g1 g' Hrest) as (Hlen & Hst & Hwf & Hn).
    pose proof H1 as H1'. unfold add_one_way_edge in H1'.
    destruct (get_node g n1) as [a|] eqn:Ha; [|done].
    destruct (get_node g n2) as [b|] eqn:Hb; [|done].
    injection H1' as <-.
    apply get_node_Some in Ha as (Ha0 & -> & Halt).
    apply get_node_Some in Hb as (Hb0 & -> & Hblt).
    split; [|split; [|split]].
    + rewrite Hlen. unfold add_edge. simpl. by rewrite length_alter.
    + by rewrite Hst.
    + intros Hg. apply Hwf. by eapply add_one_way_edge_wf.
    + intros u. destruct (Hn u) as (He & Hv & Hvis & Hp).
      destruct (add_edge_fields (Z.to_nat n1)
                  (mkEdge (Z.to_nat n2) tr st dp) g u) as (Hv1 & Hvis1 & Hp1).
      rewrite He, Hv, Hvis, Hp, Hv1, Hvis1, Hp1.
      split; [|done]. rewrite get_edges_add_edge by done.
      rewrite filter_cons.
      change (line_tail (n1, n2, st, dp, tr)) with n1.
      destruct (decide (u = Z.to_nat n1)) as [Hu|Hne];
        destruct (decide (n1 = Z.of_nat u)) as [Hu'|Hne']; try lia.
      * simpl. by rewrite <- app_assoc.
      * done.
Qed.

Lemma add_edges_is_Some lines : forall g,
  is_Some (add_edges lines g)
  <-> Forall (fun l => 0 <= line_tail l < Z.of_nat (length (nodes g))
                       /\ 0 <= line_head l < Z.of_nat (length (nodes g)))
             lines.
Proof.
  induction lines as [|[[[[n1 n2] st] dp] tr] lines IH]; intros g; simpl.
  - split; [constructor | by eexists].
  - rewrite Forall_cons.
    change (line_tail (n1, n2, st, dp, tr)) with n1.
    change (line_head (n1, n2, st, dp, tr)) with n2.
    unfold add_one_way_edge.
    destruct (get_node g n1) as [a|] eqn:Ha.
    2:{ apply get_node_None in Ha. split; [by intros [? ?] | lia]. }
    destruct (get_node g n2) as [b|] eqn:Hb.
    2:{ apply get_node_None in Hb. split; [by intros [? ?] | lia]. }
    apply get_node_Some in Ha as (Ha0 & -> & Halt).
    apply get_node_Some in Hb as (Hb0 & -> & Hblt).
    rewrite IH. unfold add_edge. simpl. rewrite length_alter.
    split; [intros H; split; [lia | done] | by intros [_ H]].
Qed.

(** X12.  The edge loop of [main] on a new graph of [num_nodes] nodes ends
    without a fault exactly when every line names two nodes of the graph.
    The graph it builds has [num_nodes] nodes, each with the initial value,
    unvisited and without predecessor; the edges of a node are the lines
    that leave it, in input order; and every edge points into the graph. *)
Theorem add_edges_builds (num_nodes init_value start : Z)
    (lines : list edge_line) :
  (is_Some (add_edges lines (new_Graph num_nodes init_value start))
   <-> Forall (fun l => 0 <= line_tail l < num_nodes
                        /\ 0 <= line_head l < num_nodes) lines)
  /\ forall g,
       add_edges lines (new_Graph num_nodes init_value start) = Some g ->
       length (nodes g) = Z.to_nat num_nodes
       /\ start_index g = start
       /\ wf_graph g
       /\ forall u, (u < Z.to_nat num_nodes)%nat ->
            get_edges g u
            = map line_edge
                (filter (fun l => line_tail l = Z.of_nat u) lines)
            /\ get_value g u = init_value
            /\ is_visited g u = false
            /\ get_prev_node g u = None.
Proof.
  split.
  - rewrite add_edges_is_Some. unfold new_Graph. simpl.
    rewrite length_replicate. apply Forall_iff. intros l. lia.
  - intros g Hg.
    destruct (add_edges_spec _ _ _ Hg) as (Hlen & Hst & Hwf & Hn).
    unfold new_Graph in Hlen, Hst, Hn. simpl in Hlen, Hst.
    rewrite length_replicate in Hlen.
    split; [done|]. split; [done|].
    split; [apply Hwf, new_Graph_wf|].
    intros u Hu. destruct (Hn u) as (He & Hv & Hvis & Hp).
    rewrite He, Hv, Hvis, Hp.
    unfold get_edges, get_value, is_visited, get_prev_node. simpl.
    by rewrite lookup_replicate_2.
Qed.

(** ** One test case, end to end *)

Lemma print_queries_exit g queries : forall out x out',
  print_queries g queries out = (x, out') ->
  (x = Returned
   /\ Forall (fun q => 0 <= q < Z.of_nat (length (nodes g))) queries)
  \/ (x = Crashed BadIndex
      /\ ~ Forall (fun q => 0 <= q < Z.of_nat (length (nodes g))) queries).
Proof.
  induction queries as [|q queries IH]; intros out x out'; simpl.
  - intros [= <- <-]. left. split; [done | constructor].
  - destruct (get_node g q) as [n|] eqn:Hn.
    + apply get_node_Some in Hn as (H0 & -> & Hlt).
      intros [[-> H]|[-> H]]%IH; [left | right]; split; try done.
      * constructor; [lia | done].
      * intros H'. apply H. by inversion H'.
    + apply get_node_None in Hn. intros [= <- <-]. right. split; [done|].
      intros H'. inversion H'; subst. lia.
Qed.

Section TestCase.

Variable addr : nat -> Z.
Hypothesis addr_inj : forall a b, addr a = addr b -> a = b.

(** X13.  One test case of [main], for edge lines that name nodes of the
    graph and build a graph of non-negative edges whose arrival times
    cannot overflow, a search that is not stopped, and queries that name
    nodes: the program prints one line per query, in query order;
    [Impossible] when no usable path leads from the start node to the
    queried node, and otherwise the least arrival time over all paths from
    the start node to it, in decimal. *)
Theorem test_case_output (num_nodes start : Z) (lines : list edge_line)
    (queries : list Z) (g : Graph) :
  add_edges lines (new_Graph num_nodes INF start) = Some g ->
  nonneg_graph g -> no_overflow g ->
  (dijkstra_timetable addr g start).1 = Returned ->
  Forall (fun q => 0 <= q < num_nodes) queries ->
  exists src out,
    get_node g start = Some src
    /\ test_case addr num_nodes start lines queries = (Returned, out)
    /\ length out = length queries
    /\ forall i q, queries !! i = Some q ->
         exists line, out !! i = Some line
           /\ ((line = "Impossible"%string
                /\ forall p, path g src p (Z.to_nat q) ->
                             path_cost p 0 = None)
               \/ exists c p, line = pretty c /\ 0 <= c < INF
                    /\ path g src p (Z.to_nat q) /\ path_cost p 0 = Some c
                    /\ forall p' c', path g src p' (Z.to_nat q) ->
                         path_cost p' 0 = Some c' -> c <= c').
Proof.
  intros Hb Hnn Hov Hret Hq.
  destruct (add_edges_spec _ _ _ Hb) as (Hlen & _ & Hwf & _).
  specialize (Hwf (new_Graph_wf _ _ _)).
  unfold new_Graph in Hlen. simpl in Hlen. rewrite length_replicate in Hlen.
  destruct (dijkstra_timetable addr g start) as [x st] eqn:Hrun.
  simpl in Hret. subst x.
  destruct (dijkstra_timetable_values addr addr_inj g start st Hwf Hnn Hov Hrun)
    as (src & Hs & Hlen' & Hrange & Hea).
  exists src, (map (fun q => query_line (graph st) (Z.to_nat q)) queries).
  split; [done|]. split; [|split].
  - unfold test_case. rewrite Hb, Hrun. rewrite print_queries_app; [done|].
    rewrite Hlen', Hlen. eapply Forall_impl; [exact Hq|]. simpl. lia.
  - by rewrite length_map.
  - intros i q Hi. rewrite list_lookup_fmap, Hi. simpl.
    eexists. split; [done|].
    rewrite Forall_forall in Hq.
    assert (Hqr : 0 <= q < num_nodes).
    { apply Hq. by eapply list_elem_of_lookup_2. }
    assert (Hlt : (Z.to_nat q < length (nodes g))%nat) by lia.
    unfold query_line.
    destruct (Hea _ Hlt) as [[Hinf Hnone]|(Hlt' & (p & Hp & Hc) & Hmin)].
    + left. rewrite Hinf. by rewrite Z.eqb_refl.
    + right. destruct (Z.eqb_spec (get_value (graph st) (Z.to_nat q)) INF);
        [lia|].
      exists (get_value (graph st) (Z.to_nat q)), p.
      split; [done|]. split; [|done].
      split; [apply Hrange | done].
Qed.

(** X14.  One test case of [main] never runs out of rounds.  It is stopped
    for a bad index only when an edge line, the start index or a query
    names no node of the graph; and it is stopped by a division by zero
    only when some edge line has period 0, and then before any line of
    output. *)
Theorem test_case_faults (num_nodes start : Z) (lines : list edge_line)
    (queries : list Z) :
  let run := test_case addr num_nodes start lines queries in
  run.1 <> OutOfFuel
  /\ (run.1 = Crashed BadIndex ->
      ~ (Forall (fun l => 0 <= line_tail l < num_nodes
                          /\ 0 <= line_head l < num_nodes) lines
         /\ 0 <= start < num_nodes
         /\ Forall (fun q => 0 <= q < num_nodes) queries))
  /\ (run.1 = Crashed DivisionByZero ->
      run.2 = []
      /\ exists l, l ∈ lines /\ departure_time (line_edge l) = 0).
Proof.
  intros run. unfold run, test_case.
  destruct (add_edges lines (new_Graph num_nodes INF start)) as [g|] eqn:Hb.
  2:{ simpl. split; [done|]. split; [|done]. intros _ (Hl & _).
      assert (Hs : is_Some (add_edges lines (new_Graph num_nodes INF start))).
      { apply add_edges_is_Some. unfold new_Graph. simpl.
        rewrite length_replicate. eapply Forall_impl; [exact Hl|].
        simpl. lia. }
      rewrite Hb in Hs. by destruct Hs. }
  destruct (add_edges_spec _ _ _ Hb) as (Hlen & _ & Hwf & Hn).
  specialize (Hwf (new_Graph_wf _ _ _)).
  unfold new_Graph in Hlen. simpl in Hlen. rewrite length_replicate in Hlen.
  pose proof (dijkstra_timetable_fuel addr g start) as Hfuel.
  destruct (dijkstra_timetable addr g start) as [x st] eqn:Hrun.
  simpl in Hfuel. destruct x as [|f|]; [| |done].
  - destruct (print_queries (graph st) queries []) as [y out] eqn:Hp.
    simpl. destruct (dijkstra_timetable_topology addr g start) as (Hl & _).
    apply (f_equal length) in Hl. rewrite !length_map, Hrun in Hl.
    simpl in Hl.
    apply print_queries_exit in Hp as [[-> _]|[-> Hbad]].
    + done.
    + split; [done|]. split; [|done]. intros _ (_ & _ & Hq).
      apply Hbad. eapply Forall_impl; [exact Hq|]. simpl. lia.
  - simpl. split; [done|].
    unfold dijkstra_timetable in Hrun.
    destruct (get_node g start) as [src|] eqn:Hs.
    + pose proof (initial_inv addr g src start Hs) as I0.
      eapply dijkstra_loop_crash in Hrun
        as (u & e & He & _ & _ & Hf); try done.
      split.
      { intros [= ->]. by destruct Hf as [[? _]|[? _]]. }
      intros [= ->]. split; [done|].
      destruct Hf as [(_ & Hper & _)|[? _]]; [|done].
      destruct (Hn u) as (Hedges & _). rewrite Hedges in He.
      apply elem_of_app in He as [He|He].
      { unfold new_Graph, get_edges in He. simpl in He.
        destruct (replicate (Z.to_nat num_nodes) _ !! u) as [nd|] eqn:Hnd;
          [|by apply elem_of_nil in He].
        apply lookup_replicate in Hnd as [-> _]. by apply elem_of_nil in He. }
      apply list_elem_of_fmap in He as (l & -> & Hl%list_elem_of_filter).
      exists l. split; [apply Hl | done].
    + injection Hrun as <- <-. split; [|done]. intros _ (_ & Hs' & _).
      apply get_node_None in Hs. lia.
Qed.

End TestCase.

(** ** The constant-weight search on its own *)

Lemma clear_get_value g n :
  Plain.get_value (clear_no_good g) n = Plain.get_value g n.
Proof.
  unfold Plain.get_value, clear_no_good. simpl.
  rewrite list_lookup_fmap. by destruct (Plain.nodes g !! n).
Qed.

Lemma clear_is_visited g n :
  Plain.is_visited (clear_no_good g) n = Plain.is_visited g n.
Proof.
  unfold Plain.is_visited, clear_no_good. simpl.
  rewrite list_lookup_fmap. by destruct (Plain.nodes g !! n).
Qed.

Lemma clear_get_edges g n :
  Plain.get_edges (clear_no_good g) n = Plain.get_edges g n.
Proof.
  unfold Plain.get_edges, clear_no_good. simpl.
  rewrite list_lookup_fmap. by destruct (Plain.nodes g !! n).
Qed.

Lemma clear_get_node g i :
  Plain.get_node (clear_no_good g) i = Plain.get_node g i.
Proof.
  unfold Plain.get_node, clear_no_good. simpl. by rewrite length_map.
Qed.

Lemma clear_set_value n v g :
  clear_no_good (Plain.set_value n v g)
  = Plain.set_value n v (clear_no_good g).
Proof.
  unfold clear_no_good, Plain.set_value. simpl. f_equal.
  apply list_fmap_alter. by apply Forall_forall.
Qed.

Lemma clear_set_visited n b g :
  clear_no_good (Plain.set_visited n b g)
  = Plain.set_visited n b (clear_no_good g).
Proof.
  unfold clear_no_good, Plain.set_visited. simpl. f_equal.
  apply list_fmap_alter. by apply Forall_forall.
Qed.

Lemma clear_set_prev_node n p g :
  clear_no_good (Plain.set_prev_node n p g)
  = Plain.set_prev_node n p (clear_no_good g).
Proof.
  unfold clear_no_good, Plain.set_prev_node. simpl. f_equal.
  apply list_fmap_alter. by apply Forall_forall.
Qed.

Lemma clear_graph_reset s v g :
  clear_no_good (Plain.graph_reset s v g)
  = Plain.graph_reset s v (clear_no_good g).
Proof.
  unfold clear_no_good, Plain.graph_reset. simpl. f_equal.
  rewrite !map_map. by apply map_ext.
Qed.

Lemma clear_edge_count g :
  Plain.edge_count (clear_no_good g) = Plain.edge_count g.
Proof.
  unfold Plain.edge_count, clear_no_good. simpl. by rewrite map_map.
Qed.

Section PlainSearch.

Variable addr : nat -> Z.

Lemma clear_relax_edge e curr st :
  Plain.relax_edge addr e curr (clear_state st)
  = clear_state (Plain.relax_edge addr e curr st).
Proof.
  unfold Plain.relax_edge, clear_state. simpl.
  rewrite clear_is_visited, !clear_get_value.
  destruct (Plain.is_visited (Plain.graph st) (Plain.connection_node e));
    [done|].
  destruct (_ <? _); [|done]. simpl.
  by rewrite clear_set_prev_node, clear_set_value.
Qed.

Lemma clear_relax_edges es curr st :
  Plain.relax_edges addr es curr (clear_state st)
  = clear_state (Plain.relax_edges addr es curr st).
Proof.
  revert st. induction es as [|e es IH]; intros st; simpl; [done|].
  by rewrite clear_relax_edge, IH.
Qed.

Lemma clear_visit_top top st :
  Plain.visit_top addr top (clear_state st)
  = clear_state (Plain.visit_top addr top st).
Proof.
  unfold Plain.visit_top. simpl.
  rewrite clear_is_visited, clear_get_edges.
  destruct (Plain.is_visited (Plain.graph st) top.2); [done|].
  rewrite <- clear_relax_edges. unfold clear_state. simpl.
  by rewrite clear_set_visited.
Qed.

Lemma clear_dijkstra_loop fuel st :
  Plain.dijkstra_loop addr fuel (clear_state st)
  = ((Plain.dijkstra_loop addr fuel st).1,
     clear_state (Plain.dijkstra_loop addr fuel st).2).
Proof.
  revert st. induction fuel as [|fuel IH]; intros st; simpl.
  - by destruct (Plain.prio_queue st).
  - destruct (Plain.prio_queue st) as [|top q]; [done|].
    by rewrite clear_visit_top, IH.
Qed.

Lemma clear_dijkstra g s :
  Plain.dijkstra addr (clear_no_good g) s
  = ((Plain.dijkstra addr g s).1, clear_state (Plain.dijkstra addr g s).2).
Proof.
  unfold Plain.dijkstra. rewrite clear_get_node, clear_edge_count.
  destruct (Plain.get_node g s) as [src|].
  - cbv zeta. rewrite <- clear_graph_reset, <- clear_set_value.
    rewrite clear_get_value. by rewrite <- clear_dijkstra_loop.
  - simpl. unfold clear_state. simpl. by rewrite clear_graph_reset.
Qed.

End PlainSearch.

Lemma plain_graph_timetable_of g :
  plain_graph (timetable_of g) = clear_no_good g.
Proof.
  unfold plain_graph, timetable_of, clear_no_good. simpl. f_equal.
  rewrite map_map. apply map_ext. intros nd.
  unfold plain_node, timetable_node. simpl. f_equal.
  rewrite map_map. rewrite <- (map_id (Plain.edges nd)) at 2.
  apply map_ext. by intros [].
Qed.

Lemma all_edges_timetable_of g :
  all_edges (timetable_of g) = map timetable_edge (plain_all_edges g).
Proof.
  unfold all_edges, plain_all_edges, timetable_of. simpl.
  rewrite map_map. simpl.
  induction (Plain.nodes g) as [|nd l IH]; simpl; [done|].
  by rewrite map_app, IH.
Qed.

Lemma get_edges_timetable_of g u :
  get_edges (timetable_of g) u = map timetable_edge (Plain.get_edges g u).
Proof.
  unfold get_edges, Plain.get_edges, timetable_of. simpl.
  rewrite list_lookup_fmap. by destruct (Plain.nodes g !! u).
Qed.

Lemma timetable_of_wf g : plain_wf_graph g -> wf_graph (timetable_of g).
Proof.
  unfold plain_wf_graph, wf_graph. rewrite all_edges_timetable_of.
  intros H. apply Forall_fmap. eapply Forall_impl; [exact H|].
  intros e. simpl. unfold timetable_of. simpl. by rewrite length_map.
Qed.

Lemma timetable_of_weight g :
  plain_nonneg_graph g -> weight_graph (timetable_of g).
Proof.
  unfold plain_nonneg_graph, weight_graph. rewrite all_edges_timetable_of.
  intros H. apply Forall_fmap. eapply Forall_impl; [exact H|].
  intros e He. by repeat split.
Qed.

Lemma timetable_of_max_span g :
  max_span (timetable_of g) <= 1 + plain_max_cost g.
Proof.
  unfold max_span, plain_max_cost. rewrite all_edges_timetable_of.
  induction (plain_all_edges g) as [|e l IH]; simpl; [lia|].
  unfold edge_span at 1. simpl. lia.
Qed.

Lemma timetable_of_no_overflow g :
  plain_no_overflow g -> no_overflow (timetable_of g).
Proof.
  unfold plain_no_overflow, no_overflow. intros H.
  pose proof (timetable_of_max_span g).
  unfold timetable_of at 1. simpl. rewrite length_map. nia.
Qed.

Lemma plain_get_edges_all g u e :
  e ∈ Plain.get_edges g u -> e ∈ plain_all_edges g.
Proof.
  unfold Plain.get_edges, plain_all_edges. intros He.
  destruct (Plain.nodes g !! u) as [nd|] eqn:Hn; simpl in He;
    [|by apply elem_of_nil in He].
  apply list_elem_of_In, in_concat. exists (Plain.edges nd).
  split; [|by apply list_elem_of_In].
  apply in_map, list_elem_of_In. by eapply list_elem_of_lookup_2.
Qed.

Lemma plain_path_lift g u p v :
  plain_path g u p v -> path (timetable_of g) u (map timetable_edge p) v.
Proof.
  induction 1 as [u Hu|u e p v He Hp IH]; simpl.
  - apply path_nil. unfold timetable_of. simpl. by rewrite length_map.
  - apply path_cons; [|done]. rewrite get_edges_timetable_of.
    apply list_elem_of_fmap. by exists e.
Qed.

Lemma path_unlift g u p v :
  path (timetable_of g) u p v ->
  exists pp, p = map timetable_edge pp /\ plain_path g u pp v.
Proof.
  induction 1 as [u Hu|u e p v He Hp (pp & -> & IH)].
  - exists []. split; [done|]. apply plain_path_nil.
    unfold timetable_of in Hu. simpl in Hu. by rewrite length_map in Hu.
  - rewrite get_edges_timetable_of in He.
    apply list_elem_of_fmap in He as (pe & -> & Hpe).
    exists (pe :: pp). split; [done|]. by apply plain_path_cons.
Qed.

Lemma plain_path_cost g u p v :
  plain_nonneg_graph g -> plain_path g u p v ->
  forall t, 0 <= t ->
  0 <= plain_cost p
  /\ path_cost (map timetable_edge p) t = Some (t + plain_cost p).
Proof.
  intros Hnn. unfold plain_nonneg_graph in Hnn. rewrite Forall_forall in Hnn.
  induction 1 as [u Hu|u e p v He Hp IH]; intros t Ht; simpl.
  - split; [lia|]. by rewrite Z.add_0_r.
  - pose proof (Hnn e (plain_get_edges_all _ _ _ He)) as Hc.
    unfold schedule, spec_wait. simpl.
    replace ((t - 0) mod 1) with 0 by (by rewrite Z.mod_1_r).
    assert (Hw : (if t <=? 0 then 0 - t else 0) = 0).
    { destruct (Z.leb_spec t 0); lia. }
    simpl. rewrite Hw.
    destruct (IH (t + Plain.edge_cost e + 0)) as [H0 ->]; [lia|].
    split; [lia|]. f_equal. lia.
Qed.

Section PlainDistances.

Variable addr : nat -> Z.
Hypothesis addr_inj : forall a b, addr a = addr b -> a = b.

(** X15.  On a constant-weight graph whose edges point into the graph and
    have non-negative costs that cannot add up to the sentinel, the search
    [dijkstra] from a start index that names a node returns, and leaves
    every node with its distance from the start node: the least total cost
    of a path to it, or [INF] when no path leads there.  The field
    [no_good] plays no part. *)
Theorem dijkstra_shortest_distance (g : Plain.Graph) (s : Z) (src : nat) :
  plain_wf_graph g -> plain_nonneg_graph g -> plain_no_overflow g ->
  Plain.get_node g s = Some src ->
  exists st, Plain.dijkstra addr g s = (Returned, st)
    /\ length (Plain.nodes (Plain.graph st)) = length (Plain.nodes g)
    /\ forall v, (v < length (Plain.nodes g))%nat ->
         shortest_distance g src v (Plain.get_value (Plain.graph st) v).
Proof.
  intros Hwf Hnn Hov Hs.
  pose proof (timetable_of_wf g Hwf) as Hwf'.
  pose proof (timetable_of_weight g Hnn) as Hw'.
  pose proof (timetable_of_no_overflow g Hov) as Hov'.
  pose proof (dijkstra_side_by_side addr addr_inj (timetable_of g) s
                Hwf' Hw' Hov') as Hside.
  rewrite plain_graph_timetable_of, clear_dijkstra in Hside.
  assert (Hs' : get_node (timetable_of g) s = Some src).
  { by rewrite <- plain_get_node, plain_graph_timetable_of, clear_get_node. }
  assert (Hret : (dijkstra_timetable addr (timetable_of g) s).1 = Returned).
  { eapply dijkstra_timetable_returns; try done.
    unfold weight_graph in Hw'. eapply Forall_impl; [exact Hw'|].
    intros e (_ & -> & _). done. }
  destruct (dijkstra_timetable addr (timetable_of g) s) as [x tst] eqn:Hrun.
  simpl in Hret. subst x.
  destruct (Plain.dijkstra addr g s) as [y st] eqn:Hplain.
  cbn [fst snd] in Hside.
  assert (y = Returned) as -> by congruence.
  assert (Hgraph : clear_no_good (Plain.graph st) = plain_graph (graph tst)).
  { apply (f_equal (fun r => Plain.graph r.2)) in Hside. exact Hside. }
  destruct (dijkstra_timetable_values addr addr_inj (timetable_of g) s tst
              Hwf' (weight_graph_nonneg _ Hw') Hov' Hrun)
    as (src' & Hsrc & Hlen & _ & Hea).
  assert (src' = src) as -> by congruence.
  assert (Hval : forall v, Plain.get_value (Plain.graph st) v
                           = get_value (graph tst) v).
  { intros v. by rewrite <- clear_get_value, Hgraph, plain_get_value. }
  assert (HN : length (nodes (timetable_of g)) = length (Plain.nodes g)).
  { unfold timetable_of. simpl. by rewrite length_map. }
  exists st. split; [done|]. split.
  { apply (f_equal (fun pg => length (Plain.nodes pg))) in Hgraph.
    unfold clear_no_good, plain_graph in Hgraph. simpl in Hgraph.
    rewrite !length_map in Hgraph. lia. }
  intros v Hv. rewrite Hval.
  destruct (Hea v) as [[Hinf Hnone]|(Hlt & (p & Hp & Hc) & Hmin)]; [lia| |].
  - left. split; [done|]. intros pp Hpp.
    destruct (plain_path_cost g src pp v Hnn Hpp 0) as [_ Hcost]; [lia|].
    rewrite (Hnone _ (plain_path_lift _ _ _ _ Hpp)) in Hcost. done.
  - right. split; [done|]. split.
    + apply path_unlift in Hp as (pp & -> & Hpp). exists pp. split; [done|].
      destruct (plain_path_cost g src pp v Hnn Hpp 0) as [_ Hcost]; [lia|].
      rewrite Hc in Hcost. injection Hcost as ->. lia.
    + intros pp Hpp.
      destruct (plain_path_cost g src pp v Hnn Hpp 0) as [_ Hcost]; [lia|].
      pose proof (Hmin _ _ (plain_path_lift _ _ _ _ Hpp) Hcost). lia.
Qed.

End PlainDistances.

Section PlainFrame.

Variable addr : nat -> Z.

Lemma plain_frame_set_value n v g :
  plain_frame (Plain.set_value n v g) = plain_frame g.
Proof. unfold plain_frame, Plain.set_value. simpl. by apply map_alter_same. Qed.

Lemma plain_frame_set_visited n b g :
  plain_frame (Plain.set_visited n b g) = plain_frame g.
Proof.
  unfold plain_frame, Plain.set_visited. simpl. by apply map_alter_same.
Qed.

Lemma plain_frame_set_prev_node n p g :
  plain_frame (Plain.set_prev_node n p g) = plain_frame g.
Proof.
  unfold plain_frame, Plain.set_prev_node. simpl. by apply map_alter_same.
Qed.

Lemma plain_frame_relax_edge e curr st :
  plain_frame (Plain.graph (Plain.relax_edge addr e curr st))
  = plain_frame (Plain.graph st)
  /\ Plain.start_index (Plain.graph (Plain.relax_edge addr e curr st))
     = Plain.start_index (Plain.graph st).
Proof.
  unfold Plain.relax_edge.
  destruct (Plain.is_visited _ _); [done|]. destruct (_ <? _); [|done].
  simpl. by rewrite plain_frame_set_prev_node, plain_frame_set_value.
Qed.

Lemma plain_frame_relax_edges es curr st :
  plain_frame (Plain.graph (Plain.relax_edges addr es curr st))
  = plain_frame (Plain.graph st)
  /\ Plain.start_index (Plain.graph (Plain.relax_edges addr es curr st))
     = Plain.start_index (Plain.graph st).
Proof.
  revert st. induction es as [|e es IH]; intros st; simpl; [done|].
  destruct (IH (Plain.relax_edge addr e curr st)) as [-> ->].
  apply plain_frame_relax_edge.
Qed.

Lemma plain_frame_visit_top top st :
  plain_frame (Plain.graph (Plain.visit_top addr top st))
  = plain_frame (Plain.graph st)
  /\ Plain.start_index (Plain.graph (Plain.visit_top addr top st))
     = Plain.start_index (Plain.graph st).
Proof.
  unfold Plain.visit_top. simpl.
  destruct (Plain.is_visited (Plain.graph st) top.2); [done|].
  match goal with |- context [Plain.relax_edges addr ?es ?c ?s] =>
    destruct (plain_frame_relax_edges es c s) as [-> ->] end.
  simpl. by rewrite plain_frame_set_visited.
Qed.

Lemma plain_frame_loop fuel st :
  plain_frame (Plain.graph (Plain.dijkstra_loop addr fuel st).2)
  = plain_frame (Plain.graph st)
  /\ Plain.start_index (Plain.graph (Plain.dijkstra_loop addr fuel st).2)
     = Plain.start_index (Plain.graph st).
Proof.
  revert st. induction fuel as [|fuel IH]; intros st; simpl.
  - by destruct (Plain.prio_queue st).
  - destruct (Plain.prio_queue st) as [|top q]; [done|].
    destruct (IH (Plain.visit_top addr top st)) as [-> ->].
    apply plain_frame_visit_top.
Qed.

(** X16.  The constant-weight search changes neither the edges nor the
    field [no_good] of any node, keeps the number of nodes, and leaves the
    index it was called with as the start index of the graph, however it
    ends. *)
Theorem dijkstra_keeps_frame (g : Plain.Graph) (s : Z) :
  let g' := Plain.graph (Plain.dijkstra addr g s).2 in
  map Plain.edges (Plain.nodes g') = map Plain.edges (Plain.nodes g)
  /\ map Plain.no_good (Plain.nodes g') = map Plain.no_good (Plain.nodes g)
  /\ length (Plain.nodes g') = length (Plain.nodes g)
  /\ Plain.start_index g' = s.
Proof.
  intros g'.
  assert (H : plain_frame g' = plain_frame g /\ Plain.start_index g' = s).
  { unfold g', Plain.dijkstra. destruct (Plain.get_node g s) as [src|].
    - match goal with |- context [Plain.dijkstra_loop addr ?f ?s0] =>
        destruct (plain_frame_loop f s0) as [-> ->] end.
      simpl. rewrite plain_frame_set_value.
      unfold plain_frame, Plain.graph_reset. simpl. by rewrite map_map.
    - simpl. unfold plain_frame, Plain.graph_reset. simpl. by rewrite map_map. }
  destruct H as [Hf Hs]. unfold plain_frame in Hf.
  split; [|split; [|split]]; [| | |done].
  - apply (f_equal (map fst)) in Hf. by rewrite !map_map in Hf.
  - apply (f_equal (map snd)) in Hf. by rewrite !map_map in Hf.
  - apply (f_equal length) in Hf. by rewrite !length_map in Hf.
Qed.

End PlainFrame.

(** ** The further properties at the worked inputs *)

Lemma dijkstra_timetable_exit_witness :
  ((dijkstra_timetable in_order weighted_graph 0).1 = Crashed BadIndex
   <-> get_node weighted_graph 0 = None)
  /\ (is_Some (get_node weighted_graph 0) ->
      Forall (fun e => departure_time e <> 0 /\ departure_time e <> -1)
             (all_edges weighted_graph) ->
      (dijkstra_timetable in_order weighted_graph 0).1 = Returned).
Proof.
  apply (dijkstra_timetable_exit in_order in_order_inj weighted_graph 0).
  compute_done.
Defined.

Lemma dijkstra_timetable_crash_witness :
  let g := trap_graph in
  let f := RemOverflow in
  let st := (dijkstra_timetable in_order g 0).2 in
  (f = BadIndex /\ get_node g 0 = None
   \/ exists u e, e ∈ get_edges g u
        /\ is_visited (graph st) u = true
        /\ is_visited (graph st) (connection_node e) = false
        /\ (f = DivisionByZero /\ departure_time e = 0
            /\ get_value (graph st) u = start_time e
            \/ f = RemOverflow /\ departure_time e = -1
               /\ start_time e <= get_value (graph st) u
               /\ int_sub (get_value (graph st) u) (start_time e) = INT_MIN))
  /\ (Forall (fun e => 0 <= departure_time e) (all_edges g) ->
      f <> RemOverflow).
Proof.
  apply (dijkstra_timetable_crash in_order in_order_inj trap_graph 0);
    [compute_done | reflexivity].
Defined.

Lemma dijkstra_timetable_marks_once_witness :
  let st := (dijkstra_timetable in_order timetable_graph 0).2 in
  NoDup (finalized (trace st))
  /\ (forall n, n ∈ finalized (trace st) <-> is_visited (graph st) n = true)
  /\ (forall n, n ∈ finalized (trace st) ->
                (n < length (nodes timetable_graph))%nat)
  /\ (length (finalized (trace st)) <= length (nodes timetable_graph))%nat.
Proof.
  apply (dijkstra_timetable_marks_once in_order in_order_inj
           timetable_graph 0).
  compute_done.
Defined.

Lemma dijkstra_timetable_improves_witness :
  improving (trace (dijkstra_timetable in_order timetable_graph 0).2).
Proof.
  apply (dijkstra_timetable_improves in_order in_order_inj timetable_graph 0).
  compute_done.
Defined.

Lemma wait_time_earliest_departure_witness :
  let e := mkEdge 2 1 10 3 in
  (departure_time e <> 0 \/ 11 < start_time e ->
   exists w, wait_time e 11 = Some w /\ 0 <= w
     /\ get_travel_time e 11 = Some (wrap (11 + w + traverse_time e))
     /\ is_departure e (11 + w)
     /\ forall d, is_departure e d -> 11 <= d -> 11 + w <= d)
  /\ (departure_time e = 0 -> 11 > start_time e ->
      get_travel_time e 11 = Some INF
      /\ forall d, is_departure e d -> d < 11)
  /\ (departure_time e = 0 -> 11 = start_time e ->
      wait_time e 11 = None
      /\ get_travel_time e 11 = None
      /\ is_departure e 11).
Proof.
  apply (wait_time_earliest_departure (mkEdge 2 1 10 3) 11);
    [compute_done | compute_done | unfold INT_MAX; lia].
Defined.

Lemma get_travel_time_fifo_witness :
  get_travel_time (mkEdge 2 1 10 3) 11 = Some 14
  /\ get_travel_time (mkEdge 2 1 10 3) 14 = Some 17
  /\ 14 <= 17.
Proof.
  split; [reflexivity|]. split; [reflexivity|].
  apply (get_travel_time_fifo (mkEdge 2 1 10 3) 11 14 14 17);
    [compute_done | compute_done | lia | lia | unfold INT_MAX; lia
    | compute_done | reflexivity | reflexivity].
Defined.

Lemma get_path_simple_witness :
  let st := (dijkstra_timetable in_order timetable_graph 0).2 in
  exists p, get_path (graph st) 2 = (Returned, p)
    /\ NoDup p
    /\ (forall n, n ∈ p -> is_visited (graph st) n = true)
    /\ (0 < length p <= length (nodes timetable_graph))%nat.
Proof.
  apply (get_path_simple in_order in_order_inj timetable_graph 0 Returned
           (dijkstra_timetable in_order timetable_graph 0).2 2 2%nat);
    [compute_done | compute_done | reflexivity | reflexivity | reflexivity].
Defined.

Lemma get_path_earliest_witness :
  let st := (dijkstra_timetable in_order timetable_graph 0).2 in
  exists es,
    get_path (graph st) 2 = (Returned, 0%nat :: map connection_node es)
    /\ path timetable_graph 0 es 2
    /\ path_cost es 0 = Some (get_value (graph st) 2)
    /\ forall es' c, path timetable_graph 0 es' 2 ->
         path_cost es' 0 = Some c -> get_value (graph st) 2 <= c.
Proof.
  apply (get_path_earliest in_order in_order_inj timetable_graph 0
           (dijkstra_timetable in_order timetable_graph 0).2 0%nat 2 2%nat);
    [compute_done | compute_done | compute_done | compute_done
    | reflexivity | reflexivity | reflexivity | compute_done].
Defined.

Lemma test_case_output_witness :
  let lines := [(0, 1, 5, 0, 2); (1, 2, 10, 3, 1)] in
  let queries := [2; 3; 1] in
  let g := timetable_graph in
  exists src out,
    get_node g 0 = Some src
    /\ test_case in_order 4 0 lines queries = (Returned, out)
    /\ length out = length queries
    /\ forall i q, queries !! i = Some q ->
         exists line, out !! i = Some line
           /\ ((line = "Impossible"%string
                /\ forall p, path g src p (Z.to_nat q) ->
                             path_cost p 0 = None)
               \/ exists c p, line = pretty c /\ 0 <= c < INF
                    /\ path g src p (Z.to_nat q) /\ path_cost p 0 = Some c
                    /\ forall p' c', path g src p' (Z.to_nat q) ->
                         path_cost p' 0 = Some c' -> c <= c').
Proof.
  apply (test_case_output in_order in_order_inj 4 0
           [(0, 1, 5, 0, 2); (1, 2, 10, 3, 1)] [2; 3; 1] timetable_graph);
    [reflexivity | compute_done | compute_done | reflexivity | compute_done].
Defined.

Lemma test_case_faults_witness :
  let run := test_case in_order 2 0 [(0, 1, 0, 0, 5)] [1] in
  run.1 <> OutOfFuel
  /\ (run.1 = Crashed BadIndex ->
      ~ (Forall (fun l => 0 <= line_tail l < 2 /\ 0 <= line_head l < 2)
                [(0, 1, 0, 0, 5)]
         /\ 0 <= 0 < 2
         /\ Forall (fun q => 0 <= q < 2) [1]))
  /\ (run.1 = Crashed DivisionByZero ->
      run.2 = []
      /\ exists l, l ∈ [(0, 1, 0, 0, 5)]
                   /\ departure_time (line_edge l) = 0).
Proof.
  apply (test_case_faults in_order in_order_inj 2 0 [(0, 1, 0, 0, 5)] [1]).
Defined.

Lemma dijkstra_shortest_distance_witness :
  exists st, Plain.dijkstra in_order plain_weighted_graph 0 = (Returned, st)
    /\ length (Plain.nodes (Plain.graph st))
       = length (Plain.nodes plain_weighted_graph)
    /\ forall v, (v < length (Plain.nodes plain_weighted_graph))%nat ->
         shortest_distance plain_weighted_graph 0 v
           (Plain.get_value (Plain.graph st) v).
Proof.
  apply (dijkstra_shortest_distance in_order in_order_inj
           plain_weighted_graph 0 0%nat);
    [compute_done | compute_done | compute_done | reflexivity].
Defined.
